(** * MovieLens ingestion pipeline: a shallow embedding

    The development follows [backend/seed_movielens.py] (parsers, rating
    aggregation, placeholder synthesis, TMDb enrichment, the [seed_movies]
    loop) and [backend/app/crud.py] / [backend/app/models.py] (the catalog
    and its get-or-create / upsert operations), with the lookups by id of
    [backend/app/crud.py] and the detail endpoints of
    [backend/app/main.py] that answer from them.

    Python [str] values are lists of characters: a character stands for
    a code point below 256, and the classes of characters (whitespace,
    digits) are those of CPython on that range. Python [int] is [Z],
    Python [float] is the kernel's binary64 [float], a raised exception is
    the left injection of a sum, and the SQLAlchemy session is an explicit
    catalog value passed through every call. The interpreter is CPython
    3.11 with its default settings and the database is SQLite, the
    engine of the development database [backend/dev.db]. *)

From Stdlib Require Import ZArith List String Ascii Lia Bool Sorted.
From Stdlib Require Import DecimalString.
From Stdlib Require Import Floats.
From stdpp Require Import gmap strings list.

(* ================================================================= *)
(** ** Python values: strings, exceptions, [int()], formatting *)

Module Py.

Abbreviation str := (list ascii).

(** A string literal of the source. *)
Definition lit (x : string) : str := list_ascii_of_string x.

(** The exceptions the modelled code can raise. *)
Inductive exn : Set :=
| FileNotFoundError | KeyError | ValueError | TypeError | AttributeError
| OverflowError.

(** [inl e]: the call raised [e]; [inr v]: it returned [v]. *)
Abbreviation res A := (exn + A)%type.

Definition bind {A B} (x : res A) (k : A -> res B) : res B :=
  match x with inl e => inl e | inr a => k a end.

(** [str.isspace] on one character: tab, line feed, vertical tab, form
    feed, carriage return, the four separator controls 0x1c..0x1f, the
    space, and the two whitespace characters above 127, next line
    (0x85) and no-break space (0xa0). [str.strip] drops these, and the
    regular expression class [\s] is the same set. *)
Definition is_space (c : ascii) : bool :=
  let n := nat_of_ascii c in
  ((9 <=? n) && (n <=? 13)) || ((28 <=? n) && (n <=? 32)) ||
  (n =? 133) || (n =? 160).

(** The whitespace [int()] drops around a literal: the same set without
    the four separator controls. *)
Definition is_int_space (c : ascii) : bool :=
  let n := nat_of_ascii c in
  ((9 <=? n) && (n <=? 13)) || (n =? 32) || (n =? 133) || (n =? 160).

(** The class [\d], and the digits [int()] accepts. *)
Definition is_digit (c : ascii) : bool :=
  let n := nat_of_ascii c in (48 <=? n) && (n <=? 57).

(** [.] of a regular expression without DOTALL: anything but line feed. *)
Definition is_dot (c : ascii) : bool := negb (nat_of_ascii c =? 10).

Definition is_char (a c : ascii) : bool := Ascii.eqb a c.

Fixpoint lstrip (s : str) : str :=
  match s with
  | c :: s' => if is_space c then lstrip s' else s
  | [] => []
  end.

Definition rstrip (s : str) : str := rev (lstrip (rev s)).

(** [s.strip()] *)
Definition strip (s : str) : str := rstrip (lstrip s).

(** [s.split(sep)] for a one-character separator: n separators give
    n+1 pieces, and the empty string gives one empty piece. *)
Fixpoint split (sep : ascii) (s : str) : list str :=
  match s with
  | [] => [[]]
  | c :: s' =>
      if Ascii.eqb c sep then [] :: split sep s'
      else match split sep s' with
           | t :: ts => (c :: t) :: ts
           | [] => [[c]]
           end
  end.

(** [bool(s)] of a string: non-empty. *)
Definition truthy (s : str) : bool :=
  match s with [] => false | _ :: _ => true end.

Definition digit_val (c : ascii) : Z := (Z.of_nat (nat_of_ascii c) - 48)%Z.

(** The digits of a base-10 literal: digits, single underscores allowed
    between two digits only. [prev] tells that the previous character
    was a digit. *)
Fixpoint int_digits (acc : Z) (prev : bool) (s : str) : option Z :=
  match s with
  | [] => if prev then Some acc else None
  | c :: s' =>
      if is_digit c then int_digits (10 * acc + digit_val c)%Z true s'
      else if is_char "_" c && prev then
             match s' with
             | d :: _ => if is_digit d then int_digits acc false s' else None
             | [] => None
             end
      else None
  end.

Fixpoint int_lstrip (s : str) : str :=
  match s with
  | c :: s' => if is_int_space c then int_lstrip s' else s
  | [] => []
  end.

(** The literal [int()] reads, without the whitespace around it. *)
Definition int_strip (s : str) : str := rev (int_lstrip (rev (int_lstrip s))).

(** [sys.get_int_max_str_digits()]: the longest decimal literal [int()]
    converts. *)
Definition int_max_str_digits : Z := 4300.

(** [int(s)] of a string: surrounding whitespace is dropped, then an
    optional sign, then the digits; anything else raises ValueError,
    and so does a literal of more than [int_max_str_digits] digits. *)
Definition int (s : str) : res Z :=
  let t := int_strip s in
  let '(neg, body) :=
    match t with
    | c :: r => if is_char "-" c then (true, r)
                else if is_char "+" c then (false, r) else (false, t)
    | [] => (false, t)
    end in
  match int_digits 0 false body with
  | Some n =>
      if (Z.of_nat (length (List.filter is_digit body))
          <=? int_max_str_digits)%Z
      then inr (if neg then (- n)%Z else n)
      else inl ValueError
  | None => inl ValueError
  end.

(** [str(n)] of an integer. *)
Definition str_of_Z (n : Z) : str :=
  (if (n <? 0)%Z then ["-"%char] else []) ++
  lit (NilZero.string_of_uint (N.to_uint (Z.abs_N n))).

(** The format specification [:03d]: the decimal digits, zero-padded
    after the sign to a total width of three. *)
Definition format_03d (n : Z) : str :=
  let sign := if (n <? 0)%Z then ["-"%char] else [] in
  let digits := lit (NilZero.string_of_uint (N.to_uint (Z.abs_N n))) in
  sign ++ repeat "0"%char (3 - length sign - length digits) ++ digits.

(** [float(n)] of an integer: the nearest binary64 value. *)
Definition float_of_Z (n : Z) : float :=
  SF2Prim (binary_normalize prec emax n 0 false).

(** [sum(xs)] of a list of floats, accumulated from the left in
    binary64, starting from zero, as CPython 3.11 adds them. *)
Definition sum (xs : list float) : float :=
  fold_left PrimFloat.add xs PrimFloat.zero.

(** The integer nearest to [a / b] for [b > 0], ties to even. *)
Definition div_half_even (a b : Z) : Z :=
  let q := (a / b)%Z in
  match (2 * (a mod b) ?= b)%Z with
  | Lt => q
  | Gt => (q + 1)%Z
  | Eq => if Z.even q then q else (q + 1)%Z
  end.

(** [round(x, 2)]: the exact value of [x] is rounded to the nearest
    multiple of 1/100 (ties to even) and that decimal is converted back
    to the nearest binary64 value; zeros, infinities and nan are
    returned as they are. *)
Definition round2 (x : float) : float :=
  match Prim2SF x with
  | S754_finite sg m e =>
      let n := if (0 <=? e)%Z then (100 * Zpos m * 2 ^ e)%Z
               else div_half_even (100 * Zpos m) (2 ^ (- e)) in
      match n with
      | Zpos p => SF2Prim (SFdiv prec emax (S754_finite sg p 0)
                                           (S754_finite false 100 0))
      | _ => SF2Prim (S754_zero sg)
      end
  | _ => x
  end.

End Py.

(* ================================================================= *)
(** ** The fragment of [re] the title pattern uses *)

Module Re.
Import Py.

(** A pattern is a sequence of atoms. *)
Inductive atom : Type :=
| Bos                          (* ^ *)
| Eos                          (* $ *)
| Chr (p : ascii -> bool)      (* one character of a class *)
| StarG (p : ascii -> bool)    (* class*, greedy *)
| PlusL (p : ascii -> bool)    (* class+?, lazy *)
| GOpen (n : nat)              (* ( of group n *)
| GClose (n : nat).            (* ) of group n *)

(** Where each group was opened, and the spans of the closed groups. *)
Record marks : Type := Marks {
  opened : list (nat * nat);
  spans : list (nat * (nat * nat))
}.

Definition no_marks : marks := Marks [] [].

Fixpoint assoc {A} (n : nat) (l : list (nat * A)) : option A :=
  match l with
  | [] => None
  | (k, v) :: l' => if Nat.eqb n k then Some v else assoc n l'
  end.

Definition open_group (n pos : nat) (m : marks) : marks :=
  Marks ((n, pos) :: opened m) (spans m).

Definition close_group (n pos : nat) (m : marks) : marks :=
  match assoc n (opened m) with
  | Some b => Marks (opened m) ((n, (b, pos)) :: spans m)
  | None => m
  end.

(** What is left of the pattern, as a function of the rest of the
    subject, the position reached and the marks. *)
Definition cont := str -> nat -> marks -> option marks.

(** Greedy repetition: take one more character first, and fall back
    to the rest of the pattern when that fails. *)
Fixpoint star_greedy (p : ascii -> bool) (k : cont)
         (s : str) (pos : nat) (m : marks) : option marks :=
  match s with
  | c :: s' =>
      if p c then
        match star_greedy p k s' (S pos) m with
        | Some r => Some r
        | None => k s pos m
        end
      else k s pos m
  | [] => k s pos m
  end.

(** Lazy repetition: try the rest of the pattern first, and take one
    more character when that fails. *)
Fixpoint star_lazy (p : ascii -> bool) (k : cont)
         (s : str) (pos : nat) (m : marks) : option marks :=
  match k s pos m with
  | Some r => Some r
  | None =>
      match s with
      | c :: s' => if p c then star_lazy p k s' (S pos) m else None
      | [] => None
      end
  end.

(** Backtracking match of a pattern at a position of the subject. *)
Fixpoint run (pat : list atom) : cont :=
  match pat with
  | [] => fun _ _ m => Some m
  | a :: pat' =>
      let k := run pat' in
      match a with
      | Bos => fun s pos m => if Nat.eqb pos 0 then k s pos m else None
      | Eos => fun s pos m =>
          match s with
          | [] => k s pos m
          | [c] => if is_dot c then None else k s pos m
          | _ => None
          end
      | Chr p => fun s pos m =>
          match s with
          | c :: s' => if p c then k s' (S pos) m else None
          | [] => None
          end
      | StarG p => star_greedy p k
      | PlusL p => fun s pos m =>
          match s with
          | c :: s' => if p c then star_lazy p k s' (S pos) m else None
          | [] => None
          end
      | GOpen n => fun s pos m => k s pos (open_group n pos m)
      | GClose n => fun s pos m => k s pos (close_group n pos m)
      end
  end.

(** [re.search]: the first start position at which the pattern
    matches. The match object keeps the subject and the spans. *)
Fixpoint search_from (pat : list atom) (s : str) (pos : nat) : option marks :=
  match run pat s pos no_marks with
  | Some m => Some m
  | None =>
      match s with
      | _ :: s' => search_from pat s' (S pos)
      | [] => None
      end
  end.

Definition search (pat : list atom) (subject : str) : option (str * marks) :=
  match search_from pat subject 0 with
  | Some m => Some (subject, m)
  | None => None
  end.

(** [match.group(n)]; [None] when the group took no part. *)
Definition group (mo : str * marks) (n : nat) : option str :=
  match assoc n (spans (snd mo)) with
  | Some (b, e) => Some (firstn (e - b) (skipn b (fst mo)))
  | None => None
  end.

End Re.

(* ================================================================= *)
(** ** The catalog: [backend/app/models.py] *)

Module models.
Import Py.

Module Genre.
Record t : Type := Make { id : Z; name : str }.
End Genre.

Module Director.
Record t : Type := Make { id : Z; name : str; bio : option str }.
End Director.

Module Actor.
Record t : Type := Make {
  id : Z; name : str; bio : option str;
  tmdb_person_id : option Z; profile_image_url : option str
}.
End Actor.

(** A movie row together with its rows of the two association tables;
    [director_id], [actors] and [genres] hold primary keys, [actors] and
    [genres] as the collections are read back from the database. The
    two timestamp columns are left out. *)
Module Movie.
Record t : Type := Make {
  id : Z; ml_id : Z; tmdb_id : option Z; title : str;
  release_year : option Z; description : option str;
  rating : option float; rating_count : Z; poster_url : option str;
  director_id : option Z; actors : list Z; genres : list Z
}.
End Movie.

(** The state of the database behind a session: one list of rows per
    table, in insertion order. *)
Record Catalog : Type := MkCatalog {
  genres : list Genre.t;
  directors : list Director.t;
  actors : list Actor.t;
  movies : list Movie.t
}.

Definition empty : Catalog := MkCatalog [] [] [] [].

(** The key an integer primary key column gets on insert. *)
Definition next_id (ids : list Z) : Z := (1 + fold_right Z.max 0 ids)%Z.

(** One more row of an association table. The primary key of the table
    is the pair (movie, entity): a movie has one row per entity, and the
    rows of a movie are read back in key order. *)
Fixpoint link (x : Z) (l : list Z) : list Z :=
  match l with
  | [] => [x]
  | y :: l' =>
      if (x <? y)%Z then x :: l
      else if (x =? y)%Z then l
      else y :: link x l'
  end.

(** The rows of an association table for a movie whose collection was
    assigned the entities with the given keys. *)
Definition links (ids : list Z) : list Z := fold_right link [] ids.

(** The integers SQLite stores: 64-bit, signed. The driver raises
    OverflowError when a statement is given any other, and the statement
    is not executed. *)
Definition sqlite_int (z : Z) : bool :=
  (- 2 ^ 63 <=? z)%Z && (z <? 2 ^ 63)%Z.

Definition sqlite_int_opt (z : option Z) : bool :=
  match z with Some z => sqlite_int z | None => true end.

End models.

(* ================================================================= *)
(** ** Entity resolution and upsert: [backend/app/crud.py] *)

Module crud.
Import Py models.

(** [query.filter(...).first()], with the position of the row. *)
Fixpoint first_where {A} (p : A -> bool) (l : list A) : option (nat * A) :=
  match l with
  | [] => None
  | x :: l' =>
      if p x then Some (0, x)
      else match first_where p l' with
           | Some (i, y) => Some (S i, y)
           | None => None
           end
  end.

Definition get_or_create_genre (db : Catalog) (name : str)
  : Catalog * Genre.t :=
  match first_where (fun g => bool_decide (Genre.name g = name)) (genres db) with
  | Some (_, genre) => (db, genre)
  | None =>
      let genre := Genre.Make (next_id (map Genre.id (genres db))) name in
      (MkCatalog (genres db ++ [genre]) (directors db) (actors db) (movies db),
       genre)
  end.

Definition get_or_create_director (db : Catalog) (name : str) (bio : option str)
  : Catalog * Director.t :=
  match first_where (fun d => bool_decide (Director.name d = name)) (directors db) with
  | Some (_, director) => (db, director)
  | None =>
      let director :=
        Director.Make (next_id (map Director.id (directors db))) name bio in
      (MkCatalog (genres db) (directors db ++ [director]) (actors db) (movies db),
       director)
  end.

Definition get_or_create_actor (db : Catalog) (name : str) (bio : option str)
  : Catalog * Actor.t :=
  match first_where (fun a => bool_decide (Actor.name a = name)) (actors db) with
  | Some (_, actor) => (db, actor)
  | None =>
      let actor :=
        Actor.Make (next_id (map Actor.id (actors db))) name bio None None in
      (MkCatalog (genres db) (directors db) (actors db ++ [actor]) (movies db),
       actor)
  end.

(** The assignments to [movie.actors] and [movie.genres] after the
    update / create branches: only a supplied list is assigned. The
    movie the function returns is refreshed after the commit, so its
    collections are the rows of the association tables. *)
Definition set_relationships (movie : Movie.t)
           (actors : option (list Actor.t)) (genres : option (list Genre.t))
  : Movie.t :=
  let movie :=
    match actors with
    | Some l =>
        Movie.Make (Movie.id movie) (Movie.ml_id movie) (Movie.tmdb_id movie)
          (Movie.title movie) (Movie.release_year movie)
          (Movie.description movie) (Movie.rating movie)
          (Movie.rating_count movie) (Movie.poster_url movie)
          (Movie.director_id movie) (links (map Actor.id l))
          (Movie.genres movie)
    | None => movie
    end in
  match genres with
  | Some l =>
      Movie.Make (Movie.id movie) (Movie.ml_id movie) (Movie.tmdb_id movie)
        (Movie.title movie) (Movie.release_year movie)
        (Movie.description movie) (Movie.rating movie)
        (Movie.rating_count movie) (Movie.poster_url movie)
        (Movie.director_id movie) (Movie.actors movie)
        (links (map Genre.id l))
  | None => movie
  end.

(** The integers a call of [create_or_update_movie_by_ml_id] hands to
    the database: the query binds [ml_id], the insert or update of the
    commit binds all four. *)
Definition storable (ml_id : Z) (release_year : option Z) (rating_count : Z)
           (tmdb_id : option Z) : bool :=
  sqlite_int ml_id && sqlite_int_opt release_year &&
  sqlite_int rating_count && sqlite_int_opt tmdb_id.

(** The function on integers the database stores (see [storable]).
    A rating is kept as the float that is passed, which is what the
    database holds for every float but nan. *)
Definition create_or_update_movie_by_ml_id
           (db : Catalog) (ml_id : Z) (title : str)
           (release_year : option Z) (description : option str)
           (rating : option float) (rating_count : Z)
           (poster_url : option str) (tmdb_id : option Z)
           (director : option Director.t)
           (actors : option (list Actor.t)) (genres : option (list Genre.t))
  : Catalog * Movie.t :=
  match first_where (fun m => bool_decide (Movie.ml_id m = ml_id)) (movies db) with
  | Some (i, movie) =>
      (* Update existing movie *)
      let movie :=
        Movie.Make (Movie.id movie) (Movie.ml_id movie) tmdb_id title
          release_year description rating rating_count poster_url
          (match director with
           | Some d => Some (Director.id d)
           | None => Movie.director_id movie
           end)
          (Movie.actors movie) (Movie.genres movie) in
      let movie := set_relationships movie actors genres in
      (MkCatalog (models.genres db) (directors db) (models.actors db)
                 (<[i := movie]> (movies db)),
       movie)
  | None =>
      (* Create new movie *)
      let movie :=
        Movie.Make (next_id (map Movie.id (movies db))) ml_id tmdb_id title
          release_year description rating rating_count poster_url
          (option_map Director.id director) [] [] in
      let movie := set_relationships movie actors genres in
      (MkCatalog (models.genres db) (directors db) (models.actors db)
                 (movies db ++ [movie]),
       movie)
  end.

(** [query.filter(models.Movie.id == movie_id).first()] *)
Definition get_movie_by_id (db : Catalog) (movie_id : Z) : option Movie.t :=
  snd <$> first_where (fun m => bool_decide (Movie.id m = movie_id)) (movies db).

Definition get_actor_by_id (db : Catalog) (actor_id : Z) : option Actor.t :=
  snd <$> first_where (fun a => bool_decide (Actor.id a = actor_id)) (actors db).

Definition get_director_by_id (db : Catalog) (director_id : Z)
  : option Director.t :=
  snd <$> first_where (fun d => bool_decide (Director.id d = director_id))
                      (directors db).

(** [db.query(models.Genre).all()] *)
Definition get_all_genres (db : Catalog) : list Genre.t := genres db.

(** [db.query(models.Director).all()] *)
Definition get_all_directors (db : Catalog) : list Director.t := directors db.

(** [actor.movies]: the movies the association table links to the
    actor, listed here in the order of the movies table. *)
Definition Actor_movies (db : Catalog) (actor : Actor.t) : list Movie.t :=
  List.filter (fun m => bool_decide (Actor.id actor ∈ Movie.actors m))
              (movies db).

Definition get_actor_movies (db : Catalog) (actor_id : Z) : list Movie.t :=
  match first_where (fun a => bool_decide (Actor.id a = actor_id)) (actors db) with
  | Some (_, actor) => Actor_movies db actor
  | None => []
  end.

End crud.

(* ================================================================= *)
(** ** The seeder: [backend/seed_movielens.py] *)

Module seed.
Import Py Re models.

(** The pattern [^(.+?)\s*\((\d{4})\)$]. *)
Definition title_pattern : list atom :=
  [Bos; GOpen 1; PlusL is_dot; GClose 1; StarG is_space;
   Chr (is_char "("); GOpen 2;
   Chr is_digit; Chr is_digit; Chr is_digit; Chr is_digit;
   GClose 2; Chr (is_char ")"); Eos].

(** [x.strip()] where [x] may be [None]. *)
Definition strip_opt (x : option str) : res str :=
  match x with Some s => inr (strip s) | None => inl AttributeError end.

(** [int(x)] where [x] may be [None]. *)
Definition int_opt (x : option str) : res Z :=
  match x with Some s => int s | None => inl TypeError end.

Definition extract_year_from_title (title : str) : res (str * option Z) :=
  match search title_pattern (strip title) with
  | Some mo =>
      bind (strip_opt (group mo 1)) (fun clean_title =>
      bind (int_opt (group mo 2)) (fun year =>
      inr (clean_title, Some year)))
  | None => inr (strip title, None)
  end.

Definition parse_genres (genre_string : str) : list str :=
  if negb (truthy genre_string)
     || bool_decide (genre_string = lit "(no genres listed)")
  then []
  else map strip
           (List.filter (fun g => truthy (strip g)) (split "|" genre_string)).

(** The warnings and errors the seeder logs. *)
Inductive log_entry : Type :=
| Warn_ratings_not_found
| Warn_search_failed (title : str) (year : option Z)
| Warn_credits_failed (tmdb_id : Z)
| Warn_enrichment_failed (title : str) (e : exn)
| Error_movies_not_found
| Error_seeding (e : exn).

(** [ratings_data[movie_id].append(rating)] on a [defaultdict(list)]. *)
Definition append_rating (d : gmap Z (list float)) (ev : Z * float)
  : gmap Z (list float) :=
  <[ev.1 := default [] (d !! ev.1) ++ [ev.2]]> d.

(** The ratings file is given as its decoded rows, [None] when it does
    not exist. *)
Definition calculate_ratings (ratings_file : option (list (Z * float)))
  : gmap Z (float * Z) * list log_entry :=
  match ratings_file with
  | None => (∅, [Warn_ratings_not_found])
  | Some rows =>
      let ratings_data := fold_left append_rating rows ∅ in
      ((fun ratings =>
          let avg_rating :=
            (sum ratings / float_of_Z (Z.of_nat (length ratings)))%float in
          (round2 avg_rating, Z.of_nat (length ratings)))
         <$> ratings_data, [])
  end.

(** *** The TMDb service

    What [session.get] gives for a request: the call raises a
    [requests.RequestException], or [raise_for_status] does, or the
    body decodes to JSON. The JSON objects keep the keys the code
    reads; a key that can be missing is an option. *)
Inductive response (A : Type) : Type :=
| Transport_error
| Http_error
| Ok_json (data : A).
Arguments Transport_error {A}.
Arguments Http_error {A}.
Arguments Ok_json {A} data.

Record search_result : Type := {
  sr_id : option Z;
  sr_poster_path : option str
}.
Record crew_member : Type := { cm_job : option str; cm_name : option str }.
Record cast_member : Type := { ca_name : option str }.
Record credits_data : Type := {
  cd_crew : option (list crew_member);
  cd_cast : option (list cast_member)
}.

(** The enricher: the answers of the remote service to the two requests
    the seeder sends. The body of a search answer has its list of
    results unless the key is missing; a result is an object with at
    least one key, or [None] for an empty object, which the code takes
    as no result ([if not movie_data]). *)
Record TMDbEnricher : Type := {
  get_search_movie :
    str -> option Z -> response (option (list (option search_result)));
  get_credits : Z -> response credits_data
}.

(** [if year: params['year'] = year] *)
Definition year_param (year : option Z) : option Z :=
  match year with
  | Some y => if (y =? 0)%Z then None else Some y
  | None => None
  end.

(** [search_movie], as its caller sees the result: [None] is [None] or
    an empty first result. *)
Definition search_movie (self : TMDbEnricher) (title : str) (year : option Z)
  : list log_entry * res (option search_result) :=
  match get_search_movie self title (year_param year) with
  | Transport_error | Http_error => ([Warn_search_failed title year], inr None)
  | Ok_json None => ([], inl KeyError)
  | Ok_json (Some []) => ([], inr None)
  | Ok_json (Some (r :: _)) => ([], inr r)
  end.

Definition get_movie_credits (self : TMDbEnricher) (tmdb_id : Z)
  : list log_entry * option credits_data :=
  match get_credits self tmdb_id with
  | Transport_error | Http_error => ([Warn_credits_failed tmdb_id], None)
  | Ok_json data => ([], Some data)
  end.

Definition deterministic_placeholder_director (movie_ml_id : Z) : str :=
  let hash_val := ((movie_ml_id * 17 + 42) mod 1000)%Z in
  lit "Director_" ++ format_03d hash_val.

Definition deterministic_placeholder_actors (movie_ml_id : Z) (top_n : nat)
  : list str :=
  let base_hash := (movie_ml_id * 23)%Z in
  map (fun i =>
         let hash_val := ((base_hash + Z.of_nat i * 13) mod 1000)%Z in
         lit "Actor_" ++ format_03d hash_val)
      (seq 0 top_n).

(** The loop over [top_actors]: an entry without a name raises
    KeyError, after the actors before it were resolved. *)
Fixpoint resolve_cast (db : Catalog) (top_actors : list cast_member)
         (acc : list Actor.t) : Catalog * res (list Actor.t) :=
  match top_actors with
  | [] => (db, inr acc)
  | actor_data :: rest =>
      match ca_name actor_data with
      | None => (db, inl KeyError)
      | Some actor_name =>
          let '(db, actor) := crud.get_or_create_actor db actor_name None in
          resolve_cast db rest (acc ++ [actor])
      end
  end.

Definition is_director (c : crew_member) : bool :=
  bool_decide (cm_job c = Some (lit "Director")).

Definition enrichment : Type :=
  option Z * option str * option Director.t * list Actor.t.

Definition enrich_movie_with_tmdb
           (enricher : TMDbEnricher) (title : str) (year : option Z)
           (db : Catalog)
  : Catalog * list log_entry * res enrichment :=
  match search_movie enricher title year with
  | (log, inl e) => (db, log, inl e)
  | (log, inr None) => (db, log, inr (None, None, None, []))
  | (log, inr (Some movie_data)) =>
      match sr_id movie_data with
      | None => (db, log, inl KeyError)
      | Some tmdb_id =>
          let poster_url :=
            match sr_poster_path movie_data with
            | Some poster_path =>
                if truthy poster_path
                then Some (lit "https://image.tmdb.org/t/p/w500" ++ poster_path)
                else None
            | None => None
            end in
          let '(log2, credits) := get_movie_credits enricher tmdb_id in
          match credits with
          | None => (db, log ++ log2, inr (Some tmdb_id, poster_url, None, []))
          | Some credits =>
              let crew := default [] (cd_crew credits) in
              let directors := List.filter is_director crew in
              let found :=
                match directors with
                | [] => (db, inr None)
                | d :: _ =>
                    match cm_name d with
                    | None => (db, inl KeyError)
                    | Some director_name =>
                        let '(db, director) :=
                          crud.get_or_create_director db director_name None in
                        (db, inr (Some director))
                    end
                end in
              match found with
              | (db, inl e) => (db, log ++ log2, inl e)
              | (db, inr director) =>
                  let cast := default [] (cd_cast credits) in
                  let top_actors := firstn 8 cast in
                  match resolve_cast db top_actors [] with
                  | (db, inl e) => (db, log ++ log2, inl e)
                  | (db, inr actors) =>
                      (db, log ++ log2,
                       inr (Some tmdb_id, poster_url, director, actors))
                  end
              end
          end
      end
  end.

(** A loop that resolves each name of a list against the catalog and
    appends the entity to a result list. *)
Fixpoint resolve_each {E : Type} (get_or_create : Catalog -> str -> Catalog * E)
         (db : Catalog) (names : list str) (acc : list E)
  : Catalog * list E :=
  match names with
  | [] => (db, acc)
  | name :: rest =>
      let '(db, e) := get_or_create db name in
      resolve_each get_or_create db rest (acc ++ [e])
  end.

Definition create_placeholder_data (movie_ml_id : Z) (db : Catalog)
  : Catalog * (Director.t * list Actor.t) :=
  let director_name := deterministic_placeholder_director movie_ml_id in
  let '(db, director) :=
    crud.get_or_create_director db director_name
                                (Some (lit "Placeholder director")) in
  let actor_names := deterministic_placeholder_actors movie_ml_id 5 in
  let '(db, actors) :=
    resolve_each (fun db actor_name =>
                    crud.get_or_create_actor db actor_name
                                             (Some (lit "Placeholder actor")))
                 db actor_names [] in
  (db, (director, actors)).

(** A row of [csv.DictReader]: a dict from the columns of the header
    to the fields of the line, a field being [None] when the line is
    short. *)
Abbreviation row := (gmap str (option str)).

(** [row[key]] *)
Definition getitem (r : row) (key : str) : res (option str) :=
  match r !! key with
  | Some v => inr v
  | None => inl KeyError
  end.

(** What the loop body reads from a row before it touches the catalog:
    the movie id, the parsed title and year, and the genre names. *)
Definition read_row (r : row) : res (Z * str * option Z * list str) :=
  bind (getitem r (lit "movieId")) (fun movie_id_field =>
  bind (int_opt movie_id_field) (fun movie_id =>
  bind (getitem r (lit "title")) (fun title_with_year =>
  bind (getitem r (lit "genres")) (fun genre_string =>
  bind (match title_with_year with
        | Some t => extract_year_from_title t
        | None => inl AttributeError
        end) (fun '(title, year) =>
  let genre_names :=
    match genre_string with
    | Some g => parse_genres g
    | None => []
    end in
  inr (movie_id, title, year, genre_names)))))).

(** [genres = [crud.get_or_create_genre(db, name) for name in genre_names]] *)
Definition resolve_genres (db : Catalog) (genre_names : list str)
  : Catalog * list Genre.t :=
  resolve_each crud.get_or_create_genre db genre_names [].

(** [movie_ratings.get(movie_id, (None, 0))] *)
Definition get_rating (movie_ratings : gmap Z (float * Z)) (movie_id : Z)
  : option float * Z :=
  match movie_ratings !! movie_id with
  | Some (avg, n) => (Some avg, n)
  | None => (None, 0%Z)
  end.

(** The block [if enricher: try: ... except Exception as e: ...]: an
    exception of the enrichment is logged as a warning and the four
    variables keep their defaults. *)
Definition try_enrich (enricher : option TMDbEnricher)
           (title : str) (year : option Z) (db : Catalog)
  : Catalog * list log_entry * enrichment :=
  match enricher with
  | Some enricher =>
      match enrich_movie_with_tmdb enricher title year db with
      | (db, log, inr found) => (db, log, found)
      | (db, log, inl e) =>
          (db, log ++ [Warn_enrichment_failed title e],
           (None, None, None, []))
      end
  | None => (db, [], (None, None, None, []))
  end.

(** The block [if director is None: ...]: the placeholder director,
    and the placeholder actors unless the enrichment gave actors. *)
Definition or_placeholders (movie_id : Z) (db : Catalog)
           (director : option Director.t) (actors : list Actor.t)
  : Catalog * (Director.t * list Actor.t) :=
  match director with
  | None =>
      let '(db, (director, placeholder_actors)) :=
        create_placeholder_data movie_id db in
      (db, (director,
            match actors with [] => placeholder_actors | _ => actors end))
  | Some director => (db, (director, actors))
  end.

(** [f"A {year} film" if year else "A classic film"] *)
Definition description_of (year : option Z) : str :=
  match year_param year with
  | Some y => lit "A " ++ str_of_Z y ++ lit " film"
  | None => lit "A classic film"
  end.

(** One iteration of the loop of [seed_movies]. The call of the upsert
    is not inside a [try]: when the database refuses one of its
    integers, the OverflowError leaves the loop, after the genres,
    director and actors of the row were committed. *)
Definition seed_row (enricher : option TMDbEnricher)
           (movie_ratings : gmap Z (float * Z)) (r : row) (db : Catalog)
  : Catalog * list log_entry * res Movie.t :=
  match read_row r with
  | inl e => (db, [], inl e)
  | inr (movie_id, title, year, genre_names) =>
      let '(rating, rating_count) := get_rating movie_ratings movie_id in
      let '(db, genres) := resolve_genres db genre_names in
      let '(db, log, (tmdb_id, poster_url, director, actors)) :=
        try_enrich enricher title year db in
      let '(db, (director, actors)) :=
        or_placeholders movie_id db director actors in
      if crud.storable movie_id year rating_count tmdb_id then
        let '(db, movie) :=
          crud.create_or_update_movie_by_ml_id
            db movie_id title year (Some (description_of year))
            rating rating_count poster_url tmdb_id
            (Some director) (Some actors) (Some genres) in
        (db, log, inr movie)
      else (db, log, inl OverflowError)
  end.

(** How a run of [seed_movies] ends: it returns after [processed]
    rows, or it re-raises the exception it logged. *)
Inductive outcome : Type :=
| Completed (processed : nat)
| Failed (e : exn).

Fixpoint seed_rows (enricher : option TMDbEnricher)
         (movie_ratings : gmap Z (float * Z)) (rows : list row)
         (processed : nat) (db : Catalog)
  : Catalog * list log_entry * res nat :=
  match rows with
  | [] => (db, [], inr processed)
  | r :: rows' =>
      match seed_row enricher movie_ratings r db with
      | (db, log, inl e) => (db, log, inl e)
      | (db, log, inr _) =>
          let '(db, log', result) :=
            seed_rows enricher movie_ratings rows' (S processed) db in
          (db, log ++ log', result)
      end
  end.

(** [seed_movies]: the movies file is given as its rows, [None] when
    it cannot be opened; [enricher] is [None] when no API key is set. *)
Definition seed_movies (enricher : option TMDbEnricher)
           (movies_file : option (list row))
           (movie_ratings : gmap Z (float * Z)) (db : Catalog)
  : Catalog * list log_entry * outcome :=
  match movies_file with
  | None => (db, [Error_movies_not_found], Failed FileNotFoundError)
  | Some rows =>
      match seed_rows enricher movie_ratings rows 0 db with
      | (db, log, inr processed) => (db, log, Completed processed)
      | (db, log, inl e) => (db, log ++ [Error_seeding e], Failed e)
      end
  end.

(** [main]: aggregate the ratings, then seed the movies. *)
Definition main (enricher : option TMDbEnricher)
           (movies_file : option (list row))
           (ratings_file : option (list (Z * float))) (db : Catalog)
  : Catalog * list log_entry * outcome :=
  let '(movie_ratings, log) := calculate_ratings ratings_file in
  let '(db, log', result) :=
    seed_movies enricher movies_file movie_ratings db in
  (db, log ++ log', result).

End seed.

(* ================================================================= *)
(** ** The read endpoints: [backend/app/main.py] *)

Module api.
Import Py models.

(** [HTTPException(status_code=..., detail=...)] *)
Record HTTPException : Type := { status_code : Z; detail : str }.

(** [GET /movies/{movie_id}] *)
Definition get_movie (movie_id : Z) (db : Catalog) : HTTPException + Movie.t :=
  match crud.get_movie_by_id db movie_id with
  | None => inl {| status_code := 404; detail := lit "Movie not found" |}
  | Some movie => inr movie
  end.

(** [GET /actors/{actor_id}] *)
Definition get_actor (actor_id : Z) (db : Catalog) : HTTPException + Actor.t :=
  match crud.get_actor_by_id db actor_id with
  | None => inl {| status_code := 404; detail := lit "Actor not found" |}
  | Some actor => inr actor
  end.

(** [GET /directors/{director_id}] *)
Definition get_director (director_id : Z) (db : Catalog)
  : HTTPException + Director.t :=
  match crud.get_director_by_id db director_id with
  | None => inl {| status_code := 404; detail := lit "Director not found" |}
  | Some director => inr director
  end.

(** [GET /genres] *)
Definition get_genres (db : Catalog) : list Genre.t := crud.get_all_genres db.

End api.

(* ================================================================= *)
(** ** Notions the statements use *)

Module Spec.
Import Py models seed.

(** The natural keys of the movies of a catalog, in table order. *)
Definition ml_ids (db : Catalog) : list Z := map Movie.ml_id (movies db).

(** [stored db ml i m]: [m] is the row the lookup by [ml] returns, the
    first row of the movies table with that [ml_id], at position [i]. *)
Definition stored (db : Catalog) (ml : Z) (i : nat) (m : Movie.t) : Prop :=
  movies db !! i = Some m /\ Movie.ml_id m = ml /\
  forall j y, j < i -> movies db !! j = Some y -> Movie.ml_id y <> ml.


(** A small catalog for the worked examples: one enriched movie with
    a director, two actors and one genre. *)
Definition demo_movie : Movie.t :=
  Movie.Make 1 7 (Some 949%Z) (lit "Heat") (Some 1995%Z)
    (Some (lit "A 1995 film")) None 0
    (Some (lit "https://image.tmdb.org/t/p/w500/heat.jpg"))
    (Some 1%Z) [1%Z; 2%Z] [1%Z].

Definition demo_db : Catalog :=
  MkCatalog [Genre.Make 1 (lit "Action")]
            [Director.Make 1 (lit "Michael Mann") None]
            [Actor.Make 1 (lit "Al Pacino") None None None;
             Actor.Make 2 (lit "Robert De Niro") None None None]
            [demo_movie].

Definition genre_names (db : Catalog) : list str :=
  map Genre.name (genres db).
Definition director_names (db : Catalog) : list str :=
  map Director.name (directors db).
Definition actor_names (db : Catalog) : list str :=
  map Actor.name (actors db).

(** [covers db db']: every name and every [ml_id] known to [db] is
    known to [db']. *)
Definition covers (db db' : Catalog) : Prop :=
  genre_names db ⊆ genre_names db' /\
  director_names db ⊆ director_names db' /\
  actor_names db ⊆ actor_names db' /\
  ml_ids db ⊆ ml_ids db'.

(** [same_keys db db']: the same genres, directors and actors, and the
    same movie keys in the same order; only the contents of the movie
    rows may differ. *)
Definition same_keys (db db' : Catalog) : Prop :=
  genres db = genres db' /\ directors db = directors db' /\
  actors db = actors db' /\ ml_ids db = ml_ids db'.

(** The entity counts of a catalog: movies, genres, directors, actors. *)
Definition counts (db : Catalog) : nat * nat * nat * nat :=
  (length (movies db), length (genres db),
   length (directors db), length (actors db)).

(** A resolver: a get-or-create that never touches the movies, only
    adds names, and changes nothing in a catalog that already has what
    it would add. *)
Definition resolver {E : Type} (get : Catalog -> str -> Catalog * E) : Prop :=
  (forall db n, covers db (get db n).1 /\ ml_ids (get db n).1 = ml_ids db) /\
  (forall db0 dbx n, covers (get db0 n).1 dbx -> (get dbx n).1 = dbx).

(** Two results of the cast loop agree up to the identity of the
    entities: the same exception, or lists of the same length. *)
Definition same_cast (r0 rx : res (list Actor.t)) : Prop :=
  match r0, rx with
  | inl e0, inl ex => e0 = ex
  | inr l0, inr lx => length l0 = length lx
  | _, _ => False
  end.

(** Two results of an enrichment agree up to the identity of the
    entities: the same exception, or the same TMDb id and poster, a
    director on both sides or on neither, and as many actors. *)
Definition same_enrichment (r0 rx : res seed.enrichment) : Prop :=
  match r0, rx with
  | inl e0, inl ex => e0 = ex
  | inr (t0, p0, d0, a0), inr (tx, px, dx, ax) =>
      t0 = tx /\ p0 = px /\ (d0 = None <-> dx = None) /\
      length a0 = length ax
  | _, _ => False
  end.

(** A movie row the loop body can read: all three columns are there,
    the movie id is an integer literal and the title is a string. *)
Definition well_formed (r : row) : Prop := exists v, read_row r = inr v.

(** The TMDb id an iteration hands to the upsert: the id the enrichment
    returns, and none when the enrichment is disabled, finds nothing or
    raises. It depends on the answers of the service only, so it is
    read off a run of the enrichment against the empty catalog. *)
Definition tmdb_id_of (enricher : option TMDbEnricher) (title : str)
           (year : option Z) : option Z :=
  (try_enrich enricher title year models.empty).2.1.1.1.

(** [accepted enricher ratings id title year]: the database accepts the
    integers of the upsert of a row read as [id], [title] and [year]. *)
Definition accepted (enricher : option TMDbEnricher)
           (ratings : gmap Z (float * Z))
           (id : Z) (title : str) (year : option Z) : Prop :=
  crud.storable id year (get_rating ratings id).2
                (tmdb_id_of enricher title year) = true.

(** A row an iteration stores: the loop body can read it and the
    database accepts its integers. *)
Definition processable (enricher : option TMDbEnricher)
           (ratings : gmap Z (float * Z)) (r : row) : Prop :=
  exists id title year gn,
    read_row r = inr (id, title, year, gn) /\
    accepted enricher ratings id title year.

(** The search gave nothing: the request failed in transport, the
    service answered with an error status, or the result list is
    empty. *)
Definition search_unavailable (tm : TMDbEnricher) (title : str)
           (year : option Z) : Prop :=
  get_search_movie tm title (year_param year) = Transport_error \/
  get_search_movie tm title (year_param year) = Http_error \/
  get_search_movie tm title (year_param year) = Ok_json (Some []).

(** The search gave a movie, and the credits request for it failed in
    transport or with an error status. *)
Definition credits_unavailable (tm : TMDbEnricher) (title : str)
           (year : option Z) : Prop :=
  exists m rest tmdb_id,
    get_search_movie tm title (year_param year)
    = Ok_json (Some (Some m :: rest)) /\
    sr_id m = Some tmdb_id /\
    (get_credits tm tmdb_id = Transport_error \/
     get_credits tm tmdb_id = Http_error).

Definition enrichment_unavailable (tm : TMDbEnricher) (title : str)
           (year : option Z) : Prop :=
  search_unavailable tm title year \/ credits_unavailable tm title year.

(** Rows, and a service, for the worked examples. *)
Definition mkrow (movie_id title genres : string) : row :=
  list_to_map [(lit "movieId", Some (lit movie_id));
               (lit "title", Some (lit title));
               (lit "genres", Some (lit genres))].

Definition heat_row : row := mkrow "1" "Heat (1995)" "Action|Crime".
Definition bad_id_row : row := mkrow "abc" "Jumanji (1995)" "Adventure".

(** A row whose movie id is 2^63, one more than SQLite stores. *)
Definition big_id_row : row :=
  mkrow "9223372036854775808" "Jumanji (1995)" "Adventure".

(** A service that is down: every request fails in transport. *)
Definition tmdb_down : TMDbEnricher :=
  {| get_search_movie := fun _ _ => Transport_error;
     get_credits := fun _ => Transport_error |}.

(** A service whose credits for movie 949 have a cast entry without a
    name, which makes the enrichment raise KeyError. *)
Definition tmdb_broken_cast : TMDbEnricher :=
  {| get_search_movie := fun _ _ =>
       Ok_json (Some [Some {| sr_id := Some 949%Z; sr_poster_path := None |}]);
     get_credits := fun _ =>
       Ok_json {| cd_crew := Some [];
                  cd_cast := Some [{| ca_name := None |}] |} |}.

(** [sep.join(tokens)] for a one-character separator. *)
Fixpoint join (sep : ascii) (tokens : list str) : str :=
  match tokens with
  | [] => []
  | [t] => t
  | t :: ts => t ++ sep :: join sep ts
  end.

(** The rating values of the events of one movie, in file order. *)
Definition ratings_of (movie_id : Z) (events : list (Z * float))
  : list float :=
  map snd (List.filter (fun ev => bool_decide (ev.1 = movie_id)) events).

(** The arithmetic mean of a non-empty list of ratings, in binary64
    arithmetic as the code computes it: the values are added from the
    left, starting from zero, and the sum is divided by their number. *)
Definition mean (ratings : list float) : float :=
  (fold_left PrimFloat.add ratings 0
   / float_of_Z (Z.of_nat (length ratings)))%float.

(** The exact value of a finite binary64 number of mantissa [m] and
    exponent [e] is [numerator m e / denominator e]. *)
Definition numerator (m : positive) (e : Z) : Z := (Zpos m * 2 ^ Z.max 0 e)%Z.
Definition denominator (e : Z) : Z := (2 ^ Z.max 0 (- e))%Z.

(** [nearest_even n d k]: [k] is the integer nearest to [n / d], and
    the even one of the two when [n / d] is half way between two
    integers. *)
Definition nearest_even (n d k : Z) : Prop :=
  (Z.abs (2 * n - 2 * k * d) <= d)%Z /\
  ((Z.abs (2 * n - 2 * k * d) = d)%Z -> Z.even k = true).

(** The binary64 number nearest to [k / 100], with the sign [sg]: the
    quotient of the two integers, rounded once. *)
Definition hundredths (sg : bool) (k : Z) : float :=
  match k with
  | Zpos p => SF2Prim (SFdiv prec emax (S754_finite sg p 0)
                                       (S754_finite false 100 0))
  | _ => SF2Prim (S754_zero sg)
  end.

(** [rounded2 x r]: [r] is [x] rounded to two decimals. For a finite
    [x] other than zero, [r] is the binary64 number nearest to [k / 100]
    where [k] is the integer nearest to a hundred times the exact value
    of [x]; zeros, infinities and nan round to themselves. *)
Definition rounded2 (x r : float) : Prop :=
  match Prim2SF x with
  | S754_finite sg m e =>
      exists k, nearest_even (100 * numerator m e) (denominator e) k /\
                r = hundredths sg k
  | _ => r = x
  end.

(** The exact value of a finite binary64 number, in units of 2^-1074. *)
Definition units (x : float) : Z :=
  match Prim2SF x with
  | S754_finite sg m e =>
      ((if sg then -1 else 1) * Zpos m * 2 ^ (e + 1074))%Z
  | _ => 0%Z
  end.

(** The value of a string of decimal digits. *)
Definition decimal (ds : str) : Z :=
  fold_left (fun acc c => (10 * acc + digit_val c)%Z) ds 0%Z.

(** [year_form t x ws ds]: the trimmed title [t] is a title proper [x],
    then whitespace [ws], then the four digits [ds] in parentheses, where
    [x] is not empty, holds no line feed and does not end in
    whitespace. *)
Definition year_form (t x ws ds : str) : Prop :=
  t = x ++ ws ++ "("%char :: ds ++ [")"%char] /\
  x <> [] /\ forallb is_dot x = true /\
  match rev x with c :: _ => is_space c = false | [] => True end /\
  forallb is_space ws = true /\
  length ds = 4 /\ forallb is_digit ds = true.

(** *** Invariants of the catalog *)

(** The primary keys of each table are pairwise distinct. *)
Definition keys_unique (db : Catalog) : Prop :=
  NoDup (map Genre.id (genres db)) /\
  NoDup (map Director.id (directors db)) /\
  NoDup (map Actor.id (actors db)) /\
  NoDup (map Movie.id (movies db)).

(** No two genres, directors or actors share a name, and no two movies
    share an [ml_id]. *)
Definition names_unique (db : Catalog) : Prop :=
  NoDup (genre_names db) /\ NoDup (director_names db) /\
  NoDup (actor_names db) /\ NoDup (ml_ids db).

(** Every foreign key of a movie row points to a row of its table. *)
Definition movie_refs_ok (db : Catalog) (m : Movie.t) : Prop :=
  (forall d, Movie.director_id m = Some d ->
             d ∈ map Director.id (directors db)) /\
  Forall (fun a => a ∈ map Actor.id (actors db)) (Movie.actors m) /\
  Forall (fun g => g ∈ map Genre.id (genres db)) (Movie.genres m).

Definition refs_ok (db : Catalog) : Prop :=
  Forall (movie_refs_ok db) (movies db).

(** [grows db db']: [db'] extends [db]: the rows of the genre, director
    and actor tables of [db] are the first rows of those of [db'],
    unchanged, and the movie rows of [db] keep their position, primary
    key and [ml_id]. *)
Definition grows (db db' : Catalog) : Prop :=
  genres db `prefix_of` genres db' /\
  directors db `prefix_of` directors db' /\
  actors db `prefix_of` actors db' /\
  map Movie.id (movies db) `prefix_of` map Movie.id (movies db') /\
  ml_ids db `prefix_of` ml_ids db'.

(** One get-or-create of an entity. *)
Inductive entity_step : Catalog -> Catalog -> Prop :=
| step_genre db n : entity_step db (crud.get_or_create_genre db n).1
| step_director db n bio :
    entity_step db (crud.get_or_create_director db n bio).1
| step_actor db n bio :
    entity_step db (crud.get_or_create_actor db n bio).1.

Definition entity_steps : Catalog -> Catalog -> Prop := rtc entity_step.

(** The movie ids of the rows a run reads, up to the first row it
    cannot read. *)
Fixpoint read_ids (rows : list row) : list Z :=
  match rows with
  | [] => []
  | r :: rows' =>
      match read_row r with
      | inr (movie_id, _, _, _) => movie_id :: read_ids rows'
      | inl _ => []
      end
  end.

(** The movie ids of the rows a run stores: those of the rows up to the
    first row that the loop cannot read or whose integers the database
    refuses. *)
Fixpoint stored_ids (enricher : option TMDbEnricher)
         (ratings : gmap Z (float * Z)) (rows : list row) : list Z :=
  match rows with
  | [] => []
  | r :: rows' =>
      match read_row r with
      | inr (movie_id, title, year, _) =>
          if crud.storable movie_id year (get_rating ratings movie_id).2
                           (tmdb_id_of enricher title year)
          then movie_id :: stored_ids enricher ratings rows'
          else []
      | inl _ => []
      end
  end.

(** A key joins the movies table at its end, once. *)
Definition add_key (ids : list Z) (ml : Z) : list Z :=
  if bool_decide (ml ∈ ids) then ids else ids ++ [ml].

(** The lookup the upsert does: the first movie with an [ml_id]. *)
Definition movie_by_ml_id (db : Catalog) (ml : Z) : option Movie.t :=
  snd <$> crud.first_where (fun m => bool_decide (Movie.ml_id m = ml))
                           (movies db).

(** The poster URL the enrichment builds from a search result. *)
Definition poster_of (m : search_result) : option str :=
  match sr_poster_path m with
  | Some poster_path =>
      if truthy poster_path
      then Some (lit "https://image.tmdb.org/t/p/w500" ++ poster_path)
      else None
  | None => None
  end.

(** The first crew member whose job is "Director". *)
Definition first_director (c : credits_data) : option crew_member :=
  head (List.filter is_director (default [] (cd_crew c))).

(** The cast entries the enrichment looks at. *)
Definition top_cast (c : credits_data) : list cast_member :=
  firstn 8 (default [] (cd_cast c)).

(** The number of rating events behind an aggregate. *)
Definition total_count (m : gmap Z (float * Z)) : Z :=
  foldr (fun kv acc => (kv.2.2 + acc)%Z) 0%Z (map_to_list m).

(** A service that knows the movie: the search gives TMDb id 949 with
    a poster, the credits a producer, a director and two actors. *)
Definition tmdb_heat : TMDbEnricher :=
  {| get_search_movie := fun _ _ =>
       Ok_json (Some [Some {| sr_id := Some 949%Z;
                              sr_poster_path := Some (lit "/heat.jpg") |}]);
     get_credits := fun _ =>
       Ok_json {| cd_crew := Some [{| cm_job := Some (lit "Producer");
                                      cm_name := Some (lit "Art Linson") |};
                                   {| cm_job := Some (lit "Director");
                                      cm_name := Some (lit "Michael Mann") |}];
                  cd_cast := Some [{| ca_name := Some (lit "Al Pacino") |};
                                   {| ca_name := Some (lit "Robert De Niro") |}]
               |} |}.

(** A catalog that knows one actor. *)
Definition de_niro_db : Catalog :=
  MkCatalog [] [] [Actor.Make 1 (lit "Robert De Niro") None None None] [].

(** The same service with no director in the crew. *)
Definition tmdb_no_director : TMDbEnricher :=
  {| get_search_movie := get_search_movie tmdb_heat;
     get_credits := fun _ =>
       Ok_json {| cd_crew := Some [{| cm_job := Some (lit "Producer");
                                      cm_name := Some (lit "Art Linson") |}];
                  cd_cast := Some [{| ca_name := Some (lit "Al Pacino") |}] |} |}.

(** The same service with a cast entry without a name after the first
    actor. *)
Definition tmdb_half_cast : TMDbEnricher :=
  {| get_search_movie := get_search_movie tmdb_heat;
     get_credits := fun _ =>
       Ok_json {| cd_crew := Some [{| cm_job := Some (lit "Director");
                                      cm_name := Some (lit "Michael Mann") |}];
                  cd_cast := Some [{| ca_name := Some (lit "Al Pacino") |};
                                   {| ca_name := None |};
                                   {| ca_name := Some (lit "Robert De Niro") |}]
               |} |}.

End Spec.

(* ================================================================= *)
(** * Proofs *)

Import Py Re models crud seed Spec.

(** ** Lookups by key *)

Section first_where_facts.
Context {A : Type} (p : A -> bool).

Lemma first_where_Some l i x :
  first_where p l = Some (i, x) ->
  l !! i = Some x /\ p x = true /\
  (forall j y, j < i -> l !! j = Some y -> p y = false).
Proof.
  revert i; induction l as [|a l IH]; intros i; simpl; [discriminate|].
  destruct (p a) eqn:Hpa.
  - intros [= <- <-]. repeat split; auto. intros j y Hj; lia.
  - destruct (first_where p l) as [[k y]|] eqn:Hf; [|discriminate].
    intros [= <- <-]. destruct (IH k eq_refl) as (H1 & H2 & H3).
    repeat split; auto.
    intros [|j] z Hj; simpl.
    + intros [= <-]; exact Hpa.
    + apply H3; lia.
Qed.

Lemma first_where_None l :
  first_where p l = None <-> Forall (fun x => p x = false) l.
Proof.
  induction l as [|a l IH]; simpl.
  - split; auto.
  - destruct (p a) eqn:Hpa.
    + split; [discriminate|]. intros H. inversion H; congruence.
    + destruct (first_where p l) as [[k y]|].
      * split; [discriminate|]. intros H. inversion H; subst.
        apply IH in H3; discriminate.
      * split; auto. intros _. constructor; auto. apply IH; auto.
Qed.

Lemma first_where_is_Some l :
  (exists x, x ∈ l /\ p x = true) -> is_Some (first_where p l).
Proof.
  intros (x & Hx & Hp).
  destruct (first_where p l) eqn:Hf; [eauto|].
  apply first_where_None in Hf.
  rewrite Forall_forall in Hf. rewrite (Hf x) in Hp; [discriminate|assumption].
Qed.
End first_where_facts.

Lemma stored_first_where db ml i m :
  stored db ml i m <->
  first_where (fun m => bool_decide (Movie.ml_id m = ml)) (movies db) = Some (i, m).
Proof.
  unfold stored. split.
  - intros (Hi & Hm & Hlt).
    destruct (first_where _ (movies db)) as [[k y]|] eqn:Hf.
    + apply first_where_Some in Hf as (Hk & Hy & Hmin).
      apply bool_decide_eq_true in Hy.
      destruct (lt_eq_lt_dec i k) as [[Hlt'|Heq]|Hgt].
      * specialize (Hmin i m Hlt' Hi). apply bool_decide_eq_false in Hmin. contradiction.
      * subst k. congruence.
      * exfalso. eapply Hlt; eauto.
    + apply first_where_None in Hf. rewrite Forall_forall in Hf.
      assert (Hin : m ∈ movies db) by (eapply list_elem_of_lookup_2; eauto).
      specialize (Hf m Hin). apply bool_decide_eq_false in Hf. contradiction.
  - intros Hf. apply first_where_Some in Hf as (Hk & Hy & Hmin).
    apply bool_decide_eq_true in Hy. repeat split; auto.
    intros j y Hj Hl. specialize (Hmin j y Hj Hl).
    by apply bool_decide_eq_false in Hmin.
Qed.

Lemma not_stored_first_where db ml :
  ml ∉ ml_ids db <->
  first_where (fun m => bool_decide (Movie.ml_id m = ml)) (movies db) = None.
Proof.
  rewrite first_where_None, Forall_forall. unfold ml_ids. split.
  - intros Hn m Hm. apply bool_decide_eq_false. intros <-.
    apply Hn. apply list_elem_of_In, in_map_iff. exists m. split; auto.
    by apply list_elem_of_In.
  - intros H Hin. apply list_elem_of_In, in_map_iff in Hin as (m & Hml & Hin).
    apply list_elem_of_In in Hin.
    specialize (H m Hin). apply bool_decide_eq_false in H. congruence.
Qed.

Lemma stored_exists db ml :
  ml ∈ ml_ids db -> exists i m, stored db ml i m.
Proof.
  intros Hin.
  destruct (first_where (fun m => bool_decide (Movie.ml_id m = ml)) (movies db))
    as [[i m]|] eqn:Hf.
  - exists i, m. by apply stored_first_where.
  - apply not_stored_first_where in Hf. contradiction.
Qed.

Section upsert.
Variables (db : Catalog) (ml_id : Z) (title : str)
          (release_year : option Z) (description : option str)
          (rating : option float) (rating_count : Z)
          (poster_url : option str) (tmdb_id : option Z)
          (director : option Director.t)
          (actors : option (list Actor.t)) (genres : option (list Genre.t)).

Local Abbreviation upsert :=
  (create_or_update_movie_by_ml_id db ml_id title release_year description
     rating rating_count poster_url tmdb_id director actors genres).

Lemma upsert_entities :
  models.genres upsert.1 = models.genres db /\
  directors upsert.1 = directors db /\
  models.actors upsert.1 = models.actors db.
Proof.
  unfold create_or_update_movie_by_ml_id.
  destruct (first_where _ (movies db)) as [[i m]|]; simpl; auto.
Qed.

Lemma upsert_found i old :
  stored db ml_id i old ->
  movies upsert.1 = <[i := upsert.2]> (movies db) /\
  upsert.2 =
    set_relationships
      (Movie.Make (Movie.id old) (Movie.ml_id old) tmdb_id title
         release_year description rating rating_count poster_url
         (match director with
          | Some d => Some (Director.id d)
          | None => Movie.director_id old
          end)
         (Movie.actors old) (Movie.genres old)) actors genres.
Proof.
  intros H. apply stored_first_where in H.
  unfold create_or_update_movie_by_ml_id. rewrite H. simpl. auto.
Qed.

Lemma upsert_fresh :
  ml_id ∉ ml_ids db ->
  movies upsert.1 = movies db ++ [upsert.2] /\
  upsert.2 =
    set_relationships
      (Movie.Make (next_id (map Movie.id (movies db))) ml_id tmdb_id title
         release_year description rating rating_count poster_url
         (option_map Director.id director) [] []) actors genres.
Proof.
  intros H. apply not_stored_first_where in H.
  unfold create_or_update_movie_by_ml_id. rewrite H. simpl. auto.
Qed.

Lemma set_relationships_keys m a g :
  Movie.id (set_relationships m a g) = Movie.id m /\
  Movie.ml_id (set_relationships m a g) = Movie.ml_id m.
Proof. destruct a, g; simpl; auto. Qed.

Lemma upsert_ml_ids :
  ml_ids upsert.1 = if bool_decide (ml_id ∈ ml_ids db) then ml_ids db
                    else ml_ids db ++ [ml_id].
Proof.
  case_bool_decide as Hin.
  - destruct (stored_exists _ _ Hin) as (i & old & Hst).
    destruct (upsert_found i old Hst) as [Hm Hr].
    unfold ml_ids. rewrite Hm.
    change (map Movie.ml_id) with (fmap (M:=list) Movie.ml_id).
    rewrite list_fmap_insert. apply list_insert_id.
    rewrite list_lookup_fmap. destruct Hst as (Hi & Hml & _). rewrite Hi. simpl.
    rewrite Hr. f_equal. by destruct (set_relationships_keys
      (Movie.Make (Movie.id old) (Movie.ml_id old) tmdb_id title
         release_year description rating rating_count poster_url
         (match director with
          | Some d => Some (Director.id d)
          | None => Movie.director_id old
          end)
         (Movie.actors old) (Movie.genres old)) actors genres) as [_ ->].
  - destruct (upsert_fresh Hin) as [Hm Hr]. unfold ml_ids. rewrite Hm, map_app. simpl.
    do 2 f_equal. rewrite Hr.
    by destruct (set_relationships_keys
      (Movie.Make (next_id (map Movie.id (movies db))) ml_id tmdb_id title
         release_year description rating rating_count poster_url
         (option_map Director.id director) [] []) actors genres) as [_ ->].
Qed.
End upsert.

(** ** The upsert by natural key *)




Lemma stored_of_unique db ml i m :
  NoDup (ml_ids db) -> movies db !! i = Some m -> Movie.ml_id m = ml ->
  stored db ml i m.
Proof.
  intros Hnd Hi Hm. repeat split; auto.
  intros j y Hj Hy Hml.
  assert (H1 : ml_ids db !! i = Some ml).
  { unfold ml_ids. change (map Movie.ml_id) with (fmap (M:=list) Movie.ml_id).
    by rewrite list_lookup_fmap, Hi; simpl; rewrite Hm. }
  assert (H2 : ml_ids db !! j = Some ml).
  { unfold ml_ids. change (map Movie.ml_id) with (fmap (M:=list) Movie.ml_id).
    by rewrite list_lookup_fmap, Hy; simpl; rewrite Hml. }
  pose proof (NoDup_lookup _ _ _ _ Hnd H1 H2). lia.
Qed.

(** ** The rows of an association table *)

Lemma elem_of_link (x y : Z) (l : list Z) : y ∈ link x l <-> y = x \/ y ∈ l.
Proof.
  induction l as [|z l IH]; simpl.
  - rewrite list_elem_of_singleton. split; [auto|]. intros [?|H]; [done|].
    by apply elem_of_nil in H.
  - destruct (Z.ltb_spec x z) as [Hlt|Hge].
    + by rewrite elem_of_cons.
    + destruct (Z.eqb_spec x z) as [->|Hne].
      * rewrite elem_of_cons. tauto.
      * rewrite !elem_of_cons, IH. tauto.
Qed.

Lemma elem_of_links (x : Z) (l : list Z) : x ∈ links l <-> x ∈ l.
Proof.
  induction l as [|y l IH]; simpl; [done|].
  by rewrite elem_of_link, elem_of_cons, IH.
Qed.

Lemma link_sorted (x : Z) (l : list Z) :
  StronglySorted Z.lt l -> StronglySorted Z.lt (link x l).
Proof.
  induction 1 as [|z l Hs IH Hz]; simpl.
  - repeat constructor.
  - destruct (Z.ltb_spec x z) as [Hlt|Hge].
    + constructor; [by constructor|]. constructor; [done|].
      eapply Forall_impl; [exact Hz|]. simpl. intros. lia.
    + destruct (Z.eqb_spec x z) as [->|Hne]; [by constructor|].
      constructor; [done|]. apply Forall_forall. intros y Hy.
      apply elem_of_link in Hy as [->|Hy]; [lia|].
      rewrite Forall_forall in Hz. by apply Hz.
Qed.

Lemma links_sorted (l : list Z) : StronglySorted Z.lt (links l).
Proof.
  induction l as [|x l IH]; simpl; [constructor|by apply link_sorted].
Qed.

Lemma NoDup_links (l : list Z) : NoDup (links l).
Proof.
  induction (links_sorted l) as [|z l' Hs IH Hz]; constructor; [|done].
  intros Hin. rewrite Forall_forall in Hz. specialize (Hz z Hin). lia.
Qed.

Lemma length_link (x : Z) (l : list Z) :
  x ∉ l -> length (link x l) = S (length l).
Proof.
  induction l as [|z l IH]; simpl; [done|].
  intros Hn. apply not_elem_of_cons in Hn as [Hne Hn].
  destruct (Z.ltb_spec x z); [done|].
  destruct (Z.eqb_spec x z); [done|]. simpl. by rewrite IH.
Qed.

Lemma length_links (l : list Z) : NoDup l -> length (links l) = length l.
Proof.
  induction 1 as [|x l Hx Hnd IH]; simpl; [done|].
  rewrite length_link; [by rewrite IH|]. by rewrite elem_of_links.
Qed.

Lemma Forall_links (P : Z -> Prop) (l : list Z) :
  Forall P l -> Forall P (links l).
Proof.
  rewrite !Forall_forall. intros H x Hx. apply H. by apply elem_of_links.
Qed.

Lemma links_nil_inv (l : list Z) : links l = [] -> l = [].
Proof.
  destruct l as [|x l]; [done|]. intros H.
  assert (Hx : x ∈ links (x :: l)) by (apply elem_of_links; left).
  rewrite H in Hx. by apply elem_of_nil in Hx.
Qed.

Lemma set_relationships_actors m a g :
  Movie.actors (set_relationships m a g) =
  match a with Some l => links (map Actor.id l) | None => Movie.actors m end.
Proof. destruct a, g; reflexivity. Qed.

Lemma set_relationships_genres m a g :
  Movie.genres (set_relationships m a g) =
  match g with Some l => links (map Genre.id l) | None => Movie.genres m end.
Proof. destruct a, g; reflexivity. Qed.

Lemma set_relationships_scalars m a g :
  let m' := set_relationships m a g in
  Movie.id m' = Movie.id m /\ Movie.ml_id m' = Movie.ml_id m /\
  Movie.tmdb_id m' = Movie.tmdb_id m /\ Movie.title m' = Movie.title m /\
  Movie.release_year m' = Movie.release_year m /\
  Movie.description m' = Movie.description m /\
  Movie.rating m' = Movie.rating m /\
  Movie.rating_count m' = Movie.rating_count m /\
  Movie.poster_url m' = Movie.poster_url m /\
  Movie.director_id m' = Movie.director_id m.
Proof. destruct a, g; simpl; repeat split. Qed.

Section upsert_claims.
Variables (db : Catalog) (ml_id : Z) (title : str)
          (release_year : option Z) (description : option str)
          (rating : option float) (rating_count : Z)
          (poster_url : option str) (tmdb_id : option Z)
          (director : option Director.t)
          (actors : option (list Actor.t)) (genres : option (list Genre.t)).

Local Abbreviation upsert :=
  (create_or_update_movie_by_ml_id db ml_id title release_year description
     rating rating_count poster_url tmdb_id director actors genres).




End upsert_claims.

Lemma demo_stored : stored demo_db 7 0 demo_movie.
Proof.
  repeat split; intros; lia.
Qed.

(** ** Get-or-create by name *)

Section by_name.
Context {A : Type} (name : A -> str).

Lemma first_where_name_Some l n i x :
  first_where (fun y => bool_decide (name y = n)) l = Some (i, x) ->
  name x = n /\ x ∈ l.
Proof.
  intros H. apply first_where_Some in H as (Hi & Hp & _).
  apply bool_decide_eq_true in Hp. split; [assumption|].
  eapply list_elem_of_lookup_2; eauto.
Qed.

Lemma first_where_name_None l n :
  first_where (fun y => bool_decide (name y = n)) l = None <->
  n ∉ map name l.
Proof.
  rewrite first_where_None, Forall_forall. split.
  - intros H Hin. apply list_elem_of_In, in_map_iff in Hin as (x & Hx & Hin).
    apply list_elem_of_In in Hin. specialize (H x Hin).
    apply bool_decide_eq_false in H. contradiction.
  - intros Hn x Hx. apply bool_decide_eq_false. intros Hnm. apply Hn.
    apply list_elem_of_In, in_map_iff. exists x. split; auto.
    by apply list_elem_of_In.
Qed.

Lemma first_where_name_in l n :
  n ∈ map name l ->
  exists i x, first_where (fun y => bool_decide (name y = n)) l = Some (i, x).
Proof.
  intros Hin.
  destruct (first_where (fun y => bool_decide (name y = n)) l)
    as [[i x]|] eqn:E; [eauto|].
  apply first_where_name_None in E. contradiction.
Qed.
End by_name.

Lemma elem_of_map_app {A B} (f : A -> B) (l : list A) (x : A) (y : B) :
  y ∈ map f (l ++ [x]) <-> y ∈ map f l \/ y = f x.
Proof.
  rewrite map_app, elem_of_app. simpl. rewrite list_elem_of_singleton. tauto.
Qed.

(** What a get-or-create does to the catalog: nothing when the name is
    there, one appended row otherwise. *)
Lemma get_or_create_genre_spec db n :
  let r := get_or_create_genre db n in
  Genre.name r.2 = n /\ r.2 ∈ genres r.1 /\
  directors r.1 = directors db /\ actors r.1 = actors db /\
  movies r.1 = movies db /\
  (n ∈ genre_names db -> r.1 = db) /\
  (n ∉ genre_names db -> genres r.1 = genres db ++ [r.2]) /\
  (forall x, x ∈ genre_names r.1 <-> x ∈ genre_names db \/ x = n).
Proof.
  unfold get_or_create_genre, genre_names.
  destruct (first_where _ (genres db)) as [[i g]|] eqn:E; simpl.
  - apply first_where_name_Some in E as [Hn Hin].
    assert (Hmem : n ∈ map Genre.name (genres db)).
    { apply list_elem_of_In, in_map_iff. exists g. split; auto.
      by apply list_elem_of_In. }
    split_and!; auto; try tauto.
    intros x. split; [tauto|]. intros [H| ->]; assumption.
  - apply first_where_name_None in E.
    split_and!; auto; try tauto; try (intros x; apply elem_of_map_app).
    apply elem_of_app. right. by apply list_elem_of_singleton.
Qed.

Lemma get_or_create_director_spec db n bio :
  let r := get_or_create_director db n bio in
  Director.name r.2 = n /\ r.2 ∈ directors r.1 /\
  genres r.1 = genres db /\ actors r.1 = actors db /\
  movies r.1 = movies db /\
  (n ∈ director_names db -> r.1 = db) /\
  (n ∉ director_names db -> directors r.1 = directors db ++ [r.2]) /\
  (forall x, x ∈ director_names r.1 <-> x ∈ director_names db \/ x = n).
Proof.
  unfold get_or_create_director, director_names.
  destruct (first_where _ (directors db)) as [[i g]|] eqn:E; simpl.
  - apply first_where_name_Some in E as [Hn Hin].
    assert (Hmem : n ∈ map Director.name (directors db)).
    { apply list_elem_of_In, in_map_iff. exists g. split; auto.
      by apply list_elem_of_In. }
    split_and!; auto; try tauto.
    intros x. split; [tauto|]. intros [H| ->]; assumption.
  - apply first_where_name_None in E.
    split_and!; auto; try tauto; try (intros x; apply elem_of_map_app).
    apply elem_of_app. right. by apply list_elem_of_singleton.
Qed.

Lemma get_or_create_actor_spec db n bio :
  let r := get_or_create_actor db n bio in
  Actor.name r.2 = n /\ r.2 ∈ actors r.1 /\
  genres r.1 = genres db /\ directors r.1 = directors db /\
  movies r.1 = movies db /\
  (n ∈ actor_names db -> r.1 = db) /\
  (n ∉ actor_names db -> actors r.1 = actors db ++ [r.2]) /\
  (forall x, x ∈ actor_names r.1 <-> x ∈ actor_names db \/ x = n).
Proof.
  unfold get_or_create_actor, actor_names.
  destruct (first_where _ (actors db)) as [[i g]|] eqn:E; simpl.
  - apply first_where_name_Some in E as [Hn Hin].
    assert (Hmem : n ∈ map Actor.name (actors db)).
    { apply list_elem_of_In, in_map_iff. exists g. split; auto.
      by apply list_elem_of_In. }
    split_and!; auto; try tauto.
    intros x. split; [tauto|]. intros [H| ->]; assumption.
  - apply first_where_name_None in E.
    split_and!; auto; try tauto; try (intros x; apply elem_of_map_app).
    apply elem_of_app. right. by apply list_elem_of_singleton.
Qed.

(** ** Catalogs only grow *)

Lemma covers_refl db : covers db db.
Proof. by unfold covers. Qed.

Lemma covers_trans db1 db2 db3 :
  covers db1 db2 -> covers db2 db3 -> covers db1 db3.
Proof.
  unfold covers. intros (A1 & A2 & A3 & A4) (B1 & B2 & B3 & B4).
  split_and!; etrans; eauto.
Qed.

Lemma same_keys_refl db : same_keys db db.
Proof. by unfold same_keys. Qed.

Lemma same_keys_trans db1 db2 db3 :
  same_keys db1 db2 -> same_keys db2 db3 -> same_keys db1 db3.
Proof.
  unfold same_keys. intros (A1 & A2 & A3 & A4) (B1 & B2 & B3 & B4).
  split_and!; congruence.
Qed.

Lemma same_keys_covers db db' : same_keys db db' -> covers db db'.
Proof.
  unfold same_keys, covers, genre_names, director_names, actor_names.
  intros (-> & -> & -> & ->). done.
Qed.

Lemma same_keys_counts db db' : same_keys db db' -> counts db = counts db'.
Proof.
  unfold same_keys, counts, ml_ids. intros (-> & -> & -> & H).
  apply (f_equal length) in H. rewrite !length_map in H. by rewrite H.
Qed.

Lemma resolver_genre : resolver get_or_create_genre.
Proof.
  split.
  - intros db n.
    destruct (get_or_create_genre_spec db n) as (_ & _ & Hd & Ha & Hm & _ & _ & Hx).
    unfold covers, director_names, actor_names, ml_ids. rewrite Hd, Ha, Hm.
    split_and!; try done. intros x Hin. apply Hx. by left.
  - intros db0 dbx n (Hg & _).
    destruct (get_or_create_genre_spec db0 n) as (_ & _ & _ & _ & _ & _ & _ & Hx).
    destruct (get_or_create_genre_spec dbx n) as (_ & _ & _ & _ & _ & Hin & _).
    apply Hin, Hg, Hx. by right.
Qed.

Lemma resolver_director bio :
  resolver (fun db n => get_or_create_director db n bio).
Proof.
  split.
  - intros db n. simpl.
    destruct (get_or_create_director_spec db n bio)
      as (_ & _ & Hd & Ha & Hm & _ & _ & Hx).
    unfold covers, genre_names, actor_names, ml_ids. rewrite Hd, Ha, Hm.
    split_and!; try done. intros x Hin. apply Hx. by left.
  - intros db0 dbx n (_ & Hg & _). simpl in *.
    destruct (get_or_create_director_spec db0 n bio)
      as (_ & _ & _ & _ & _ & _ & _ & Hx).
    destruct (get_or_create_director_spec dbx n bio)
      as (_ & _ & _ & _ & _ & Hin & _).
    apply Hin, Hg, Hx. by right.
Qed.

Lemma resolver_actor bio :
  resolver (fun db n => get_or_create_actor db n bio).
Proof.
  split.
  - intros db n. simpl.
    destruct (get_or_create_actor_spec db n bio)
      as (_ & _ & Hd & Ha & Hm & _ & _ & Hx).
    unfold covers, genre_names, director_names, ml_ids. rewrite Hd, Ha, Hm.
    split_and!; try done. intros x Hin. apply Hx. by left.
  - intros db0 dbx n (_ & _ & Hg & _). simpl in *.
    destruct (get_or_create_actor_spec db0 n bio)
      as (_ & _ & _ & _ & _ & _ & _ & Hx).
    destruct (get_or_create_actor_spec dbx n bio)
      as (_ & _ & _ & _ & _ & Hin & _).
    apply Hin, Hg, Hx. by right.
Qed.

Section resolve_each_facts.
Context {E : Type} (get : Catalog -> str -> Catalog * E).
Hypothesis Hget : resolver get.

Lemma resolve_each_grows names : forall db acc,
  covers db (resolve_each get db names acc).1 /\
  ml_ids (resolve_each get db names acc).1 = ml_ids db.
Proof.
  induction names as [|n rest IH]; intros db acc; simpl.
  - split; [apply covers_refl|reflexivity].
  - destruct (get db n) as [db' e] eqn:Eg.
    destruct (proj1 Hget db n) as [Hc Hm]. rewrite Eg in Hc, Hm. simpl in *.
    destruct (IH db' (acc ++ [e])) as [Hc' Hm'].
    split; [eapply covers_trans; eauto | congruence].
Qed.

Lemma resolve_each_stable names : forall db0 dbx acc0 accx,
  covers (resolve_each get db0 names acc0).1 dbx ->
  (resolve_each get dbx names accx).1 = dbx.
Proof.
  induction names as [|n rest IH]; intros db0 dbx acc0 accx; simpl; [done|].
  destruct (get db0 n) as [db0' e0] eqn:E0.
  destruct (get dbx n) as [dbx' ex] eqn:Ex.
  intros Hc.
  assert (Hx : dbx' = dbx).
  { change dbx' with (dbx', ex).1. rewrite <- Ex.
    apply (proj2 Hget db0). rewrite E0. simpl.
    eapply covers_trans; [|exact Hc]. apply resolve_each_grows. }
  subst dbx'. eapply IH. exact Hc.
Qed.

Lemma resolve_each_length names : forall db acc,
  length (resolve_each get db names acc).2 = length acc + length names.
Proof.
  induction names as [|n rest IH]; intros db acc; simpl; [lia|].
  destruct (get db n) as [db' e]. rewrite IH, length_app. simpl. lia.
Qed.
End resolve_each_facts.

(** ** Enrichment and placeholders against two catalogs *)

Lemma resolve_cast_rel top : forall db0 dbx acc0 accx,
  length acc0 = length accx ->
  let r0 := resolve_cast db0 top acc0 in
  let rx := resolve_cast dbx top accx in
  covers db0 r0.1 /\ ml_ids r0.1 = ml_ids db0 /\
  same_cast r0.2 rx.2 /\
  (covers r0.1 dbx -> rx.1 = dbx).
Proof.
  induction top as [|a rest IH]; intros db0 dbx acc0 accx Hlen; simpl.
  - split_and!; auto using covers_refl.
  - destruct (ca_name a) as [n|]; simpl.
    + destruct (get_or_create_actor db0 n None) as [db0' e0] eqn:E0.
      destruct (get_or_create_actor dbx n None) as [dbx' ex] eqn:Ex.
      destruct (proj1 (resolver_actor None) db0 n) as [Hc Hm].
      simpl in Hc, Hm. rewrite E0 in Hc, Hm. simpl in Hc, Hm.
      assert (Hl : length (acc0 ++ [e0]) = length (accx ++ [ex]))
        by (rewrite !length_app; simpl; lia).
      destruct (IH db0' dbx' (acc0 ++ [e0]) (accx ++ [ex]) Hl)
        as (Hc' & Hm' & Hs & Hst).
      split_and!.
      * eapply covers_trans; eauto.
      * congruence.
      * exact Hs.
      * intros Hcov.
        assert (Hx : dbx' = dbx).
        { change dbx' with (dbx', ex).1. rewrite <- Ex.
          apply (proj2 (resolver_actor None) db0). simpl. rewrite E0. simpl.
          eapply covers_trans; eauto. }
        subst dbx'. auto.
    + split_and!; auto using covers_refl.
Qed.

Lemma enrich_rel tm title year db0 dbx :
  let r0 := enrich_movie_with_tmdb tm title year db0 in
  let rx := enrich_movie_with_tmdb tm title year dbx in
  covers db0 r0.1.1 /\ ml_ids r0.1.1 = ml_ids db0 /\
  r0.1.2 = rx.1.2 /\ same_enrichment r0.2 rx.2 /\
  (covers r0.1.1 dbx -> rx.1.1 = dbx).
Proof.
  unfold enrich_movie_with_tmdb.
  destruct (search_movie tm title year) as [log [e|[md|]]]; simpl;
    [split_and!; auto using covers_refl| |split_and!; auto using covers_refl].
  destruct (sr_id md) as [tid|]; simpl; [|split_and!; auto using covers_refl].
  destruct (get_movie_credits tm tid) as [log2 [cr|]]; simpl;
    [|split_and!; auto using covers_refl].
  destruct (List.filter is_director (default [] (cd_crew cr))) as [|d ds]; simpl.
  - destruct (resolve_cast_rel (firstn 8 (default [] (cd_cast cr))) db0 dbx [] []
                eq_refl) as (Hc & Hm & Hs & Hst).
    destruct (resolve_cast db0 _ []) as [db0' [e0|a0]];
    destruct (resolve_cast dbx _ []) as [dbx' [ex|ax]]; simpl in *;
      try contradiction; split_and!; auto.
  - destruct (cm_name d) as [dn|]; simpl; [|split_and!; auto using covers_refl].
    destruct (get_or_create_director db0 dn None) as [db0' d0] eqn:E0.
    destruct (get_or_create_director dbx dn None) as [dbx' dx] eqn:Ex.
    destruct (proj1 (resolver_director None) db0 dn) as [Hc1 Hm1].
    simpl in Hc1, Hm1. rewrite E0 in Hc1, Hm1. simpl in Hc1, Hm1.
    destruct (resolve_cast_rel (firstn 8 (default [] (cd_cast cr))) db0' dbx' [] []
                eq_refl) as (Hc & Hm & Hs & Hst).
    assert (Hfix : covers (resolve_cast db0' (firstn 8 (default [] (cd_cast cr))) []).1 dbx
                   -> dbx' = dbx).
    { intros Hcov. change dbx' with (dbx', dx).1. rewrite <- Ex.
      apply (proj2 (resolver_director None) db0). simpl. rewrite E0. simpl.
      eapply covers_trans; eauto. }
    destruct (resolve_cast db0' _ []) as [db0'' [e0|a0]];
    destruct (resolve_cast dbx' _ []) as [dbx'' [ex|ax]]; simpl in *;
      try contradiction; split_and!; auto; try congruence;
      try (eapply covers_trans; eauto; fail);
      try (intros Hcov; specialize (Hfix Hcov); subst dbx'; auto);
      try (split; discriminate).
Qed.

Lemma get_or_create_actor_keeps db n bio :
  actors db ⊆ actors (get_or_create_actor db n bio).1.
Proof.
  destruct (get_or_create_actor_spec db n bio) as (_ & _ & _ & _ & _ & Hin & Hout & _).
  destruct (decide (n ∈ actor_names db)) as [H|H].
  - by rewrite (Hin H).
  - rewrite (Hout H). intros x Hx. apply elem_of_app. by left.
Qed.

Lemma resolve_actors_spec bio names : forall db acc,
  let r := resolve_each (fun db n => get_or_create_actor db n bio) db names acc in
  map Actor.name r.2 = map Actor.name acc ++ names /\
  genres r.1 = genres db /\ directors r.1 = directors db /\
  movies r.1 = movies db /\ actors db ⊆ actors r.1 /\
  (Forall (fun a => a ∈ actors db) acc -> Forall (fun a => a ∈ actors r.1) r.2).
Proof.
  induction names as [|n rest IH]; intros db acc; simpl.
  - rewrite app_nil_r. split_and!; auto.
  - destruct (get_or_create_actor db n bio) as [db' a] eqn:E.
    pose proof (get_or_create_actor_keeps db n bio) as Hk.
    destruct (get_or_create_actor_spec db n bio)
      as (Hn & Hin & Hg & Hd & Hm & _).
    rewrite E in Hk, Hn, Hin, Hg, Hd, Hm. simpl in *.
    destruct (IH db' (acc ++ [a])) as (H1 & H2 & H3 & H4 & H5 & H6).
    split_and!; try congruence.
    + rewrite H1, map_app. simpl. rewrite Hn, <- app_assoc. reflexivity.
    + etrans; eauto.
    + intros Hacc. apply H6. apply Forall_app. split.
      * eapply Forall_impl; [exact Hacc|]. intros x Hx. by apply Hk.
      * by repeat constructor.
Qed.

Lemma create_placeholder_data_spec id db :
  let r := create_placeholder_data id db in
  Director.name r.2.1 = deterministic_placeholder_director id /\
  map Actor.name r.2.2 = deterministic_placeholder_actors id 5 /\
  r.2.1 ∈ directors r.1 /\ Forall (fun a => a ∈ actors r.1) r.2.2 /\
  length r.2.2 = 5.
Proof.
  unfold create_placeholder_data.
  destruct (get_or_create_director db _ _) as [db1 d] eqn:Ed.
  destruct (get_or_create_director_spec db
              (deterministic_placeholder_director id)
              (Some (lit "Placeholder director"))) as (Hn & Hin & _).
  rewrite Ed in Hn, Hin. simpl in Hn, Hin.
  pose proof (resolve_actors_spec (Some (lit "Placeholder actor"))
                (deterministic_placeholder_actors id 5) db1 [])
    as (H1 & H2 & H3 & H4 & H5 & H6).
  pose proof (resolve_each_length
                (fun db n => get_or_create_actor db n (Some (lit "Placeholder actor")))
                (deterministic_placeholder_actors id 5) db1 []) as Hlen.
  destruct (resolve_each _ db1 _ []) as [db2 acts]. simpl in *.
  split_and!; auto. by rewrite H3.
Qed.

Lemma create_placeholder_data_rel id db0 dbx :
  let r0 := create_placeholder_data id db0 in
  let rx := create_placeholder_data id dbx in
  covers db0 r0.1 /\ ml_ids r0.1 = ml_ids db0 /\
  (covers r0.1 dbx -> rx.1 = dbx).
Proof.
  unfold create_placeholder_data.
  destruct (get_or_create_director db0 _ _) as [db0' d0] eqn:E0.
  destruct (get_or_create_director dbx _ _) as [dbx' dx] eqn:Ex.
  pose proof (resolver_director (Some (lit "Placeholder director"))) as Rd.
  pose proof (resolver_actor (Some (lit "Placeholder actor"))) as Ra.
  destruct (proj1 Rd db0 (deterministic_placeholder_director id)) as [Hc1 Hm1].
  cbv beta in Hc1, Hm1. rewrite E0 in Hc1, Hm1. simpl in Hc1, Hm1.
  destruct (resolve_each_grows _ Ra (deterministic_placeholder_actors id 5) db0' [])
    as [Hc2 Hm2].
  pose proof (resolve_each_stable _ Ra (deterministic_placeholder_actors id 5)
                db0' dbx' [] []) as Hst.
  destruct (resolve_each _ db0' _ []) as [db0'' a0].
  destruct (resolve_each _ dbx' _ []) as [dbx'' ax]. simpl in *.
  split_and!.
  - eapply covers_trans; eauto.
  - congruence.
  - intros Hcov.
    assert (Hx : dbx' = dbx).
    { change dbx' with (dbx', dx).1. rewrite <- Ex.
      apply (proj2 Rd db0). cbv beta. rewrite E0. simpl.
      eapply covers_trans; eauto. }
    subst dbx'. auto.
Qed.

(** ** One iteration and a whole run against two catalogs *)

Section upsert_keys.
Variables (db : Catalog) (ml_id : Z) (title : str)
          (release_year : option Z) (description : option str)
          (rating : option float) (rating_count : Z)
          (poster_url : option str) (tmdb_id : option Z)
          (director : option Director.t)
          (actors : option (list Actor.t)) (genres : option (list Genre.t)).

Local Abbreviation upsert :=
  (create_or_update_movie_by_ml_id db ml_id title release_year description
     rating rating_count poster_url tmdb_id director actors genres).

Lemma upsert_covers : covers db upsert.1 /\ ml_id ∈ ml_ids upsert.1.
Proof.
  destruct (upsert_entities db ml_id title release_year description rating
              rating_count poster_url tmdb_id director actors genres)
    as (Hg & Hd & Ha).
  pose proof (upsert_ml_ids db ml_id title release_year description rating
              rating_count poster_url tmdb_id director actors genres) as Hm.
  unfold covers, genre_names, director_names, actor_names.
  rewrite Hg, Hd, Ha, Hm. case_bool_decide; split_and!; try done.
  - intros x Hx. apply elem_of_app. by left.
  - apply elem_of_app. right. by apply list_elem_of_singleton.
Qed.

Lemma upsert_same_keys : ml_id ∈ ml_ids db -> same_keys db upsert.1.
Proof.
  intros Hin.
  destruct (upsert_entities db ml_id title release_year description rating
              rating_count poster_url tmdb_id director actors genres)
    as (Hg & Hd & Ha).
  pose proof (upsert_ml_ids db ml_id title release_year description rating
              rating_count poster_url tmdb_id director actors genres) as Hm.
  rewrite bool_decide_true in Hm by assumption.
  unfold same_keys. by rewrite Hg, Hd, Ha, Hm.
Qed.
End upsert_keys.

Lemma seed_row_failed enricher ratings r db e :
  read_row r = inl e -> seed_row enricher ratings r db = (db, [], inl e).
Proof. intros H. unfold seed_row. by rewrite H. Qed.

Lemma try_enrich_rel enricher title year db0 dbx :
  let r0 := try_enrich enricher title year db0 in
  let rx := try_enrich enricher title year dbx in
  covers db0 r0.1.1 /\ ml_ids r0.1.1 = ml_ids db0 /\
  r0.1.2 = rx.1.2 /\ same_enrichment (inr r0.2) (inr rx.2) /\
  (covers r0.1.1 dbx -> rx.1.1 = dbx).
Proof.
  unfold try_enrich. destruct enricher as [tm|]; simpl.
  - destruct (enrich_rel tm title year db0 dbx) as (Hc & Hm & Hl & He & Hs).
    destruct (enrich_movie_with_tmdb tm title year db0)
      as [[db0e log0] [e0|[[[t0 p0] d0] a0]]];
    destruct (enrich_movie_with_tmdb tm title year dbx)
      as [[dbxe logx] [ex|[[[tx px] dx] ax]]];
    simpl in *; try contradiction; split_and!; auto; try tauto; congruence.
  - split_and!; auto using covers_refl.
Qed.

Lemma or_placeholders_rel id db0 dbx d0 dx a0 ax :
  (d0 = None <-> dx = None) ->
  let r0 := or_placeholders id db0 d0 a0 in
  let rx := or_placeholders id dbx dx ax in
  covers db0 r0.1 /\ ml_ids r0.1 = ml_ids db0 /\
  (covers r0.1 dbx -> rx.1 = dbx).
Proof.
  intros Hd. unfold or_placeholders.
  destruct d0 as [d0|], dx as [dx|];
    try (destruct Hd as [H1 H2];
         first [discriminate (H2 eq_refl) | discriminate (H1 eq_refl)]).
  - simpl. split_and!; auto using covers_refl.
  - destruct (create_placeholder_data_rel id db0 dbx) as (Hc & Hm & Hs).
    destruct (create_placeholder_data id db0) as [db0' [pd0 pa0]].
    destruct (create_placeholder_data id dbx) as [dbx' [pdx pax]].
    simpl in *. auto.
Qed.

Lemma seed_row_rel enricher ratings r db0 dbx :
  let r0 := seed_row enricher ratings r db0 in
  let rx := seed_row enricher ratings r dbx in
  covers db0 r0.1.1 /\
  r0.1.2 = rx.1.2 /\
  match r0.2, rx.2 with
  | inl e0, inl ex => e0 = ex
  | inr _, inr _ => True
  | _, _ => False
  end /\
  (covers r0.1.1 dbx -> same_keys dbx rx.1.1).
Proof.
  unfold seed_row.
  destruct (read_row r) as [e|[[[id title] year] gn]].
  { simpl. split_and!; auto using covers_refl, same_keys_refl. }
  destruct (get_rating ratings id) as [rating rating_count].
  unfold resolve_genres.
  destruct (resolve_each_grows _ resolver_genre gn db0 []) as [Hc1 Hm1].
  pose proof (resolve_each_stable _ resolver_genre gn db0 dbx [] []) as Hs1.
  destruct (resolve_each get_or_create_genre db0 gn []) as [db0g g0].
  destruct (resolve_each get_or_create_genre dbx gn []) as [dbxg gx].
  destruct (try_enrich_rel enricher title year db0g dbxg)
    as (Hc2 & Hm2 & Hl2 & He2 & Hs2).
  destruct (try_enrich enricher title year db0g) as [[db0e log0] [[[t0 p0] d0] a0]].
  destruct (try_enrich enricher title year dbxg) as [[dbxe logx] [[[tx px] dx] ax]].
  cbn [fst snd same_enrichment] in *.
  destruct He2 as (-> & -> & Hd & Hlen).
  destruct (or_placeholders_rel id db0e dbxe d0 dx a0 ax Hd) as (Hc3 & Hm3 & Hs3).
  destruct (or_placeholders id db0e d0 a0) as [db0p [pd0 pa0]].
  destruct (or_placeholders id dbxe dx ax) as [dbxp [pdx pax]].
  cbn [fst snd] in *.
  destruct (storable id year rating_count tx).
  - pose proof (upsert_covers db0p id title year (Some (description_of year))
      rating rating_count px tx (Some pd0) (Some pa0) (Some g0)) as [Hc4 Hin4].
    pose proof (upsert_same_keys dbxp id title year (Some (description_of year))
      rating rating_count px tx (Some pdx) (Some pax) (Some gx)) as Hk.
    destruct (create_or_update_movie_by_ml_id db0p _ _ _ _ _ _ _ _ _ _ _)
      as [db0u m0].
    destruct (create_or_update_movie_by_ml_id dbxp _ _ _ _ _ _ _ _ _ _ _)
      as [dbxu mx].
    cbn [fst snd] in *.
    split_and!.
    + repeat (eapply covers_trans; [eassumption|]). apply covers_refl.
    + assumption.
    + exact I.
    + intros Hcov.
      assert (H3 : covers db0p dbx) by (eapply covers_trans; eauto).
      assert (H2 : covers db0e dbx) by (eapply covers_trans; eauto).
      assert (H1 : covers db0g dbx) by (eapply covers_trans; eauto).
      specialize (Hs1 H1). subst dbxg.
      specialize (Hs2 H2). subst dbxe.
      specialize (Hs3 H3). subst dbxp.
      apply Hk. destruct Hcov as (_ & _ & _ & Hml). by apply Hml.
  - cbn [fst snd]. split_and!.
    + repeat (eapply covers_trans; [eassumption|]). apply covers_refl.
    + assumption.
    + reflexivity.
    + intros Hcov.
      assert (H2 : covers db0e dbx) by (eapply covers_trans; eauto).
      assert (H1 : covers db0g dbx) by (eapply covers_trans; eauto).
      specialize (Hs1 H1). subst dbxg.
      specialize (Hs2 H2). subst dbxe.
      specialize (Hs3 Hcov). subst dbxp. apply same_keys_refl.
Qed.

Lemma seed_rows_rel enricher ratings rows : forall n db0 dbx,
  let r0 := seed_rows enricher ratings rows n db0 in
  let rx := seed_rows enricher ratings rows n dbx in
  covers db0 r0.1.1 /\ r0.1.2 = rx.1.2 /\ r0.2 = rx.2 /\
  (covers r0.1.1 dbx -> same_keys dbx rx.1.1).
Proof.
  induction rows as [|r rows IH]; intros n db0 dbx; cbn [seed_rows].
  - cbn [fst snd]. split_and!; auto using covers_refl, same_keys_refl.
  - destruct (seed_row_rel enricher ratings r db0 dbx) as (Hc & Hl & Hr & Hs).
    destruct (seed_row enricher ratings r db0) as [[db0' log0] [e0|m0]];
    destruct (seed_row enricher ratings r dbx) as [[dbx' logx] [ex|mx]];
    cbn [fst snd] in *; try contradiction.
    + subst ex. split_and!; auto.
    + destruct (IH (S n) db0' dbx') as (Hc' & Hl' & Hr' & Hs').
      destruct (seed_rows enricher ratings rows (S n) db0') as [[db0f logf0] res0].
      destruct (seed_rows enricher ratings rows (S n) dbx') as [[dbxf logfx] resx].
      cbn [fst snd] in *. split_and!.
      * eapply covers_trans; eauto.
      * congruence.
      * assumption.
      * intros Hcov.
        assert (H1 : same_keys dbx dbx')
          by (apply Hs; eapply covers_trans; eauto).
        eapply same_keys_trans; [exact H1|]. apply Hs'.
        eapply covers_trans; [exact Hcov|]. by apply same_keys_covers.
Qed.

Lemma seed_movies_rel enricher movies_file ratings db0 dbx :
  let r0 := seed_movies enricher movies_file ratings db0 in
  let rx := seed_movies enricher movies_file ratings dbx in
  covers db0 r0.1.1 /\ r0.1.2 = rx.1.2 /\ r0.2 = rx.2 /\
  (covers r0.1.1 dbx -> same_keys dbx rx.1.1).
Proof.
  unfold seed_movies. destruct movies_file as [rows|]; cbn [fst snd].
  - destruct (seed_rows_rel enricher ratings rows 0 db0 dbx) as (Hc & Hl & Hr & Hs).
    destruct (seed_rows enricher ratings rows 0 db0) as [[db0f log0] [e0|n0]];
    destruct (seed_rows enricher ratings rows 0 dbx) as [[dbxf logx] [ex|nx]];
    cbn [fst snd] in *; try discriminate; split_and!; auto; congruence.
  - split_and!; auto using covers_refl, same_keys_refl.
Qed.

(** C3 (as amended). Running the whole ingestion a second time, on the
    catalog the first run left and with the same movies file and ratings
    file, and with the enrichment disabled in both runs or the service
    answering in the second run as it did in the first, ends the same
    way and leaves the numbers of movies, genres, directors and actors
    as the first run left them. *)
Theorem ingestion_idempotent_counts
        (enricher : option TMDbEnricher) (movies_file : option (list row))
        (ratings_file : option (list (Z * float))) (db : Catalog) :
  let first := main enricher movies_file ratings_file db in
  let second := main enricher movies_file ratings_file first.1.1 in
  counts second.1.1 = counts first.1.1 /\
  same_keys first.1.1 second.1.1 /\
  second.2 = first.2.
Proof.
  unfold main. destruct (calculate_ratings ratings_file) as [ratings log].
  pose proof (seed_movies_rel enricher movies_file ratings db
                (seed_movies enricher movies_file ratings db).1.1)
    as (Hc & Hl & Hr & Hs).
  destruct (seed_movies enricher movies_file ratings db) as [[db1 log1] out1].
  cbn [fst snd] in *.
  specialize (Hs (covers_refl db1)).
  destruct (seed_movies enricher movies_file ratings db1) as [[db2 log2] out2].
  cbn [fst snd] in *. split_and!; auto.
  symmetry. by apply same_keys_counts.
Qed.

(** ** What a run does with well-formed and malformed rows *)

Lemma upsert_returned db ml title ry desc rt rc pu tm dir acts gens :
  let r := create_or_update_movie_by_ml_id db ml title ry desc rt rc pu tm
             dir acts gens in
  r.2 ∈ movies r.1 /\ Movie.ml_id r.2 = ml /\
  Movie.title r.2 = title /\ Movie.release_year r.2 = ry /\
  Movie.tmdb_id r.2 = tm /\ Movie.poster_url r.2 = pu /\
  (forall d, dir = Some d -> Movie.director_id r.2 = Some (Director.id d)) /\
  (forall l, acts = Some l -> Movie.actors r.2 = links (map Actor.id l)) /\
  (forall l, gens = Some l -> Movie.genres r.2 = links (map Genre.id l)).
Proof.
  cbv zeta.
  destruct (decide (ml ∈ ml_ids db)) as [Hin|Hout].
  - destruct (stored_exists _ _ Hin) as (i & old & Hst).
    destruct (upsert_found db ml title ry desc rt rc pu tm dir acts gens i old Hst)
      as [Hm Hr].
    split.
    { rewrite Hm. eapply list_elem_of_lookup_2. apply list_lookup_insert_eq.
      destruct Hst as (Hi & _). by eapply lookup_lt_Some. }
    rewrite Hr, set_relationships_actors, set_relationships_genres.
    destruct (set_relationships_scalars
      (Movie.Make (Movie.id old) (Movie.ml_id old) tm title ry desc rt rc pu
         (match dir with
          | Some d => Some (Director.id d)
          | None => Movie.director_id old
          end) (Movie.actors old) (Movie.genres old)) acts gens)
      as (_ & -> & -> & -> & -> & _ & _ & _ & -> & ->).
    cbn. destruct Hst as (_ & Hml & _).
    split_and!; auto; intros x ->; reflexivity.
  - destruct (upsert_fresh db ml title ry desc rt rc pu tm dir acts gens Hout)
      as [Hm Hr].
    split.
    { rewrite Hm. apply elem_of_app. right. by apply list_elem_of_singleton. }
    rewrite Hr, set_relationships_actors, set_relationships_genres.
    destruct (set_relationships_scalars
      (Movie.Make (next_id (map Movie.id (movies db))) ml tm title ry desc rt
         rc pu (option_map Director.id dir) [] []) acts gens)
      as (_ & -> & -> & -> & -> & _ & _ & _ & -> & ->).
    cbn. split_and!; auto; intros x ->; reflexivity.
Qed.

(** The TMDb id of an enrichment is the same against every catalog. *)
Lemma try_enrich_tmdb_id enricher title year db :
  (try_enrich enricher title year db).2.1.1.1 = tmdb_id_of enricher title year.
Proof.
  unfold tmdb_id_of.
  destruct (try_enrich_rel enricher title year db models.empty)
    as (_ & _ & _ & He & _).
  destruct (try_enrich enricher title year db) as [[db1 log1] [[[t1 p1] d1] a1]].
  destruct (try_enrich enricher title year models.empty)
    as [[db2 log2] [[[t2 p2] d2] a2]].
  simpl in *. by destruct He as (-> & _).
Qed.

(** An iteration returns a movie exactly when the row can be read and
    the database accepts its integers, whatever the enrichment does. *)
Lemma seed_row_ok enricher ratings r db id title year gn :
  read_row r = inr (id, title, year, gn) ->
  accepted enricher ratings id title year ->
  exists movie, (seed_row enricher ratings r db).2 = inr movie.
Proof.
  intros H Hacc. unfold seed_row. rewrite H.
  unfold accepted in Hacc.
  destruct (get_rating ratings id) as [rating rating_count].
  destruct (resolve_genres db gn) as [dbg g].
  rewrite <- (try_enrich_tmdb_id enricher title year dbg) in Hacc.
  destruct (try_enrich enricher title year dbg) as [[dbe log] [[[t p] d] a]].
  destruct (or_placeholders id dbe d a) as [dbp [pd pa]].
  simpl in Hacc. rewrite Hacc.
  destruct (create_or_update_movie_by_ml_id dbp _ _ _ _ _ _ _ _ _ _ _) as [dbu m].
  eauto.
Qed.

Lemma seed_row_refused enricher ratings r db id title year gn :
  read_row r = inr (id, title, year, gn) ->
  ~ accepted enricher ratings id title year ->
  (seed_row enricher ratings r db).2 = inl OverflowError.
Proof.
  intros H Hacc. unfold seed_row. rewrite H.
  unfold accepted in Hacc. apply not_true_is_false in Hacc.
  destruct (get_rating ratings id) as [rating rating_count].
  destruct (resolve_genres db gn) as [dbg g].
  rewrite <- (try_enrich_tmdb_id enricher title year dbg) in Hacc.
  destruct (try_enrich enricher title year dbg) as [[dbe log] [[[t p] d] a]].
  destruct (or_placeholders id dbe d a) as [dbp [pd pa]].
  simpl in Hacc. by rewrite Hacc.
Qed.

Lemma seed_row_returned enricher ratings r db id title year gn movie :
  read_row r = inr (id, title, year, gn) ->
  (seed_row enricher ratings r db).2 = inr movie ->
  accepted enricher ratings id title year.
Proof.
  intros Hr Hm.
  destruct (storable id year (get_rating ratings id).2
              (tmdb_id_of enricher title year)) eqn:Ha; [exact Ha|].
  assert (Hn : ~ accepted enricher ratings id title year)
    by (unfold accepted; by rewrite Ha).
  rewrite (seed_row_refused enricher ratings r db id title year gn Hr Hn) in Hm.
  discriminate.
Qed.

Lemma seed_row_processable enricher ratings r db :
  processable enricher ratings r ->
  exists movie, (seed_row enricher ratings r db).2 = inr movie.
Proof.
  intros (id & title & year & gn & Hr & Hacc). by eapply seed_row_ok.
Qed.

Lemma seed_rows_ok enricher ratings rows : forall n db,
  Forall (processable enricher ratings) rows ->
  (seed_rows enricher ratings rows n db).2 = inr (n + length rows).
Proof.
  induction rows as [|r rows IH]; intros n db Hwf; cbn [seed_rows].
  - cbn. f_equal. lia.
  - inversion Hwf as [|? ? Hv Hrest]; subst.
    destruct (seed_row_processable enricher ratings r db Hv) as [m Hm].
    destruct (seed_row enricher ratings r db) as [[db' log] res].
    cbn in Hm. subst res.
    specialize (IH (S n) db' Hrest).
    destruct (seed_rows enricher ratings rows (S n) db') as [[db'' log'] res'].
    cbn in *. rewrite IH. f_equal. lia.
Qed.

Lemma seed_rows_app enricher ratings pre : forall rest n db,
  Forall (processable enricher ratings) pre ->
  let a := seed_rows enricher ratings pre n db in
  let b := seed_rows enricher ratings rest (n + length pre) a.1.1 in
  seed_rows enricher ratings (pre ++ rest) n db = (b.1.1, a.1.2 ++ b.1.2, b.2).
Proof.
  induction pre as [|r pre IH]; intros rest n db Hwf; cbn [seed_rows app length].
  - cbn [fst snd app]. rewrite Nat.add_0_r.
    by destruct (seed_rows enricher ratings rest n db) as [[? ?] ?].
  - inversion Hwf as [|? ? Hv Hrest]; subst.
    destruct (seed_row_processable enricher ratings r db Hv) as [m Hm].
    destruct (seed_row enricher ratings r db) as [[db' log] res].
    cbn in Hm. subst res.
    specialize (IH rest (S n) db' Hrest). cbv zeta in IH. rewrite IH.
    destruct (seed_rows enricher ratings pre (S n) db') as [[db'' log'] res'].
    cbn [fst snd]. replace (S n + length pre) with (n + S (length pre)) by lia.
    destruct (seed_rows enricher ratings rest _ db'') as [[? ?] ?].
    cbn [fst snd]. by rewrite app_assoc.
Qed.

Lemma enrich_unavailable tm title year db :
  enrichment_unavailable tm title year ->
  exists log t p,
    enrich_movie_with_tmdb tm title year db = (db, log, inr (t, p, None, [])).
Proof.
  unfold enrichment_unavailable, search_unavailable, credits_unavailable,
    enrich_movie_with_tmdb, search_movie, get_movie_credits.
  intros [[H|[H|H]]|(m & rest & tid & H & Hid & [Hc|Hc])]; rewrite H;
    try rewrite Hid; try rewrite Hc; eauto.
Qed.

(** ** Placeholder synthesis *)

(** C9. Two invocations of the placeholder synthesizer with the same
    movie id give the same director name and the same list of actor
    names, in the same order; and the names of the placeholder entities
    resolved for a movie id are the same whatever the catalog they are
    resolved against. *)
Theorem placeholder_deterministic (id1 id2 : Z) (top_n : nat)
        (db1 db2 : Catalog) :
  id1 = id2 ->
  deterministic_placeholder_director id1
    = deterministic_placeholder_director id2 /\
  deterministic_placeholder_actors id1 top_n
    = deterministic_placeholder_actors id2 top_n /\
  Director.name (create_placeholder_data id1 db1).2.1
    = Director.name (create_placeholder_data id2 db2).2.1 /\
  map Actor.name (create_placeholder_data id1 db1).2.2
    = map Actor.name (create_placeholder_data id2 db2).2.2.
Proof.
  intros <-.
  destruct (create_placeholder_data_spec id1 db1) as (Hd1 & Ha1 & _).
  destruct (create_placeholder_data_spec id1 db2) as (Hd2 & Ha2 & _).
  split_and!; congruence.
Qed.

(** ** Rating aggregation *)

Lemma append_rating_lookup (events : list (Z * float)) :
  forall (d : gmap Z (list float)) (id : Z),
    fold_left append_rating events d !! id =
    match d !! id, ratings_of id events with
    | Some l, vs => Some (l ++ vs)
    | None, [] => None
    | None, vs => Some vs
    end.
Proof.
  unfold ratings_of.
  induction events as [|[k v] events IH]; intros d id; simpl.
  - destruct (d !! id); [by rewrite app_nil_r|reflexivity].
  - rewrite IH. unfold append_rating at 1. simpl.
    case_bool_decide as Hk.
    + subst k. rewrite lookup_insert_eq. simpl.
      destruct (d !! id); simpl; [by rewrite <- app_assoc|reflexivity].
    + rewrite lookup_insert_ne by congruence. reflexivity.
Qed.

Lemma div_half_even_nearest (a b : Z) :
  (0 < b)%Z -> nearest_even a b (div_half_even a b).
Proof.
  intros Hb. unfold nearest_even, div_half_even.
  pose proof (Z.div_mod a b ltac:(lia)) as Hdm.
  pose proof (Z.mod_pos_bound a b Hb) as Hm.
  destruct (Z.compare_spec (2 * (a mod b)) b) as [E|L|G].
  - destruct (Z.even (a / b)) eqn:Ev.
    + split; [nia|done].
    + split; [nia|]. intros _. rewrite Z.even_add, Ev. reflexivity.
  - split; [nia|nia].
  - split; [nia|nia].
Qed.

Lemma nearest_even_unique (n d k1 k2 : Z) :
  (0 < d)%Z -> nearest_even n d k1 -> nearest_even n d k2 -> k1 = k2.
Proof.
  intros Hd [H1 E1] [H2 E2].
  assert (Hk : (k1 = k2 \/ (k1 = k2 + 1 /\ Z.abs (2 * n - 2 * k1 * d) = d
                             /\ Z.abs (2 * n - 2 * k2 * d) = d)
               \/ (k2 = k1 + 1 /\ Z.abs (2 * n - 2 * k1 * d) = d
                             /\ Z.abs (2 * n - 2 * k2 * d) = d))%Z) by nia.
  destruct Hk as [?|[(-> & A & B)|(-> & A & B)]]; [done| |].
  - specialize (E1 A). specialize (E2 B).
    rewrite Z.even_add in E1. rewrite E2 in E1. discriminate.
  - specialize (E1 A). specialize (E2 B).
    rewrite Z.even_add in E2. rewrite E1 in E2. discriminate.
Qed.

Lemma round2_rounded2 (x : float) : rounded2 x (round2 x).
Proof.
  unfold rounded2, round2.
  destruct (Prim2SF x) as [sg| | |sg m e]; try reflexivity.
  unfold numerator, denominator.
  destruct (Z.leb_spec 0 e) as [He|He].
  - exists (100 * Z.pos m * 2 ^ e)%Z. split; [|reflexivity].
    rewrite (Z.max_r 0 e), (Z.max_l 0 (- e)) by lia.
    change (2 ^ 0)%Z with 1%Z.
    split; [lia|lia].
  - exists (div_half_even (100 * Z.pos m) (2 ^ (- e))). split; [|reflexivity].
    rewrite (Z.max_l 0 e), (Z.max_r 0 (- e)) by lia.
    change (2 ^ 0)%Z with 1%Z. rewrite Z.mul_1_r.
    apply div_half_even_nearest. apply Z.pow_pos_nonneg; lia.
Qed.

Lemma rounded2_unique (x r1 r2 : float) :
  rounded2 x r1 -> rounded2 x r2 -> r1 = r2.
Proof.
  unfold rounded2.
  destruct (Prim2SF x) as [sg| | |sg m e]; try congruence.
  intros (k1 & N1 & ->) (k2 & N2 & ->). f_equal.
  assert (Hd : (0 < denominator e)%Z).
  { unfold denominator. apply Z.pow_pos_nonneg; lia. }
  exact (nearest_even_unique _ _ _ _ Hd N1 N2).
Qed.

(** On the range of ratings the quotient is the division of the two
    integers as floats. *)
Lemma hundredths_table :
  forallb (fun k =>
             Z.eqb
               (units (hundredths false (Z.of_nat k)))
               (units (float_of_Z (Z.of_nat k) / float_of_Z 100)%float))
          (seq 0 1001) = true.
Proof. vm_compute. reflexivity. Qed.

Example round2_examples :
  round2 4.5 = 4.5%float /\
  round2 (float_of_Z 2675 / float_of_Z 1000) = (float_of_Z 267 / float_of_Z 100)%float /\
  round2 0.125 = (float_of_Z 12 / float_of_Z 100)%float /\
  round2 0.375 = (float_of_Z 38 / float_of_Z 100)%float /\
  round2 (float_of_Z 1115 / float_of_Z 1000) = (float_of_Z 111 / float_of_Z 100)%float /\
  round2 (float_of_Z 314159 / float_of_Z 100000) = (float_of_Z 314 / float_of_Z 100)%float.
Proof. vm_compute. by split_and!. Qed.

(** C8 (as amended). For every sequence of rating events and every
    movie id, the aggregate has an entry for the id exactly when the id
    has an event. The entry holds the count of the values of that id and
    their mean rounded to two decimals, where the mean is the binary64
    quotient of the binary64 sum of the values by their count, and the
    rounding takes the exact value of that quotient to the nearest
    multiple of 1/100, to the even one on a tie, and that multiple to
    the nearest binary64 number; no other number is that rounding. The
    events (1, 4.0), (1, 5.0), (2, 3.0) give (4.5, 2) for movie 1,
    (3.0, 1) for movie 2 and no entry for movie 3. A missing ratings
    file gives the empty mapping. *)
Theorem calculate_ratings_groups (events : list (Z * float)) (id : Z) :
  (match ratings_of id events with
   | [] => (calculate_ratings (Some events)).1 !! id = None
   | vs =>
       exists r,
         (calculate_ratings (Some events)).1 !! id
           = Some (r, Z.of_nat (length vs)) /\
         rounded2 (mean vs) r /\
         (forall r', rounded2 (mean vs) r' -> r' = r)
   end)
  /\ (calculate_ratings None).1 = ∅
  /\ (let m := (calculate_ratings
                  (Some [(1%Z, 4.0%float); (1%Z, 5.0%float);
                         (2%Z, 3.0%float)])).1 in
      m !! 1%Z = Some (4.5%float, 2%Z) /\
      m !! 2%Z = Some (3.0%float, 1%Z) /\
      m !! 3%Z = None).
Proof.
  split_and!.
  - unfold calculate_ratings. cbn [fst].
    rewrite lookup_fmap, append_rating_lookup, lookup_empty.
    destruct (ratings_of id events) as [|v vs]; [reflexivity|].
    cbn [fmap option_fmap option_map].
    exists (round2 (mean (v :: vs))). split_and!.
    + reflexivity.
    + apply round2_rounded2.
    + intros r' Hr'. exact (rounded2_unique _ _ _ Hr' (round2_rounded2 _)).
  - reflexivity.
  - vm_compute. auto.
Qed.

(** C8, the claim as stated fails: forty ratings of one movie whose
    exact mean lies strictly between 2.675 and 2.68, so that rounded to
    two decimals it is 2.68, get the entry 2.67. Their binary64 sum is
    107 and the binary64 quotient 107/40 lies below 2.675. *)
Lemma mean_rounded_below :
  let vs := repeat 2.5%float 26 ++ repeat 3%float 13 ++ [0x1.8000000000001p+1%float] in
  let events := map (fun v => (1%Z, v)) vs in
  let total := fold_right Z.add 0%Z (map units vs) in
  let count := (40 * 2 ^ 1074)%Z in
  length vs = 40 /\
  (2675 * count < 1000 * total)%Z /\ (100 * total < 268 * count)%Z /\
  (calculate_ratings (Some events)).1 !! 1%Z
    = Some ((float_of_Z 267 / float_of_Z 100)%float, 40%Z) /\
  (float_of_Z 267 / float_of_Z 100)%float
    <> (float_of_Z 268 / float_of_Z 100)%float.
Proof.
  cbv zeta. split_and!.
  - reflexivity.
  - vm_compute. reflexivity.
  - vm_compute. reflexivity.
  - vm_compute. reflexivity.
  - intros H. apply (f_equal Prim2SF) in H. vm_compute in H. discriminate.
Qed.

(** ** The genre list parser *)

Lemma split_not_nil sep s : split sep s <> [].
Proof.
  induction s as [|c s IH]; simpl; [discriminate|].
  destruct (Ascii.eqb c sep); [discriminate|].
  destruct (split sep s); [contradiction|discriminate].
Qed.

Lemma split_token sep (t : str) :
  sep ∉ t -> split sep t = [t].
Proof.
  induction t as [|c t IH]; simpl; [reflexivity|].
  intros Hn. rewrite not_elem_of_cons in Hn. destruct Hn as [Hc Ht].
  destruct (Ascii.eqb_spec c sep) as [->|_]; [contradiction|].
  by rewrite (IH Ht).
Qed.

Lemma split_token_sep sep (t s : str) :
  sep ∉ t -> split sep (t ++ sep :: s) = t :: split sep s.
Proof.
  induction t as [|c t IH]; simpl.
  - intros _. by rewrite Ascii.eqb_refl.
  - intros Hn. rewrite not_elem_of_cons in Hn. destruct Hn as [Hc Ht].
    destruct (Ascii.eqb_spec c sep) as [->|_]; [contradiction|].
    by rewrite (IH Ht).
Qed.

(** Splitting undoes joining, when no token holds the separator. *)
Lemma split_join sep (tokens : list str) :
  tokens <> [] -> Forall (fun t => sep ∉ t) tokens ->
  split sep (join sep tokens) = tokens.
Proof.
  induction tokens as [|t ts IH]; [contradiction|].
  intros _ Hall. inversion Hall as [|? ? Ht Hts]; subst.
  destruct ts as [|t' ts].
  - simpl. by apply split_token.
  - change (join sep (t :: t' :: ts)) with (t ++ sep :: join sep (t' :: ts)).
    rewrite split_token_sep by assumption. f_equal. apply IH; [discriminate|assumption].
Qed.

Lemma map_filter_strip (l : list str) :
  map strip (List.filter (fun g => truthy (strip g)) l)
  = List.filter truthy (map strip l).
Proof.
  induction l as [|g l IH]; simpl; [reflexivity|].
  destruct (truthy (strip g)); simpl; congruence.
Qed.

Lemma lstrip_spec (s : str) :
  match lstrip s with
  | c :: _ => is_space c = false
  | [] => True
  end.
Proof.
  induction s as [|c s IH]; simpl; [exact I|].
  destruct (is_space c) eqn:E; [exact IH|exact E].
Qed.

Lemma lstrip_suffix (s : str) : exists ws, s = ws ++ lstrip s /\ forallb is_space ws = true.
Proof.
  induction s as [|c s (ws & IH & Hws)]; simpl.
  - by exists [].
  - destruct (is_space c) eqn:E.
    + exists (c :: ws). simpl. rewrite E, Hws. split; [congruence|reflexivity].
    + by exists [].
Qed.

Lemma lstrip_id (s : str) :
  match s with c :: _ => is_space c = false | [] => True end -> lstrip s = s.
Proof. destruct s as [|c s]; simpl; [reflexivity|]. by intros ->. Qed.

(** A stripped string neither starts nor ends with whitespace. *)
Lemma strip_spec (s : str) :
  match strip s with
  | c :: _ => is_space c = false
  | [] => True
  end /\
  match rev (strip s) with
  | c :: _ => is_space c = false
  | [] => True
  end.
Proof.
  unfold strip, rstrip. rewrite rev_involutive. split.
  - pose proof (lstrip_spec s) as Hl.
    destruct (lstrip_suffix (rev (lstrip s))) as (ws & Hws & Hall).
    pose proof (lstrip_spec (rev (lstrip s))) as Hr.
    destruct (lstrip (rev (lstrip s))) as [|c r] eqn:E; simpl; [exact I|].
    apply (f_equal (@rev ascii)) in Hws. rewrite rev_involutive, rev_app_distr in Hws.
    simpl in Hws.
    destruct (rev r) as [|c' r'] eqn:Er; simpl in *.
    + destruct (lstrip s) as [|c0 ?]; [discriminate|]. injection Hws as -> _. exact Hr.
    + destruct (lstrip s) as [|c0 ?]; [discriminate|]. injection Hws as -> _. exact Hl.
  - apply lstrip_spec.
Qed.

Lemma elem_of_rev (x : ascii) (l : str) : x ∈ rev l <-> x ∈ l.
Proof. rewrite !list_elem_of_In. symmetry. apply in_rev. Qed.

Lemma lstrip_incl (x : ascii) (s : str) : x ∈ lstrip s -> x ∈ s.
Proof.
  destruct (lstrip_suffix s) as (ws & Hws & _). intros H.
  rewrite Hws. apply elem_of_app. right. exact H.
Qed.

Lemma strip_incl (x : ascii) (s : str) : x ∈ strip s -> x ∈ s.
Proof.
  unfold strip, rstrip. intros H. apply (proj1 (elem_of_rev _ _)) in H.
  apply lstrip_incl in H. apply (proj1 (elem_of_rev _ _)) in H.
  by apply lstrip_incl.
Qed.

Lemma strip_no_sep sep (t : str) : sep ∉ t -> sep ∉ strip t.
Proof. intros Hn Hin. apply Hn. by apply strip_incl. Qed.

Lemma strip_idempotent (s : str) : strip (strip s) = strip s.
Proof.
  destruct (strip_spec s) as [Hl Hr].
  unfold strip at 1, rstrip.
  rewrite (lstrip_id (strip s)) by exact Hl.
  rewrite (lstrip_id (rev (strip s))) by exact Hr.
  apply rev_involutive.
Qed.

Lemma split_no_sep sep (s : str) : Forall (fun t => sep ∉ t) (split sep s).
Proof.
  induction s as [|c s IH]; simpl.
  - repeat constructor. apply not_elem_of_nil.
  - destruct (Ascii.eqb_spec c sep) as [->|Hc].
    + constructor; [apply not_elem_of_nil|exact IH].
    + destruct (split sep s) as [|t ts]; simpl.
      * repeat constructor. rewrite not_elem_of_cons. split; [congruence|apply not_elem_of_nil].
      * inversion IH as [|? ? Ht Hts]; subst. constructor; [|exact Hts].
        rewrite not_elem_of_cons. split; [congruence|exact Ht].
Qed.

(** C7 (as amended). The sentinel is the exact string
    "(no genres listed)", with its parentheses, and the empty string is
    treated likewise: both give no genre. Every other string is split
    at each "|", every token is trimmed and the empty ones are dropped:
    the string made of given tokens joined by "|" parses to those
    tokens, trimmed, without the empty ones, so "Action|Comedy" gives
    Action and Comedy. No parsed genre is empty, holds a "|" or has
    whitespace around it. *)
Theorem parse_genres_tokens :
  parse_genres (lit "(no genres listed)") = [] /\
  parse_genres [] = [] /\
  parse_genres (lit "Action|Comedy") = [lit "Action"; lit "Comedy"] /\
  (forall tokens : list str,
      tokens <> [] -> Forall (fun t => "|"%char ∉ t) tokens ->
      join "|" tokens <> [] ->
      join "|" tokens <> lit "(no genres listed)" ->
      parse_genres (join "|" tokens) = List.filter truthy (map strip tokens)) /\
  (forall (s g : str),
      g ∈ parse_genres s -> g <> [] /\ strip g = g /\ "|"%char ∉ g).
Proof.
  split_and!; try reflexivity.
  - intros tokens Hne Hall Hj Hs. unfold parse_genres.
    rewrite (bool_decide_false _ Hs).
    destruct (join "|" tokens) as [|c j] eqn:E; [contradiction|].
    cbn [truthy negb orb]. rewrite <- E, split_join by assumption.
    apply map_filter_strip.
  - intros s g. unfold parse_genres.
    destruct (negb (truthy s) || bool_decide (s = lit "(no genres listed)")).
    { intros H. by apply elem_of_nil in H. }
    rewrite map_filter_strip. intros Hin.
    apply list_elem_of_In, filter_In in Hin as [Hin Ht].
    apply in_map_iff in Hin as (t & <- & Hin).
    split_and!.
    + intros E. rewrite E in Ht. discriminate.
    + apply strip_idempotent.
    + apply strip_no_sep.
      pose proof (split_no_sep "|" s) as Hall. rewrite Forall_forall in Hall.
      apply Hall. by apply list_elem_of_In.
Qed.

(** C7, the claim as stated fails: the string "no genres listed" of the
    specification's example, without parentheses, is not the sentinel
    and comes back as a genre name. *)
Lemma parse_genres_unparenthesized_sentinel :
  parse_genres (lit "no genres listed") = [lit "no genres listed"] /\
  parse_genres (lit "no genres listed") <> [].
Proof. split; [reflexivity|discriminate]. Qed.

(** The amended claim at concrete tokens, one of them blank. *)
Lemma parse_genres_tokens_witness :
  parse_genres (lit " Action | |Crime")
  = List.filter truthy (map strip [lit " Action "; lit " "; lit "Crime"]).
Proof.
  apply (proj1 (proj2 (proj2 (proj2 parse_genres_tokens)))
           [lit " Action "; lit " "; lit "Crime"]).
  - discriminate.
  - repeat constructor; vm_compute; intros H;
      repeat (apply elem_of_cons in H as [H|H]; [discriminate|]);
      by apply elem_of_nil in H.
  - discriminate.
  - discriminate.
Defined.

(** ** The title parser *)

Section repetition.
Variables (p : ascii -> bool) (k : cont).

(** A greedy repetition that succeeds took some characters of the
    class and handed the rest to the continuation. *)
Lemma star_greedy_sound s : forall pos m r,
  star_greedy p k s pos m = Some r ->
  exists pre rest, s = pre ++ rest /\ forallb p pre = true /\
                   k rest (pos + length pre) m = Some r.
Proof.
  induction s as [|c s IH]; intros pos m r; simpl.
  - intros H. exists [], []. simpl. by rewrite Nat.add_0_r.
  - destruct (p c) eqn:Hc.
    + destruct (star_greedy p k s (S pos) m) as [r'|] eqn:E.
      * intros [= <-]. destruct (IH _ _ _ E) as (pre & rest & -> & Hp & Hk).
        exists (c :: pre), rest. simpl. rewrite Hc, Hp.
        split_and!; auto. by replace (pos + S (length pre)) with (S pos + length pre) by lia.
      * intros H. exists [], (c :: s). simpl. by rewrite Nat.add_0_r.
    + intros H. exists [], (c :: s). simpl. by rewrite Nat.add_0_r.
Qed.

(** A greedy repetition takes a whole run of the class when what
    follows the run is not of the class and the continuation accepts
    it. *)
Lemma star_greedy_run pre : forall rest pos m r,
  forallb p pre = true ->
  match rest with c :: _ => p c = false | [] => True end ->
  k rest (pos + length pre) m = Some r ->
  star_greedy p k (pre ++ rest) pos m = Some r.
Proof.
  induction pre as [|c pre IH]; intros rest pos m r Hp Hrest Hk; simpl in *.
  - rewrite Nat.add_0_r in Hk. destruct rest as [|c rest]; simpl; [exact Hk|].
    by rewrite Hrest.
  - apply andb_prop in Hp as [Hc Hp]. rewrite Hc.
    rewrite (IH rest (S pos) m r); auto.
    by replace (S pos + length pre) with (pos + S (length pre)) by lia.
Qed.

Lemma star_lazy_sound s : forall pos m r,
  star_lazy p k s pos m = Some r ->
  exists pre rest, s = pre ++ rest /\ forallb p pre = true /\
                   k rest (pos + length pre) m = Some r.
Proof.
  induction s as [|c s IH]; intros pos m r; simpl.
  - destruct (k [] pos m) as [r'|] eqn:E; [|discriminate].
    intros [= <-]. exists [], []. simpl. by rewrite Nat.add_0_r.
  - destruct (k (c :: s) pos m) as [r'|] eqn:E.
    + intros [= <-]. exists [], (c :: s). simpl. by rewrite Nat.add_0_r.
    + destruct (p c) eqn:Hc; [|discriminate].
      intros H. destruct (IH _ _ _ H) as (pre & rest & -> & Hp & Hk).
      exists (c :: pre), rest. simpl. rewrite Hc, Hp.
      split_and!; auto. by replace (pos + S (length pre)) with (S pos + length pre) by lia.
Qed.

(** A lazy repetition stops at the first place where the continuation
    accepts. *)
Lemma star_lazy_first pre : forall rest pos m r,
  forallb p pre = true ->
  (forall a b, pre = a ++ b -> b <> [] ->
               k (b ++ rest) (pos + length a) m = None) ->
  k rest (pos + length pre) m = Some r ->
  star_lazy p k (pre ++ rest) pos m = Some r.
Proof.
  induction pre as [|c pre IH]; intros rest pos m r Hp Hfail Hk.
  - simpl in *. rewrite Nat.add_0_r in Hk.
    destruct rest; simpl; by rewrite Hk.
  - simpl in Hp. apply andb_prop in Hp as [Hc Hp].
    assert (H0 : k ((c :: pre) ++ rest) pos m = None).
    { specialize (Hfail [] (c :: pre) eq_refl). simpl in Hfail.
      rewrite Nat.add_0_r in Hfail. by apply Hfail. }
    simpl in *. rewrite H0, Hc. apply IH; auto.
    + intros a b -> Hb. specialize (Hfail (c :: a) b eq_refl Hb).
      simpl in Hfail. by replace (S pos + length a) with (pos + S (length a)) by lia.
    + by replace (S pos + length pre) with (pos + S (length pre)) by lia.
Qed.
End repetition.

(** The end of the title pattern: [\((\d{4})\)$]. *)
Local Abbreviation year_suffix :=
  [Chr (is_char "("); GOpen 2;
   Chr is_digit; Chr is_digit; Chr is_digit; Chr is_digit;
   GClose 2; Chr (is_char ")"); Eos].

Lemma year_suffix_complete (ds : str) pos m :
  length ds = 4 -> forallb is_digit ds = true ->
  run year_suffix ("("%char :: ds ++ [")"%char]) pos m
  = Some (close_group 2 (pos + 5) (open_group 2 (pos + 1) m)).
Proof.
  intros Hlen Hd.
  destruct ds as [|d1 [|d2 [|d3 [|d4 [|? ?]]]]]; try discriminate.
  simpl in Hd.
  apply andb_prop in Hd as [E1 Hd]. apply andb_prop in Hd as [E2 Hd].
  apply andb_prop in Hd as [E3 Hd]. apply andb_prop in Hd as [E4 _].
  replace (pos + 1) with (S pos) by lia.
  replace (pos + 5) with (S (S (S (S (S pos))))) by lia.
  cbn [run app]. change (is_char "(" "(") with true. cbn iota.
  rewrite E1, E2, E3, E4. reflexivity.
Qed.

Lemma is_char_eq a c : is_char a c = true -> c = a.
Proof. unfold is_char. intros H. apply Ascii.eqb_eq in H. congruence. Qed.

Lemma year_suffix_sound (s : str) pos m r :
  run year_suffix s pos m = Some r ->
  exists ds nl,
    s = "("%char :: ds ++ ")"%char :: nl /\
    length ds = 4 /\ forallb is_digit ds = true /\
    (nl = [] \/ exists c, nl = [c] /\ is_dot c = false) /\
    r = close_group 2 (pos + 5) (open_group 2 (pos + 1) m).
Proof.
  replace (pos + 1) with (S pos) by lia.
  replace (pos + 5) with (S (S (S (S (S pos))))) by lia.
  destruct s as [|c0 [|d1 [|d2 [|d3 [|d4 [|c5 nl]]]]]]; cbn [run];
    repeat match goal with
           | |- (if ?b then _ else _) = Some _ -> _ =>
               let E := fresh "E" in destruct b eqn:E; [|discriminate]
           | |- None = Some _ -> _ => discriminate
           end.
  intros H. apply is_char_eq in E. apply is_char_eq in E4. subst c0 c5.
  exists [d1; d2; d3; d4], nl. simpl. rewrite E0, E1, E2, E3. simpl.
  destruct nl as [|c [|? ?]]; try discriminate.
  - injection H as <-. split_and!; auto.
  - destruct (is_dot c) eqn:Ec; [discriminate|]. injection H as <-.
    split_and!; eauto.
Qed.

(** The middle of the title pattern, after the lazy title: the end of
    group 1, [\s*] and the year. *)
Local Abbreviation after_title :=
  (GClose 1 :: StarG is_space :: year_suffix).

Lemma is_space_paren : is_space "(" = false.
Proof. reflexivity. Qed.

Lemma not_dot_is_space c : is_dot c = false -> is_space c = true.
Proof.
  unfold is_dot, is_space. intros H. apply negb_false_iff, Nat.eqb_eq in H.
  by rewrite H.
Qed.

Lemma after_title_complete (ws ds : str) pos m :
  forallb is_space ws = true -> length ds = 4 -> forallb is_digit ds = true ->
  run after_title (ws ++ "("%char :: ds ++ [")"%char]) pos m
  = Some (close_group 2 (pos + length ws + 5)
            (open_group 2 (pos + length ws + 1) (close_group 1 pos m))).
Proof.
  intros Hws Hlen Hd.
  change (run after_title) with
    (fun s pos m => star_greedy is_space (run year_suffix) s pos (close_group 1 pos m)).
  cbv beta. apply star_greedy_run; [assumption|exact is_space_paren|].
  by apply year_suffix_complete.
Qed.

Lemma after_title_sound (s : str) pos m r :
  run after_title s pos m = Some r ->
  exists ws ds nl,
    s = ws ++ "("%char :: ds ++ ")"%char :: nl /\
    forallb is_space ws = true /\
    length ds = 4 /\ forallb is_digit ds = true /\
    (nl = [] \/ exists c, nl = [c] /\ is_dot c = false).
Proof.
  change (run after_title s pos m) with
    (star_greedy is_space (run year_suffix) s pos (close_group 1 pos m)).
  intros H. apply star_greedy_sound in H as (ws & rest & -> & Hws & Hk).
  apply year_suffix_sound in Hk as (ds & nl & -> & Hlen & Hd & Hnl & _).
  exists ws, ds, nl. auto.
Qed.

(** After a title that does not end in whitespace, the rest of the
    pattern cannot start before the title ends. *)
Lemma after_title_too_early (b ws ds : str) pos m :
  b <> [] ->
  match rev b with c :: _ => is_space c = false | [] => True end ->
  length ds = 4 ->
  run after_title (b ++ ws ++ "("%char :: ds ++ [")"%char]) pos m = None.
Proof.
  intros Hb Hlast Hlen.
  destruct (run after_title _ pos m) as [r|] eqn:E; [exfalso|reflexivity].
  apply after_title_sound in E as (ws' & ds' & nl & Heq & Hws' & Hlen' & _ & Hnl).
  assert (Hrev : rev (b ++ ws ++ "("%char :: ds ++ [")"%char])
                 = rev (ws' ++ "("%char :: ds' ++ ")"%char :: nl)) by (by rewrite Heq).
  destruct Hnl as [->|(c & -> & Hc)].
  - rewrite (app_assoc b ws) in Heq.
    apply app_inj_2 in Heq as [Heq _];
      [|simpl; rewrite !length_app; simpl; lia].
    subst ws'. rewrite forallb_app in Hws'. apply andb_prop in Hws' as [Hbs _].
    destruct (rev b) as [|c rb] eqn:Er.
    + apply (f_equal (@rev ascii)) in Er. rewrite rev_involutive in Er.
      simpl in Er. contradiction.
    + assert (Hin : In c b) by (apply in_rev; rewrite Er; by left).
      rewrite forallb_forall in Hbs. rewrite (Hbs c Hin) in Hlast. discriminate.
  - rewrite !rev_app_distr in Hrev. simpl in Hrev.
    rewrite !rev_app_distr in Hrev. simpl in Hrev.
    injection Hrev as Hc' _. subst c. discriminate.
Qed.

Lemma search_from_later (s : str) : forall pos,
  pos <> 0 -> search_from title_pattern s pos = None.
Proof.
  induction s as [|c s IH]; intros [|n] Hn; try contradiction.
  - reflexivity.
  - cbn [search_from]. change (run title_pattern (c :: s) (S n) no_marks)
      with (@None marks). apply IH. discriminate.
Qed.

Lemma search_title (t : str) :
  search title_pattern t =
  match t with
  | c :: t' =>
      if is_dot c
      then match star_lazy is_dot (run after_title) t' 1
                   (open_group 1 0 no_marks) with
           | Some m => Some (t, m)
           | None => None
           end
      else None
  | [] => None
  end.
Proof.
  unfold search. destruct t as [|c t']; [reflexivity|].
  cbn [search_from].
  change (run title_pattern (c :: t') 0 no_marks) with
    (if is_dot c
     then star_lazy is_dot (run after_title) t' 1 (open_group 1 0 no_marks)
     else None).
  rewrite search_from_later by discriminate.
  destruct (is_dot c); [|reflexivity].
  by destruct (star_lazy _ _ _ _ _).
Qed.

Lemma rev_head_app (b a : str) :
  b <> [] ->
  match rev (a ++ b) with c :: _ => is_space c = false | [] => True end ->
  match rev b with c :: _ => is_space c = false | [] => True end.
Proof.
  intros Hb. rewrite rev_app_distr.
  destruct (rev b) as [|c rb] eqn:E; [|by simpl].
  apply (f_equal (@rev ascii)) in E. rewrite rev_involutive in E. contradiction.
Qed.

(** The search finds a title of the year form, with the title proper
    as group 1 and the digits as group 2. *)
Lemma search_year_form (t x ws ds : str) :
  year_form t x ws ds ->
  exists mo, search title_pattern t = Some mo /\
             group mo 1 = Some x /\ group mo 2 = Some ds.
Proof.
  intros (-> & Hx & Hdot & Hlast & Hws & Hlen & Hd).
  destruct x as [|c x1]; [contradiction|]. clear Hx.
  simpl in Hdot. apply andb_prop in Hdot as [Hc Hdot].
  rewrite search_title. cbn [app]. rewrite Hc.
  rewrite (star_lazy_first is_dot (run after_title) x1
             (ws ++ "("%char :: ds ++ [")"%char]) 1 (open_group 1 0 no_marks)
             (close_group 2 (1 + length x1 + length ws + 5)
                (open_group 2 (1 + length x1 + length ws + 1)
                   (close_group 1 (1 + length x1) (open_group 1 0 no_marks))))).
  - eexists. split; [reflexivity|]. unfold group. cbn [fst snd].
    cbn [close_group open_group opened spans assoc Nat.eqb no_marks].
    split.
    + cbn [skipn]. rewrite Nat.sub_0_r.
      change (1 + length x1) with (length (c :: x1)).
      change (c :: x1 ++ ws ++ "("%char :: ds ++ [")"%char])
        with ((c :: x1) ++ ws ++ "("%char :: ds ++ [")"%char]).
      by rewrite firstn_app, Nat.sub_diag, firstn_all, app_nil_r.
    + replace (1 + length x1 + length ws + 5 - (1 + length x1 + length ws + 1))
        with 4 by lia.
      replace (c :: x1 ++ ws ++ "("%char :: ds ++ [")"%char])
        with (((c :: x1) ++ ws ++ ["("%char]) ++ ds ++ [")"%char])
        by (simpl; rewrite <- !app_assoc; reflexivity).
      replace (1 + length x1 + length ws + 1)
        with (length ((c :: x1) ++ ws ++ ["("%char]))
        by (rewrite !length_app; simpl; lia).
      rewrite skipn_app, skipn_all, Nat.sub_diag. simpl.
      rewrite drop_0, <- Hlen, firstn_app, Nat.sub_diag, firstn_all. simpl.
      by rewrite app_nil_r.
  - assumption.
  - intros a b -> Hb. apply after_title_too_early; auto.
    apply (rev_head_app b (c :: a)); assumption.
  - by apply after_title_complete.
Qed.

Lemma rstrip_split (s : str) :
  exists w, s = rstrip s ++ w /\ forallb is_space w = true /\
            match rev (rstrip s) with
            | c :: _ => is_space c = false
            | [] => True
            end.
Proof.
  unfold rstrip. destruct (lstrip_suffix (rev s)) as (w0 & Hw0 & Hall).
  exists (rev w0). split_and!.
  - rewrite <- rev_app_distr, <- Hw0. by rewrite rev_involutive.
  - apply forallb_forall. intros c Hc. apply in_rev in Hc.
    rewrite forallb_forall in Hall. by apply Hall.
  - rewrite rev_involutive. apply lstrip_spec.
Qed.

Lemma strip_fixed (s : str) :
  match s with c :: _ => is_space c = false | [] => True end ->
  match rev s with c :: _ => is_space c = false | [] => True end ->
  strip s = s.
Proof.
  intros Hl Hr. unfold strip, rstrip.
  rewrite (lstrip_id s) by exact Hl.
  rewrite (lstrip_id (rev s)) by exact Hr. apply rev_involutive.
Qed.

(** A successful search on a trimmed string exhibits the year form. *)
Lemma search_sound (t : str) mo :
  match t with c :: _ => is_space c = false | [] => True end ->
  match rev t with c :: _ => is_space c = false | [] => True end ->
  search title_pattern t = Some mo ->
  exists x ws ds, year_form t x ws ds.
Proof.
  intros Hhead Hlast. rewrite search_title.
  destruct t as [|c t']; [discriminate|].
  destruct (is_dot c) eqn:Hc; [|discriminate].
  destruct (star_lazy _ _ _ _ _) as [m|] eqn:E; [|discriminate].
  intros _.
  apply star_lazy_sound in E as (pre & rest & -> & Hpre & Hk).
  apply after_title_sound in Hk as (ws & ds & nl & -> & Hws & Hlen & Hd & Hnl).
  destruct Hnl as [->|(c' & -> & Hc')].
  - destruct (rstrip_split (c :: pre)) as (w & Hsplit & Hw & Hx).
    exists (rstrip (c :: pre)), (w ++ ws), ds. unfold year_form. split_and!; auto.
    + rewrite <- (app_assoc w ws), (app_assoc (rstrip (c :: pre)) w).
      by rewrite <- Hsplit.
    + intros Hnil. rewrite Hnil in Hsplit. simpl in Hsplit. subst w.
      simpl in Hw, Hhead. rewrite Hhead in Hw. discriminate.
    + assert (Hall : forallb is_dot (c :: pre) = true) by (simpl; by rewrite Hc).
      rewrite Hsplit, forallb_app in Hall. by apply andb_prop in Hall as [? _].
    + rewrite forallb_app. by rewrite Hw, Hws.
  - exfalso.
    change (c :: pre ++ ws ++ "("%char :: ds ++ [")"%char; c'])
      with ((c :: pre) ++ ws ++ "("%char :: ds ++ [")"%char; c']) in Hlast.
    rewrite !rev_app_distr in Hlast. simpl in Hlast.
    rewrite !rev_app_distr in Hlast. simpl in Hlast.
    rewrite (not_dot_is_space _ Hc') in Hlast. discriminate.
Qed.

Lemma digit_facts c :
  is_digit c = true ->
  is_space c = false /\ is_char "-" c = false /\ is_char "+" c = false.
Proof.
  destruct c as [[] [] [] [] [] [] [] []]; try discriminate; by intros _.
Qed.

Lemma digit_not_int_space c : is_digit c = true -> is_int_space c = false.
Proof.
  destruct c as [[] [] [] [] [] [] [] []]; try discriminate; by intros _.
Qed.

Lemma int_lstrip_id (s : str) :
  match s with c :: _ => is_int_space c = false | [] => True end ->
  int_lstrip s = s.
Proof. destruct s as [|c s]; simpl; [reflexivity|]. by intros ->. Qed.

Lemma int_strip_digits (ds : str) :
  forallb is_digit ds = true -> int_strip ds = ds.
Proof.
  intros Hd. unfold int_strip.
  rewrite (int_lstrip_id ds).
  - rewrite int_lstrip_id; [apply rev_involutive|].
    destruct (rev ds) as [|d r] eqn:E; [exact I|].
    assert (Hin : In d ds) by (apply in_rev; rewrite E; by left).
    rewrite forallb_forall in Hd. by apply digit_not_int_space, Hd.
  - destruct ds as [|d ds']; [exact I|]. simpl in Hd.
    apply andb_prop in Hd as [Hd _]. by apply digit_not_int_space.
Qed.

Lemma filter_digits (ds : str) :
  forallb is_digit ds = true -> List.filter is_digit ds = ds.
Proof.
  induction ds as [|d ds IH]; simpl; [reflexivity|].
  intros H. apply andb_prop in H as [-> H]. by rewrite IH.
Qed.

Lemma int_digits_all (ds : str) : forall acc prev,
  forallb is_digit ds = true -> ds <> [] \/ prev = true ->
  int_digits acc prev ds
  = Some (fold_left (fun a c => (10 * a + digit_val c)%Z) ds acc).
Proof.
  induction ds as [|d ds IH]; intros acc prev Hd Hne; simpl.
  - destruct Hne as [?| ->]; [contradiction|reflexivity].
  - simpl in Hd. apply andb_prop in Hd as [Hd1 Hd]. rewrite Hd1.
    apply IH; auto.
Qed.

(** [int()] of a non-empty string of digits, not longer than the
    limit, is its decimal value. *)
Lemma int_decimal (ds : str) :
  ds <> [] -> forallb is_digit ds = true ->
  (Z.of_nat (length ds) <= int_max_str_digits)%Z ->
  int ds = inr (decimal ds).
Proof.
  intros Hne Hd Hlen. unfold int.
  rewrite (int_strip_digits ds Hd).
  destruct ds as [|d ds']; [contradiction|].
  pose proof Hd as Hd'. simpl in Hd'. apply andb_prop in Hd' as [Hd1 _].
  destruct (digit_facts d Hd1) as (_ & -> & ->).
  rewrite int_digits_all by auto.
  rewrite (filter_digits _ Hd).
  apply Z.leb_le in Hlen. by rewrite Hlen.
Qed.

(** C6 (as amended). When the trimmed input is a title proper, optional
    whitespace and a four-digit year in parentheses, where the title
    proper is not empty, holds no line feed and is taken up to its last
    character that is not whitespace, the parser returns the title
    proper and the year as an integer. For every other input it returns
    the trimmed input and no year. It raises for no input. *)
Theorem extract_year_from_title_spec (title : str) :
  (forall x ws ds,
      year_form (strip title) x ws ds ->
      extract_year_from_title title = inr (x, Some (decimal ds)))
  /\ ((~ exists x ws ds, year_form (strip title) x ws ds) ->
      extract_year_from_title title = inr (strip title, None))
  /\ (exists r, extract_year_from_title title = inr r).
Proof.
  assert (Hyes : forall x ws ds,
             year_form (strip title) x ws ds ->
             extract_year_from_title title = inr (x, Some (decimal ds))).
  { intros x ws ds Hform.
    destruct (search_year_form _ _ _ _ Hform) as (mo & Hs & Hg1 & Hg2).
    unfold extract_year_from_title. rewrite Hs, Hg1, Hg2. cbn [strip_opt int_opt bind].
    destruct Hform as (Ht & Hx & _ & Hlast & _ & Hlen & Hd).
    assert (Hsx : strip x = x).
    { apply strip_fixed; [|exact Hlast].
      destruct (strip_spec title) as [Hhead _]. rewrite Ht in Hhead.
      destruct x; [contradiction|exact Hhead]. }
    rewrite Hsx, int_decimal; [reflexivity| |exact Hd|].
    - intros ->. discriminate.
    - rewrite Hlen. unfold int_max_str_digits. lia. }
  split_and!.
  - exact Hyes.
  - intros Hno. unfold extract_year_from_title.
    destruct (search title_pattern (strip title)) as [mo|] eqn:E; [|reflexivity].
    exfalso. apply Hno.
    destruct (strip_spec title) as [Hhead Hlast].
    by apply (search_sound _ mo).
  - destruct (search title_pattern (strip title)) as [mo|] eqn:E.
    + destruct (strip_spec title) as [Hhead Hlast].
      destruct (search_sound _ mo Hhead Hlast E) as (x & ws & ds & Hform).
      rewrite (Hyes x ws ds Hform). eauto.
    + unfold extract_year_from_title. rewrite E. eauto.
Qed.

(** C6, the claim as stated fails on two inputs that end with a
    four-digit year in parentheses: a bare "(1995)", and a title with a
    line feed in it. Both come back whole, without a year. *)
Lemma extract_year_bare_or_multiline :
  extract_year_from_title (lit "(1995)") = inr (lit "(1995)", None) /\
  extract_year_from_title (lit "Up" ++ "010"%char :: lit "Down (1995)")
  = inr (lit "Up" ++ "010"%char :: lit "Down (1995)", None).
Proof. split; reflexivity. Qed.

(** The amended claim at the title "  Heat (1995) ". *)
Lemma extract_year_from_title_witness :
  year_form (strip (lit "  Heat (1995) ")) (lit "Heat") (lit " ") (lit "1995") /\
  extract_year_from_title (lit "  Heat (1995) ") = inr (lit "Heat", Some 1995%Z).
Proof.
  assert (H : year_form (strip (lit "  Heat (1995) ")) (lit "Heat") (lit " ")
                        (lit "1995")).
  { unfold year_form. split_and!; try reflexivity. discriminate. }
  split; [exact H|].
  exact (proj1 (extract_year_from_title_spec (lit "  Heat (1995) ")) _ _ _ H).
Defined.

(** ** The statements at concrete inputs *)

(** Whitespace above the ASCII range: the no-break space (160) and the
    next-line character (133) are trimmed by the two parsers and by
    [int()]; the separator controls (28 to 31) are trimmed by the
    parsers and refused by [int()]. *)
Example whitespace_above_ascii :
  extract_year_from_title (lit "Heat (1995)" ++ ["160"%char])
    = inr (lit "Heat", Some 1995%Z) /\
  extract_year_from_title (lit "Heat" ++ "160"%char :: lit "(1995)")
    = inr (lit "Heat", Some 1995%Z) /\
  extract_year_from_title
    ("028"%char :: lit "Heat" ++ "133"%char :: lit " (0042)" ++ ["031"%char])
    = inr (lit "Heat", Some 42%Z) /\
  parse_genres (lit "Action" ++ "160"%char :: lit "|Comedy")
    = [lit "Action"; lit "Comedy"] /\
  int (lit "7" ++ ["160"%char]) = inr 7%Z /\
  int ("133"%char :: lit "7") = inr 7%Z /\
  strip ("028"%char :: lit "7") = lit "7" /\
  int ("028"%char :: lit "7") = inl ValueError.
Proof. vm_compute. by split_and!. Qed.

(** Integer literals: a sign, single underscores between digits, and at
    most 4300 digits, leading zeros included. *)
Example int_literals :
  int (lit " +1_000 ") = inr 1000%Z /\
  int (lit "1__0") = inl ValueError /\
  int (lit "- 1") = inl ValueError /\
  int [] = inl ValueError /\
  (exists n, int (repeat "1"%char 4300) = inr n) /\
  int (repeat "1"%char 4301) = inl ValueError /\
  int ("-"%char :: repeat "0"%char 4301) = inl ValueError.
Proof.
  split_and!; try (vm_compute; reflexivity).
  eexists. vm_compute. reflexivity.
Qed.

(** C1, the claim as stated fails: one row whose movie id is not an
    integer ends the run as failed, and the well-formed row after it is
    never ingested. *)
Lemma malformed_row_fails_run :
  seed_movies None (Some [bad_id_row; heat_row]) ∅ models.empty
  = (models.empty, [Error_seeding ValueError], Failed ValueError).
Proof. vm_compute. reflexivity. Qed.




(** C9 at movie id 1, against the empty and the example catalog. *)
Lemma placeholder_deterministic_witness :
  1%Z = 1%Z /\
  Director.name (create_placeholder_data 1 models.empty).2.1
    = Director.name (create_placeholder_data 1 demo_db).2.1 /\
  map Actor.name (create_placeholder_data 1 models.empty).2.2
    = map Actor.name (create_placeholder_data 1 demo_db).2.2.
Proof.
  split; [reflexivity|].
  exact (proj2 (proj2 (placeholder_deterministic 1 1 5 models.empty demo_db
                         eq_refl))).
Defined.

(** The end-to-end scenario of the specification: the row of
    "Heat (1995)" with genres "Action|Crime", no enrichment and no
    ratings, gives one movie titled Heat of 1995 with one director, five
    actors, two genres, no rating and a rating count of 0. *)
Example heat_end_to_end :
  let db := (seed_movies None (Some [heat_row]) ∅ models.empty).1.1 in
  (seed_movies None (Some [heat_row]) ∅ models.empty).2 = Completed 1 /\
  counts db = (1, 2, 1, 5) /\
  map Movie.title (movies db) = [lit "Heat"] /\
  map Movie.release_year (movies db) = [Some 1995%Z] /\
  map Movie.rating (movies db) = [None] /\
  map Movie.rating_count (movies db) = [0%Z] /\
  genre_names db = [lit "Action"; lit "Crime"] /\
  director_names db = [lit "Director_059"] /\
  actor_names db = [lit "Actor_023"; lit "Actor_036"; lit "Actor_049";
                    lit "Actor_062"; lit "Actor_075"].
Proof. vm_compute. repeat split. Qed.


(* ================================================================= *)
(** * Further properties of the code *)

(** ** Lookups in a table that grows *)

Section first_where_more.
Context {A : Type} (p : A -> bool).

Lemma first_where_app_Some l l' i x :
  first_where p l = Some (i, x) -> first_where p (l ++ l') = Some (i, x).
Proof.
  revert i; induction l as [|a l IH]; intros i; simpl; [discriminate|].
  destruct (p a); [auto|].
  destruct (first_where p l) as [[k y]|]; [|discriminate].
  intros [= <- <-]. by rewrite (IH k eq_refl).
Qed.

Lemma first_where_app_None l l' :
  first_where p l = None ->
  first_where p (l ++ l') =
  match first_where p l' with
  | Some (i, x) => Some (length l + i, x)
  | None => None
  end.
Proof.
  induction l as [|a l IH]; simpl.
  - intros _. by destruct (first_where p l') as [[i x]|].
  - destruct (p a); [discriminate|].
    destruct (first_where p l) as [[k y]|]; [discriminate|].
    intros _. rewrite (IH eq_refl).
    by destruct (first_where p l') as [[i x]|].
Qed.

Lemma first_where_prefix l l' i x :
  l `prefix_of` l' ->
  first_where p l = Some (i, x) -> first_where p l' = Some (i, x).
Proof. intros [k ->]. apply first_where_app_Some. Qed.

Lemma first_where_insert l i x y :
  first_where p l = Some (i, x) -> p y = true ->
  first_where p (<[i := y]> l) = Some (i, y).
Proof.
  revert i; induction l as [|a l IH]; intros i; simpl; [discriminate|].
  destruct (p a) eqn:Hpa.
  - intros [= <- <-] Hy. simpl. by rewrite Hy.
  - destruct (first_where p l) as [[k z]|] eqn:Hf; [|discriminate].
    intros [= <- <-] Hy. simpl. rewrite Hpa. by rewrite (IH k eq_refl Hy).
Qed.

(** A row that fails the test and is replaced by one that fails it
    too: the lookup for the test does not see the change. *)
Lemma first_where_insert_other l i x y :
  l !! i = Some x -> p x = false -> p y = false ->
  first_where p (<[i := y]> l) = first_where p l.
Proof.
  revert i; induction l as [|a l IH]; intros [|i]; simpl; try discriminate.
  - intros [= ->] -> ->. done.
  - intros Hi Hx Hy. by rewrite (IH i Hi Hx Hy).
Qed.

End first_where_more.

Lemma next_id_above (ids : list Z) : Forall (fun x => (x < next_id ids)%Z) ids.
Proof.
  unfold next_id. induction ids as [|a ids IH]; constructor; simpl.
  - lia.
  - eapply Forall_impl; [exact IH|]. simpl. intros; lia.
Qed.

Lemma next_id_fresh (ids : list Z) : next_id ids ∉ ids.
Proof.
  intros H. pose proof (next_id_above ids) as Ha.
  rewrite Forall_forall in Ha. apply Ha in H. lia.
Qed.

Lemma elem_of_list_map {A B} (f : A -> B) (l : list A) (y : B) :
  y ∈ map f l <-> exists x, y = f x /\ x ∈ l.
Proof.
  rewrite list_elem_of_In, in_map_iff. split.
  - intros (x & <- & H). exists x. by rewrite list_elem_of_In.
  - intros (x & -> & H). exists x. by rewrite <- list_elem_of_In.
Qed.

Lemma elem_of_list_map_2 {A B} (f : A -> B) (l : list A) (x : A) :
  x ∈ l -> f x ∈ map f l.
Proof. intros H. apply elem_of_list_map. eauto. Qed.

(** A lookup by a key that is unique in the table finds the row that
    carries it. *)
Lemma first_where_unique {A} (key : A -> Z) (l : list A) (x : A) :
  NoDup (map key l) -> x ∈ l ->
  exists i, first_where (fun y => bool_decide (key y = key x)) l = Some (i, x).
Proof.
  induction l as [|a l IH]; simpl.
  - intros _ H. by apply elem_of_nil in H.
  - intros Hnd Hx. apply NoDup_cons in Hnd as [Ha Hnd].
    apply elem_of_cons in Hx as [->|Hx].
    + exists 0. by rewrite bool_decide_eq_true_2.
    + rewrite bool_decide_eq_false_2.
      * destruct (IH Hnd Hx) as [i ->]. by exists (S i).
      * intros E. apply Ha. rewrite E.
        by apply elem_of_list_map_2.
Qed.

Lemma first_where_key_Some {A} (key : A -> Z) (l : list A) k i x :
  first_where (fun y => bool_decide (key y = k)) l = Some (i, x) ->
  key x = k /\ x ∈ l.
Proof.
  intros H. apply first_where_Some in H as (H1 & H2 & _).
  split; [by apply bool_decide_eq_true_1 in H2|].
  by eapply list_elem_of_lookup_2.
Qed.

Lemma first_where_key_None {A} (key : A -> Z) (l : list A) k :
  first_where (fun y => bool_decide (key y = k)) l = None <-> k ∉ map key l.
Proof.
  rewrite first_where_None, Forall_forall. split.
  - intros H Hin. apply elem_of_list_map in Hin as (x & -> & Hx).
    specialize (H x Hx). by apply bool_decide_eq_false_1 in H.
  - intros H x Hx. apply bool_decide_eq_false_2. intros E. apply H.
    rewrite <- E. by apply elem_of_list_map_2.
Qed.

(** ** Get-or-create, called again *)

Lemma first_where_snoc_new {A} (p : A -> bool) (l : list A) (x : A) :
  first_where p l = None -> p x = true ->
  first_where p (l ++ [x]) = Some (length l, x).
Proof.
  intros H Hx. rewrite (first_where_app_None p l [x] H). simpl. rewrite Hx.
  by rewrite Nat.add_0_r.
Qed.

Lemma get_or_create_genre_again db n :
  get_or_create_genre (get_or_create_genre db n).1 n = get_or_create_genre db n.
Proof.
  unfold get_or_create_genre at 2 3.
  destruct (first_where _ (genres db)) as [[i g]|] eqn:E; simpl.
  - unfold get_or_create_genre. by rewrite E.
  - unfold get_or_create_genre. simpl.
    rewrite (first_where_snoc_new _ _ _ E); [done|].
    by apply bool_decide_eq_true_2.
Qed.

Lemma get_or_create_director_again db n bio bio' :
  get_or_create_director (get_or_create_director db n bio).1 n bio'
  = get_or_create_director db n bio.
Proof.
  unfold get_or_create_director at 2 3.
  destruct (first_where _ (directors db)) as [[i g]|] eqn:E; simpl.
  - unfold get_or_create_director. by rewrite E.
  - unfold get_or_create_director. simpl.
    rewrite (first_where_snoc_new _ _ _ E); [done|].
    by apply bool_decide_eq_true_2.
Qed.

Lemma get_or_create_actor_again db n bio bio' :
  get_or_create_actor (get_or_create_actor db n bio).1 n bio'
  = get_or_create_actor db n bio.
Proof.
  unfold get_or_create_actor at 2 3.
  destruct (first_where _ (actors db)) as [[i g]|] eqn:E; simpl.
  - unfold get_or_create_actor. by rewrite E.
  - unfold get_or_create_actor. simpl.
    rewrite (first_where_snoc_new _ _ _ E); [done|].
    by apply bool_decide_eq_true_2.
Qed.

(** X1. Calling a get-or-create a second time with the same name
    returns the entity of the first call and leaves the catalog as the
    first call left it; the bio given to the second call is ignored. The
    bio of an entity is only ever the one it was created with. *)
Theorem get_or_create_idempotent (db : Catalog) (n : str) (bio bio' : option str) :
  get_or_create_genre (get_or_create_genre db n).1 n = get_or_create_genre db n /\
  get_or_create_director (get_or_create_director db n bio).1 n bio'
    = get_or_create_director db n bio /\
  get_or_create_actor (get_or_create_actor db n bio).1 n bio'
    = get_or_create_actor db n bio /\
  (n ∈ director_names db ->
   get_or_create_director db n bio = get_or_create_director db n bio') /\
  (n ∈ actor_names db ->
   get_or_create_actor db n bio = get_or_create_actor db n bio').
Proof.
  split_and!.
  - apply get_or_create_genre_again.
  - apply get_or_create_director_again.
  - apply get_or_create_actor_again.
  - intros H. apply (first_where_name_in Director.name) in H as (i & x & E).
    unfold get_or_create_director. by rewrite E.
  - intros H. apply (first_where_name_in Actor.name) in H as (i & x & E).
    unfold get_or_create_actor. by rewrite E.
Qed.

(** ** The upsert, called again, and the rows it leaves alone *)

Lemma set_relationships_again m a g :
  set_relationships
    (Movie.Make (Movie.id (set_relationships m a g))
       (Movie.ml_id (set_relationships m a g))
       (Movie.tmdb_id m) (Movie.title m) (Movie.release_year m)
       (Movie.description m) (Movie.rating m) (Movie.rating_count m)
       (Movie.poster_url m) (Movie.director_id m)
       (Movie.actors (set_relationships m a g))
       (Movie.genres (set_relationships m a g))) a g
  = set_relationships m a g.
Proof. destruct m, a, g; reflexivity. Qed.

Section upsert_again.
Variables (db : Catalog) (ml_id : Z) (title : str)
          (release_year : option Z) (description : option str)
          (rating : option float) (rating_count : Z)
          (poster_url : option str) (tmdb_id : option Z)
          (director : option Director.t)
          (actors : option (list Actor.t)) (genres : option (list Genre.t)).

Local Abbreviation upsert d :=
  (create_or_update_movie_by_ml_id d ml_id title release_year description
     rating rating_count poster_url tmdb_id director actors genres).

Lemma upsert_lookup :
  exists i,
    first_where (fun m => bool_decide (Movie.ml_id m = ml_id))
                (movies (upsert db).1) = Some (i, (upsert db).2) /\
    (first_where (fun m => bool_decide (Movie.ml_id m = ml_id)) (movies db)
       = None -> i = length (movies db)) /\
    (forall j old,
       first_where (fun m => bool_decide (Movie.ml_id m = ml_id)) (movies db)
         = Some (j, old) -> i = j).
Proof.
  unfold create_or_update_movie_by_ml_id.
  destruct (first_where _ (movies db)) as [[i old]|] eqn:E; simpl.
  - exists i. split; [|split; [discriminate|by intros ? ? [= <- <-]]].
    apply (first_where_insert _ _ _ _ _ E).
    apply bool_decide_eq_true_2.
    destruct (set_relationships_keys
      (Movie.Make (Movie.id old) (Movie.ml_id old) tmdb_id title release_year
         description rating rating_count poster_url
         (match director with
          | Some d => Some (Director.id d)
          | None => Movie.director_id old
          end) (Movie.actors old) (Movie.genres old)) actors genres) as [_ ->].
    simpl. apply first_where_Some in E as (_ & E & _).
    by apply bool_decide_eq_true_1 in E.
  - exists (length (movies db)). split; [|split; [done|discriminate]].
    apply (first_where_snoc_new _ _ _ E).
    apply bool_decide_eq_true_2.
    by destruct (set_relationships_keys
      (Movie.Make (next_id (map Movie.id (movies db))) ml_id tmdb_id title
         release_year description rating rating_count poster_url
         (option_map Director.id director) [] []) actors genres) as [_ ->].
Qed.

Lemma upsert_again : upsert (upsert db).1 = upsert db.
Proof.
  destruct upsert_lookup as (i & Hi & Hnew & Hold).
  unfold create_or_update_movie_by_ml_id at 1. rewrite Hi.
  assert (Hm :
    set_relationships
      (Movie.Make (Movie.id (upsert db).2) (Movie.ml_id (upsert db).2)
         tmdb_id title release_year description rating rating_count poster_url
         (match director with
          | Some d => Some (Director.id d)
          | None => Movie.director_id (upsert db).2
          end) (Movie.actors (upsert db).2) (Movie.genres (upsert db).2))
      actors genres = (upsert db).2).
  { unfold create_or_update_movie_by_ml_id.
    destruct (first_where _ (movies db)) as [[j old]|]; simpl;
      destruct director, actors, genres; reflexivity. }
  rewrite Hm.
  rewrite list_insert_id.
  - destruct (upsert db) as [d m] eqn:E. simpl. f_equal.
    by destruct d.
  - by apply first_where_Some in Hi as (Hi & _).
Qed.

Lemma upsert_keeps_others j m :
  movies db !! j = Some m -> Movie.ml_id m <> ml_id ->
  movies (upsert db).1 !! j = Some m.
Proof.
  intros Hj Hm. unfold create_or_update_movie_by_ml_id.
  destruct (first_where _ (movies db)) as [[i old]|] eqn:E; simpl.
  - rewrite list_lookup_insert_ne; [done|].
    intros <-. apply first_where_Some in E as (E & Ho & _).
    rewrite Hj in E. injection E as <-.
    by apply bool_decide_eq_true_1 in Ho.
  - by apply lookup_app_l_Some.
Qed.

Lemma upsert_other_lookup ml' :
  ml' <> ml_id ->
  first_where (fun m => bool_decide (Movie.ml_id m = ml')) (movies (upsert db).1)
  = first_where (fun m => bool_decide (Movie.ml_id m = ml')) (movies db).
Proof.
  intros Hml.
  destruct upsert_lookup as (i & Hi & _ & _).
  apply first_where_Some in Hi as (_ & Hk & _).
  apply bool_decide_eq_true_1 in Hk.
  revert Hk. unfold create_or_update_movie_by_ml_id.
  destruct (first_where _ (movies db)) as [[k old]|] eqn:E; simpl; intros Hk.
  - apply first_where_Some in E as (E & Ho & _).
    apply bool_decide_eq_true_1 in Ho.
    apply (first_where_insert_other _ _ _ old); auto.
    + apply bool_decide_eq_false_2. congruence.
    + apply bool_decide_eq_false_2. congruence.
  - destruct (first_where (fun m => bool_decide (Movie.ml_id m = ml')) (movies db))
      as [[k y]|] eqn:E'.
    + by apply first_where_app_Some.
    + rewrite (first_where_app_None _ _ _ E'). simpl.
      rewrite bool_decide_eq_false_2; [done|congruence].
Qed.

End upsert_again.

(** X2. The upsert is idempotent: a second call with the same
    arguments returns the movie of the first call and leaves the catalog
    as the first call left it, whatever the arguments (also with no
    director, no actors list and no genres list). *)
Theorem upsert_idempotent
        (db : Catalog) (ml_id : Z) (title : str)
        (release_year : option Z) (description : option str)
        (rating : option float) (rating_count : Z)
        (poster_url : option str) (tmdb_id : option Z)
        (director : option Director.t)
        (actors : option (list Actor.t)) (genres : option (list Genre.t)) :
  let first :=
    create_or_update_movie_by_ml_id db ml_id title release_year description
      rating rating_count poster_url tmdb_id director actors genres in
  create_or_update_movie_by_ml_id first.1 ml_id title release_year description
    rating rating_count poster_url tmdb_id director actors genres = first.
Proof. apply upsert_again. Qed.

(** X3. The upsert touches one movie row only: a row with another
    [ml_id] stays at its position unchanged, the lookup by any other
    [ml_id] gives what it gave before, the genre, director and actor
    tables are not written, and the movies table gets at most one row
    longer and never shorter. *)
Theorem upsert_frame
        (db : Catalog) (ml_id : Z) (title : str)
        (release_year : option Z) (description : option str)
        (rating : option float) (rating_count : Z)
        (poster_url : option str) (tmdb_id : option Z)
        (director : option Director.t)
        (actors : option (list Actor.t)) (genres : option (list Genre.t)) :
  let r :=
    create_or_update_movie_by_ml_id db ml_id title release_year description
      rating rating_count poster_url tmdb_id director actors genres in
  (forall j m, movies db !! j = Some m -> Movie.ml_id m <> ml_id ->
               movies r.1 !! j = Some m) /\
  (forall ml', ml' <> ml_id -> movie_by_ml_id r.1 ml' = movie_by_ml_id db ml') /\
  models.genres r.1 = models.genres db /\
  directors r.1 = directors db /\
  models.actors r.1 = models.actors db /\
  length (movies db) <= length (movies r.1) <= S (length (movies db)).
Proof.
  intros r. subst r. split_and!.
  - apply upsert_keeps_others.
  - intros ml' H. unfold movie_by_ml_id. by rewrite upsert_other_lookup.
  - apply upsert_entities.
  - apply upsert_entities.
  - apply upsert_entities.
  - unfold create_or_update_movie_by_ml_id.
    destruct (first_where _ (movies db)) as [[i old]|]; simpl.
    + rewrite length_insert. lia.
    + rewrite length_app. simpl. lia.
  - unfold create_or_update_movie_by_ml_id.
    destruct (first_where _ (movies db)) as [[i old]|]; simpl.
    + rewrite length_insert. lia.
    + rewrite length_app. simpl. lia.
Qed.

(** ** What the loop does to the catalog

    Every change the seeder makes to the catalog is a get-or-create of an
    entity or the upsert of a movie whose director, actors and genres
    were resolved before. Each iteration is a run of entity steps
    followed by one upsert. *)

Lemma entity_step_tables db db' :
  entity_step db db' ->
  genres db `prefix_of` genres db' /\
  directors db `prefix_of` directors db' /\
  actors db `prefix_of` actors db' /\
  movies db' = movies db.
Proof.
  intros [d n|d n bio|d n bio].
  - unfold get_or_create_genre. destruct (first_where _ _) as [[i g]|]; simpl;
      split_and!; try done. by apply prefix_app_r.
  - unfold get_or_create_director. destruct (first_where _ _) as [[i g]|]; simpl;
      split_and!; try done. by apply prefix_app_r.
  - unfold get_or_create_actor. destruct (first_where _ _) as [[i g]|]; simpl;
      split_and!; try done. by apply prefix_app_r.
Qed.

Lemma entity_steps_tables db db' :
  entity_steps db db' ->
  genres db `prefix_of` genres db' /\
  directors db `prefix_of` directors db' /\
  actors db `prefix_of` actors db' /\
  movies db' = movies db.
Proof.
  induction 1 as [d|d1 d2 d3 H12 _ IH].
  - done.
  - apply entity_step_tables in H12 as (G & D & A & M).
    destruct IH as (G' & D' & A' & M').
    split_and!; try (etrans; eassumption); congruence.
Qed.

Lemma prefix_elem_of {A} (l l' : list A) x : l `prefix_of` l' -> x ∈ l -> x ∈ l'.
Proof. intros [k ->] H. apply elem_of_app. by left. Qed.

Lemma prefix_Forall_elem {A} (l l' acc : list A) :
  l `prefix_of` l' -> Forall (fun x => x ∈ l) acc -> Forall (fun x => x ∈ l') acc.
Proof.
  intros Hp H. eapply Forall_impl; [exact H|]. intros x. by apply prefix_elem_of.
Qed.

Lemma entity_steps_trans db1 db2 db3 :
  entity_steps db1 db2 -> entity_steps db2 db3 -> entity_steps db1 db3.
Proof. unfold entity_steps. intros. etrans; eassumption. Qed.

Lemma entity_steps_once db db' : entity_step db db' -> entity_steps db db'.
Proof. apply rtc_once. Qed.

Section resolve_each_entities.
Context {E : Type} (get : Catalog -> str -> Catalog * E)
        (table : Catalog -> list E) (name : E -> str).
Hypothesis Hstep : forall db n, entity_step db (get db n).1.
Hypothesis Hin : forall db n, (get db n).2 ∈ table (get db n).1.
Hypothesis Hname : forall db n, name (get db n).2 = n.
Hypothesis Htable :
  forall db db', entity_steps db db' -> table db `prefix_of` table db'.

Lemma resolve_each_steps names : forall db acc,
  let r := resolve_each get db names acc in
  entity_steps db r.1 /\
  map name r.2 = map name acc ++ names /\
  (Forall (fun x => x ∈ table db) acc -> Forall (fun x => x ∈ table r.1) r.2).
Proof.
  induction names as [|n names IH]; intros db acc; simpl.
  - split_and!; [apply rtc_refl|by rewrite app_nil_r|done].
  - pose proof (Hstep db n) as Hs. pose proof (Hin db n) as Hi.
    pose proof (Hname db n) as Hn.
    destruct (get db n) as [db1 e]. simpl in *.
    destruct (IH db1 (acc ++ [e])) as (S1 & N1 & M1).
    split_and!.
    + eapply rtc_l; eassumption.
    + rewrite N1, map_app, <- app_assoc. simpl. by rewrite Hn.
    + intros Hacc. apply M1. apply Forall_app. split.
      * eapply prefix_Forall_elem; [|exact Hacc].
        apply Htable. by apply rtc_once.
      * by constructor.
Qed.
End resolve_each_entities.

Lemma resolve_genres_steps db names :
  let r := resolve_genres db names in
  entity_steps db r.1 /\ map Genre.name r.2 = names /\
  Forall (fun g => g ∈ genres r.1) r.2.
Proof.
  destruct (resolve_each_steps get_or_create_genre genres Genre.name) with
    (names := names) (db := db) (acc := @nil Genre.t) as (S1 & N1 & M1).
  - intros. constructor.
  - intros d n. apply (get_or_create_genre_spec d n).
  - intros d n. apply (get_or_create_genre_spec d n).
  - intros d d' H. by apply entity_steps_tables in H as (? & _).
  - split_and!; [exact S1|exact N1|by apply M1].
Qed.

Lemma resolve_actors_steps bio db names :
  let r := resolve_each (fun db n => get_or_create_actor db n bio) db names [] in
  entity_steps db r.1 /\ map Actor.name r.2 = names /\
  Forall (fun a => a ∈ actors r.1) r.2.
Proof.
  destruct (resolve_each_steps (fun db n => get_or_create_actor db n bio)
              actors Actor.name) with
    (names := names) (db := db) (acc := @nil Actor.t) as (S1 & N1 & M1).
  - intros. constructor.
  - intros d n. apply (get_or_create_actor_spec d n bio).
  - intros d n. apply (get_or_create_actor_spec d n bio).
  - intros d d' H. by apply entity_steps_tables in H as (? & ? & ? & _).
  - split_and!; [exact S1|exact N1|by apply M1].
Qed.

(** The cast loop: the entries are resolved in order up to the first
    one without a name. *)
Lemma resolve_cast_steps top : forall db acc,
  let r := resolve_cast db top acc in
  entity_steps db r.1 /\
  (forall l, r.2 = inr l ->
     Forall (fun a => a ∈ actors db) acc ->
     Forall (fun a => a ∈ actors r.1) l) /\
  (forall names, map ca_name top = map Some names ->
     exists l, r.2 = inr l /\ map Actor.name l = map Actor.name acc ++ names) /\
  (forall pre bad post names,
     top = pre ++ bad :: post -> map ca_name pre = map Some names ->
     ca_name bad = None ->
     r.2 = inl KeyError /\ names ⊆ actor_names r.1).
Proof.
  induction top as [|c top IH]; intros db acc; simpl.
  - split_and!.
    + apply rtc_refl.
    + by intros l [= <-].
    + intros [|n names]; [|discriminate]. intros _. exists acc.
      by rewrite app_nil_r.
    + intros [|? ?] ? ? ? ?; discriminate.
  - destruct (ca_name c) as [n|] eqn:En; simpl.
    + pose proof (get_or_create_actor_spec db n None) as Hs. simpl in Hs.
      pose proof (step_actor db n None) as Hstep.
      destruct (get_or_create_actor db n None) as [db1 a]. simpl in *.
      destruct Hs as (Hn & Hin & _ & _ & _ & _ & _ & Hnames).
      destruct (IH db1 (acc ++ [a])) as (S1 & M1 & N1 & B1).
      split_and!.
      * eapply rtc_l; eassumption.
      * intros l Hl Hacc. apply (M1 l Hl). apply Forall_app. split.
        -- eapply prefix_Forall_elem; [|exact Hacc].
           by apply entity_step_tables in Hstep as (_ & _ & ? & _).
        -- by constructor.
      * intros [|n' names]; [discriminate|]. simpl. intros [= <- Hrest].
        destruct (N1 names Hrest) as (l & Hl & Hnl). exists l. split; [done|].
        rewrite Hnl, map_app, <- app_assoc. simpl. by rewrite Hn.
      * intros [|p pre] bad post names; simpl.
        -- intros [= <- <-] _ Hbad. congruence.
        -- intros [= <- ->]. destruct names as [|n' names]; [discriminate|].
           simpl. intros [= Hn' Hrest] Hbad.
           destruct (B1 pre bad post names eq_refl Hrest Hbad) as (R & Hsub).
           split; [done|]. intros x Hx. apply elem_of_cons in Hx as [->|Hx].
           ++ assert (Hn1 : n' ∈ actor_names db1).
              { apply Hnames. right. congruence. }
              apply entity_steps_tables in S1 as (_ & _ & Hp & _).
              unfold actor_names in *. apply elem_of_list_map in Hn1 as (y & -> & Hy).
              apply elem_of_list_map_2. by eapply prefix_elem_of.
           ++ by apply Hsub.
    + split_and!.
      * apply rtc_refl.
      * discriminate.
      * intros [|? ?]; discriminate.
      * intros [|p pre] bad post names; simpl.
        -- intros _. destruct names; [|discriminate]. intros _ _.
           split; [done|]. intros x Hx. by apply elem_of_nil in Hx.
        -- intros [= <- ->]. destruct names; [discriminate|]. simpl.
           intros [= ? ?]. congruence.
Qed.

Lemma enrich_steps tm title year db :
  let r := enrich_movie_with_tmdb tm title year db in
  entity_steps db r.1.1 /\
  (forall t p d a, r.2 = inr (t, p, d, a) ->
     (forall x, d = Some x -> x ∈ directors r.1.1) /\
     Forall (fun y => y ∈ actors r.1.1) a).
Proof.
  unfold enrich_movie_with_tmdb.
  destruct (search_movie tm title year) as [log [e|[m|]]]; simpl.
  - split; [apply rtc_refl|discriminate].
  - destruct (sr_id m) as [tid|]; simpl; [|split; [apply rtc_refl|discriminate]].
    destruct (get_movie_credits tm tid) as [log2 [c|]]; simpl.
    + destruct (List.filter is_director (default [] (cd_crew c))) as [|d ds].
      * pose proof (resolve_cast_steps (firstn 8 (default [] (cd_cast c))) db [])
          as (S1 & M1 & _).
        destruct (resolve_cast db _ []) as [db2 [e|acts]]; simpl in *.
        -- split; [done|discriminate].
        -- split; [done|]. intros t p d a [= <- <- <- <-]. split; [discriminate|].
           by apply M1.
      * destruct (cm_name d) as [dn|]; simpl;
          [|split; [apply rtc_refl|discriminate]].
        pose proof (get_or_create_director_spec db dn None) as Hs. simpl in Hs.
        pose proof (step_director db dn None) as Hstep.
        destruct (get_or_create_director db dn None) as [db1 dir]. simpl in *.
        destruct Hs as (_ & Hin & _).
        pose proof (resolve_cast_steps (firstn 8 (default [] (cd_cast c))) db1 [])
          as (S1 & M1 & _).
        destruct (resolve_cast db1 _ []) as [db2 [e|acts]]; simpl in *.
        -- split; [eapply rtc_l; eassumption|discriminate].
        -- split; [eapply rtc_l; eassumption|].
           intros t p d' a [= <- <- <- <-]. split.
           ++ intros x [= <-].
              apply entity_steps_tables in S1 as (_ & Hp & _).
              by eapply prefix_elem_of.
           ++ by apply M1.
    + split; [apply rtc_refl|]. intros t p d a [= <- <- <- <-].
      split; [discriminate|constructor].
  - split; [apply rtc_refl|]. intros t p d a [= <- <- <- <-].
    split; [discriminate|constructor].
Qed.

Lemma try_enrich_steps enricher title year db :
  let r := try_enrich enricher title year db in
  entity_steps db r.1.1 /\
  (forall x, r.2.1.2 = Some x -> x ∈ directors r.1.1) /\
  Forall (fun y => y ∈ actors r.1.1) r.2.2.
Proof.
  unfold try_enrich. destruct enricher as [tm|]; simpl.
  - pose proof (enrich_steps tm title year db) as (S1 & M1).
    destruct (enrich_movie_with_tmdb tm title year db) as [[db1 log] [e|found]];
      simpl in *.
    + split_and!; [done|discriminate|constructor].
    + destruct found as [[[t p] d] a]. destruct (M1 t p d a eq_refl) as [Hd Ha].
      split_and!; done.
  - split_and!; [apply rtc_refl|discriminate|constructor].
Qed.

Lemma create_placeholder_data_steps id db :
  entity_steps db (create_placeholder_data id db).1.
Proof.
  unfold create_placeholder_data.
  pose proof (step_director db (deterministic_placeholder_director id)
                (Some (lit "Placeholder director"))) as Hs.
  destruct (get_or_create_director db _ _) as [db1 d]. simpl in Hs.
  pose proof (resolve_actors_steps (Some (lit "Placeholder actor")) db1
                (deterministic_placeholder_actors id 5)) as (S1 & _).
  destruct (resolve_each _ db1 _ []) as [db2 acts]. simpl in *.
  eapply rtc_l; eassumption.
Qed.

Lemma or_placeholders_steps id db d0 a0 :
  (forall x, d0 = Some x -> x ∈ directors db) ->
  Forall (fun y => y ∈ actors db) a0 ->
  let r := or_placeholders id db d0 a0 in
  entity_steps db r.1 /\ r.2.1 ∈ directors r.1 /\
  Forall (fun y => y ∈ actors r.1) r.2.2.
Proof.
  intros Hd Ha. unfold or_placeholders. destruct d0 as [d|]; simpl.
  - split_and!; [apply rtc_refl|by apply Hd|done].
  - pose proof (create_placeholder_data_steps id db) as S1.
    pose proof (create_placeholder_data_spec id db) as Hs. simpl in Hs.
    destruct (create_placeholder_data id db) as [db1 [d acts]]. simpl in *.
    destruct Hs as (_ & _ & Hin & Hacts & _).
    split_and!; [done|done|].
    destruct a0 as [|a a0]; [done|].
    eapply prefix_Forall_elem; [|exact Ha].
    by apply entity_steps_tables in S1 as (_ & _ & ? & _).
Qed.

(** One iteration on a readable row: the genres are resolved, then the
    enrichment runs, then the placeholders fill in, then the movie is
    upserted with entities of the catalog, unless the database refuses
    its integers. *)
Lemma seed_row_cases enricher ratings r db id title year gn :
  read_row r = inr (id, title, year, gn) ->
  exists gens dbe log tm pu d0 a0 db1 d acts,
    resolve_genres db gn = ((resolve_genres db gn).1, gens) /\
    try_enrich enricher title year (resolve_genres db gn).1
      = (dbe, log, (tm, pu, d0, a0)) /\
    or_placeholders id dbe d0 a0 = (db1, (d, acts)) /\
    entity_steps db db1 /\
    map Genre.name gens = gn /\
    Forall (fun g => g ∈ genres db1) gens /\
    d ∈ directors db1 /\
    Forall (fun a => a ∈ actors db1) acts /\
    tm = tmdb_id_of enricher title year /\
    seed_row enricher ratings r db =
      if storable id year (get_rating ratings id).2 tm then
        ((create_or_update_movie_by_ml_id db1 id title year
            (Some (description_of year)) (get_rating ratings id).1
            (get_rating ratings id).2 pu tm (Some d) (Some acts) (Some gens)).1,
         log,
         inr (create_or_update_movie_by_ml_id db1 id title year
            (Some (description_of year)) (get_rating ratings id).1
            (get_rating ratings id).2 pu tm (Some d) (Some acts) (Some gens)).2)
      else (db1, log, inl OverflowError).
Proof.
  intros Hr. unfold seed_row. rewrite Hr.
  pose proof (resolve_genres_steps db gn) as (Sg & Ng & Mg).
  destruct (resolve_genres db gn) as [dbg gens] eqn:Eg. simpl in *.
  pose proof (try_enrich_steps enricher title year dbg) as (Se & Md & Ma).
  destruct (try_enrich enricher title year dbg)
    as [[dbe log] [[[tm pu] d0] a0]] eqn:Ee. simpl in *.
  pose proof (or_placeholders_steps id dbe d0 a0 Md Ma) as (So & Mo & Mao).
  destruct (or_placeholders id dbe d0 a0) as [db1 [d acts]] eqn:Eo. simpl in *.
  exists gens, dbe, log, tm, pu, d0, a0, db1, d, acts.
  assert (S1 : entity_steps dbg db1) by (eapply entity_steps_trans; eassumption).
  split_and!; try done.
  - eapply entity_steps_trans; eassumption.
  - eapply prefix_Forall_elem; [|exact Mg].
    by apply entity_steps_tables in S1 as (? & _).
  - by rewrite <- (try_enrich_tmdb_id enricher title year dbg), Ee.
  - destruct (get_rating ratings id) as [rt rc]. simpl.
    destruct (storable id year rc tm); [|done].
    by destruct (create_or_update_movie_by_ml_id _ _ _ _ _ _ _ _ _ _ _ _).
Qed.

(** The same on a row whose integers the database accepts. *)
Lemma seed_row_steps enricher ratings r db id title year gn :
  read_row r = inr (id, title, year, gn) ->
  accepted enricher ratings id title year ->
  exists gens dbe log tm pu d0 a0 db1 d acts,
    resolve_genres db gn = ((resolve_genres db gn).1, gens) /\
    try_enrich enricher title year (resolve_genres db gn).1
      = (dbe, log, (tm, pu, d0, a0)) /\
    or_placeholders id dbe d0 a0 = (db1, (d, acts)) /\
    entity_steps db db1 /\
    map Genre.name gens = gn /\
    Forall (fun g => g ∈ genres db1) gens /\
    d ∈ directors db1 /\
    Forall (fun a => a ∈ actors db1) acts /\
    seed_row enricher ratings r db =
      ((create_or_update_movie_by_ml_id db1 id title year
          (Some (description_of year)) (get_rating ratings id).1
          (get_rating ratings id).2 pu tm (Some d) (Some acts) (Some gens)).1,
       log,
       inr (create_or_update_movie_by_ml_id db1 id title year
          (Some (description_of year)) (get_rating ratings id).1
          (get_rating ratings id).2 pu tm (Some d) (Some acts) (Some gens)).2).
Proof.
  intros Hr Hacc.
  destruct (seed_row_cases enricher ratings r db id title year gn Hr)
    as (gens & dbe & log & tm & pu & d0 & a0 & db1 & d & acts &
        H1 & H2 & H3 & H4 & H5 & H6 & H7 & H8 & -> & E).
  unfold accepted in Hacc. rewrite Hacc in E.
  exists gens, dbe, log, (tmdb_id_of enricher title year), pu, d0, a0, db1, d,
    acts.
  by split_and!.
Qed.

(** The same on a row the database refuses: the entities of the row
    stay, the movies table is as it was. *)
Lemma seed_row_overflow enricher ratings r db id title year gn :
  read_row r = inr (id, title, year, gn) ->
  ~ accepted enricher ratings id title year ->
  exists db1 log,
    seed_row enricher ratings r db = (db1, log, inl OverflowError) /\
    entity_steps db db1.
Proof.
  intros Hr Hacc.
  destruct (seed_row_cases enricher ratings r db id title year gn Hr)
    as (gens & dbe & log & tm & pu & d0 & a0 & db1 & d & acts &
        _ & _ & _ & S1 & _ & _ & _ & _ & -> & E).
  unfold accepted in Hacc. apply not_true_is_false in Hacc.
  rewrite Hacc in E. by exists db1, log.
Qed.

(** ** Invariants of a run *)

Section invariant.
Variable I : Catalog -> Prop.
Hypothesis I_step : forall db db', entity_step db db' -> I db -> I db'.
Hypothesis I_upsert :
  forall db ml title year desc rt rc pu tm d acts gens,
    I db -> d ∈ directors db ->
    Forall (fun a => a ∈ actors db) acts ->
    Forall (fun g => g ∈ genres db) gens ->
    I (create_or_update_movie_by_ml_id db ml title year desc rt rc pu tm
         (Some d) (Some acts) (Some gens)).1.

Lemma entity_steps_inv db db' : entity_steps db db' -> I db -> I db'.
Proof. induction 1; eauto. Qed.

Lemma seed_row_inv enricher ratings r db :
  I db -> I (seed_row enricher ratings r db).1.1.
Proof.
  intros H. destruct (read_row r) as [e|[[[id title] year] gn]] eqn:Er.
  - by rewrite (seed_row_failed _ _ _ _ _ Er).
  - destruct (seed_row_cases enricher ratings r db id title year gn Er)
      as (gens & dbe & log & tm & pu & d0 & a0 & db1 & d & acts &
          _ & _ & _ & S1 & _ & Mg & Md & Ma & _ & ->).
    pose proof (entity_steps_inv db db1 S1 H) as H1.
    destruct (storable id year (get_rating ratings id).2 tm); simpl; [|done].
    by apply I_upsert.
Qed.

Lemma seed_rows_inv enricher ratings rows : forall n db,
  I db -> I (seed_rows enricher ratings rows n db).1.1.
Proof.
  induction rows as [|r rows IH]; intros n db H; simpl; [done|].
  pose proof (seed_row_inv enricher ratings r db H) as H1.
  destruct (seed_row enricher ratings r db) as [[db1 log] [e|m]]; simpl in *;
    [done|].
  specialize (IH (S n) db1 H1).
  by destruct (seed_rows enricher ratings rows (S n) db1) as [[db2 log2] res].
Qed.

Lemma seed_movies_inv enricher movies_file ratings db :
  I db -> I (seed_movies enricher movies_file ratings db).1.1.
Proof.
  intros H. unfold seed_movies. destruct movies_file as [rows|]; [|done].
  pose proof (seed_rows_inv enricher ratings rows 0 db H) as H1.
  by destruct (seed_rows enricher ratings rows 0 db) as [[db1 log] [e|n]].
Qed.

Lemma main_inv enricher movies_file ratings_file db :
  I db -> I (main enricher movies_file ratings_file db).1.1.
Proof.
  intros H. unfold main.
  destruct (calculate_ratings ratings_file) as [ratings log].
  pose proof (seed_movies_inv enricher movies_file ratings db H) as H1.
  by destruct (seed_movies enricher movies_file ratings db) as [[db1 log1] res].
Qed.
End invariant.

(** *** The rows of the movies table after an upsert *)

Lemma map_insert_same {A B} (f : A -> B) (l : list A) i x y :
  l !! i = Some x -> f y = f x -> map f (<[i := y]> l) = map f l.
Proof.
  revert i; induction l as [|a l IH]; intros [|i]; simpl; try discriminate.
  - intros [= ->] ->. done.
  - intros Hi Hy. by rewrite (IH i Hi Hy).
Qed.

Lemma elem_of_insert_inv {A} (l : list A) i y x :
  x ∈ <[i := y]> l -> x ∈ l \/ x = y.
Proof.
  revert i; induction l as [|a l IH]; intros [|i]; simpl; auto.
  - intros H. apply elem_of_cons in H as [->|H]; auto.
    left. by apply elem_of_cons; right.
  - intros H. apply elem_of_cons in H as [->|H].
    + left. by apply elem_of_cons; left.
    + destruct (IH i H); auto. left. by apply elem_of_cons; right.
Qed.

Section upsert_rows.
Variables (db : Catalog) (ml_id : Z) (title : str)
          (release_year : option Z) (description : option str)
          (rating : option float) (rating_count : Z)
          (poster_url : option str) (tmdb_id : option Z)
          (director : option Director.t)
          (actors : option (list Actor.t)) (genres : option (list Genre.t)).

Local Abbreviation upsert :=
  (create_or_update_movie_by_ml_id db ml_id title release_year description
     rating rating_count poster_url tmdb_id director actors genres).

Lemma upsert_ids :
  map Movie.id (movies upsert.1) =
  if bool_decide (ml_id ∈ ml_ids db) then map Movie.id (movies db)
  else map Movie.id (movies db) ++ [next_id (map Movie.id (movies db))].
Proof.
  case_bool_decide as Hin.
  - destruct (stored_exists db ml_id Hin) as (i & old & Hst).
    destruct (upsert_found db ml_id title release_year description rating
                rating_count poster_url tmdb_id director actors genres i old Hst)
      as [-> Hm].
    apply (map_insert_same _ _ _ old); [apply Hst|].
    rewrite Hm.
    by destruct (set_relationships_keys
      (Movie.Make (Movie.id old) (Movie.ml_id old) tmdb_id title release_year
         description rating rating_count poster_url
         (match director with
          | Some d => Some (Director.id d)
          | None => Movie.director_id old
          end) (Movie.actors old) (Movie.genres old)) actors genres) as [-> _].
  - destruct (upsert_fresh db ml_id title release_year description rating
                rating_count poster_url tmdb_id director actors genres Hin)
      as [-> Hm].
    rewrite map_app. simpl. f_equal. rewrite Hm.
    by destruct (set_relationships_keys
      (Movie.Make (next_id (map Movie.id (movies db))) ml_id tmdb_id title
         release_year description rating rating_count poster_url
         (option_map Director.id director) [] []) actors genres) as [-> _].
Qed.

Lemma upsert_rows m :
  m ∈ movies upsert.1 -> m ∈ movies db \/ m = upsert.2.
Proof.
  unfold create_or_update_movie_by_ml_id.
  destruct (first_where _ (movies db)) as [[i old]|]; simpl.
  - apply elem_of_insert_inv.
  - intros H. apply elem_of_app in H as [H|H]; auto.
    apply list_elem_of_singleton in H. auto.
Qed.

End upsert_rows.

(** *** Primary keys *)

Lemma NoDup_snoc_fresh (ids : list Z) : NoDup ids -> NoDup (ids ++ [next_id ids]).
Proof.
  intros H. apply NoDup_app. split_and!; [done| |apply NoDup_singleton].
  intros x Hx Hx'. apply list_elem_of_singleton in Hx'. subst.
  by apply next_id_fresh in Hx.
Qed.

Lemma keys_unique_step db db' : entity_step db db' -> keys_unique db -> keys_unique db'.
Proof.
  intros [d n|d n bio|d n bio] (G & D & A & M).
  - unfold get_or_create_genre. destruct (first_where _ _) as [[i g]|]; simpl;
      [done|]. split_and!; try done. simpl. rewrite map_app. simpl.
    by apply NoDup_snoc_fresh.
  - unfold get_or_create_director. destruct (first_where _ _) as [[i g]|]; simpl;
      [done|]. split_and!; try done. simpl. rewrite map_app. simpl.
    by apply NoDup_snoc_fresh.
  - unfold get_or_create_actor. destruct (first_where _ _) as [[i g]|]; simpl;
      [done|]. split_and!; try done. simpl. rewrite map_app. simpl.
    by apply NoDup_snoc_fresh.
Qed.

Lemma keys_unique_upsert db ml title year desc rt rc pu tm d acts gens :
  keys_unique db ->
  keys_unique (create_or_update_movie_by_ml_id db ml title year desc rt rc pu tm
                 d acts gens).1.
Proof.
  intros (G & D & A & M).
  destruct (upsert_entities db ml title year desc rt rc pu tm d acts gens)
    as (Eg & Ed & Ea).
  unfold keys_unique. rewrite Eg, Ed, Ea, upsert_ids.
  split_and!; try done. case_bool_decide; [done|]. by apply NoDup_snoc_fresh.
Qed.

(** *** Names and [ml_id]s *)

Lemma NoDup_snoc {A} (l : list A) x : NoDup l -> x ∉ l -> NoDup (l ++ [x]).
Proof.
  intros H Hx. apply NoDup_app. split_and!; [done| |apply NoDup_singleton].
  intros y Hy Hy'. apply list_elem_of_singleton in Hy'. by subst.
Qed.

Lemma names_unique_step db db' :
  entity_step db db' -> names_unique db -> names_unique db'.
Proof.
  intros [d n|d n bio|d n bio] (G & D & A & M); unfold names_unique, ml_ids.
  - pose proof (get_or_create_genre_spec d n) as Hs. simpl in Hs.
    destruct Hs as (_ & _ & Ed & Ea & Em & Hold & Hnew & _).
    unfold director_names, actor_names. rewrite Ed, Ea, Em.
    split_and!; try done.
    destruct (decide (n ∈ genre_names d)) as [Hin|Hin].
    + by rewrite (Hold Hin).
    + unfold genre_names. rewrite (Hnew Hin), map_app. simpl.
      pose proof (get_or_create_genre_spec d n) as (-> & _).
      by apply NoDup_snoc.
  - pose proof (get_or_create_director_spec d n bio) as Hs. simpl in Hs.
    destruct Hs as (_ & _ & Eg & Ea & Em & Hold & Hnew & _).
    unfold genre_names, actor_names. rewrite Eg, Ea, Em.
    split_and!; try done.
    destruct (decide (n ∈ director_names d)) as [Hin|Hin].
    + by rewrite (Hold Hin).
    + unfold director_names. rewrite (Hnew Hin), map_app. simpl.
      pose proof (get_or_create_director_spec d n bio) as (-> & _).
      by apply NoDup_snoc.
  - pose proof (get_or_create_actor_spec d n bio) as Hs. simpl in Hs.
    destruct Hs as (_ & _ & Eg & Ed & Em & Hold & Hnew & _).
    unfold genre_names, director_names. rewrite Eg, Ed, Em.
    split_and!; try done.
    destruct (decide (n ∈ actor_names d)) as [Hin|Hin].
    + by rewrite (Hold Hin).
    + unfold actor_names. rewrite (Hnew Hin), map_app. simpl.
      pose proof (get_or_create_actor_spec d n bio) as (-> & _).
      by apply NoDup_snoc.
Qed.

Lemma names_unique_upsert db ml title year desc rt rc pu tm d acts gens :
  names_unique db ->
  names_unique (create_or_update_movie_by_ml_id db ml title year desc rt rc pu tm
                  d acts gens).1.
Proof.
  intros (G & D & A & M).
  destruct (upsert_entities db ml title year desc rt rc pu tm d acts gens)
    as (Eg & Ed & Ea).
  unfold names_unique, genre_names, director_names, actor_names.
  rewrite Eg, Ed, Ea, upsert_ml_ids.
  split_and!; try done. case_bool_decide; [done|]. by apply NoDup_snoc.
Qed.

(** *** Foreign keys *)

Lemma movie_refs_ok_grows db db' m :
  genres db `prefix_of` genres db' -> directors db `prefix_of` directors db' ->
  actors db `prefix_of` actors db' ->
  movie_refs_ok db m -> movie_refs_ok db' m.
Proof.
  intros [kg Hg] [kd Hd] [ka Ha] (Rd & Ra & Rg). unfold movie_refs_ok.
  rewrite Hg, Hd, Ha, !map_app. split_and!.
  - intros x Hx. apply elem_of_app. left. by apply Rd.
  - eapply Forall_impl; [exact Ra|]. intros x Hx. apply elem_of_app. by left.
  - eapply Forall_impl; [exact Rg|]. intros x Hx. apply elem_of_app. by left.
Qed.

Lemma refs_ok_step db db' : entity_step db db' -> refs_ok db -> refs_ok db'.
Proof.
  intros Hs H. apply entity_step_tables in Hs as (G & D & A & M).
  unfold refs_ok. rewrite M. eapply Forall_impl; [exact H|].
  intros m. by apply movie_refs_ok_grows.
Qed.

Lemma Forall_elem_map {A B} (f : A -> B) (l acc : list A) :
  Forall (fun x => x ∈ l) acc -> Forall (fun y => y ∈ map f l) (map f acc).
Proof.
  induction 1; simpl; constructor; auto. by apply elem_of_list_map_2.
Qed.

Lemma refs_ok_upsert db ml title year desc rt rc pu tm d acts gens :
  refs_ok db -> d ∈ directors db ->
  Forall (fun a => a ∈ actors db) acts ->
  Forall (fun g => g ∈ genres db) gens ->
  refs_ok (create_or_update_movie_by_ml_id db ml title year desc rt rc pu tm
             (Some d) (Some acts) (Some gens)).1.
Proof.
  intros H Hd Ha Hg.
  destruct (upsert_entities db ml title year desc rt rc pu tm (Some d)
              (Some acts) (Some gens)) as (Eg & Ed & Ea).
  pose proof (upsert_returned db ml title year desc rt rc pu tm (Some d)
                (Some acts) (Some gens)) as Hr. simpl in Hr.
  destruct Hr as (_ & _ & _ & _ & _ & _ & Rd & Ra & Rg).
  unfold refs_ok. apply Forall_forall. intros m Hm.
  apply upsert_rows in Hm as [Hm| ->].
  - unfold refs_ok in H. rewrite Forall_forall in H. specialize (H m Hm).
    unfold movie_refs_ok. rewrite Eg, Ed, Ea. exact H.
  - unfold movie_refs_ok. rewrite Eg, Ed, Ea, (Rd d eq_refl), (Ra acts eq_refl),
      (Rg gens eq_refl).
    split_and!.
    + intros x [= <-]. by apply elem_of_list_map_2.
    + by apply Forall_links, Forall_elem_map.
    + by apply Forall_links, Forall_elem_map.
Qed.

(** *** Growth *)

Lemma grows_refl db : grows db db.
Proof. by unfold grows. Qed.

Lemma grows_trans db1 db2 db3 : grows db1 db2 -> grows db2 db3 -> grows db1 db3.
Proof.
  intros (G & D & A & I & M) (G' & D' & A' & I' & M').
  unfold grows. split_and!; etrans; eassumption.
Qed.

Lemma grows_step db db' : entity_step db db' -> grows db db'.
Proof.
  intros H. apply entity_step_tables in H as (G & D & A & M).
  unfold grows, ml_ids. rewrite M. split_and!; done.
Qed.

Lemma grows_upsert db ml title year desc rt rc pu tm d acts gens :
  grows db (create_or_update_movie_by_ml_id db ml title year desc rt rc pu tm
              d acts gens).1.
Proof.
  destruct (upsert_entities db ml title year desc rt rc pu tm d acts gens)
    as (Eg & Ed & Ea).
  unfold grows. rewrite Eg, Ed, Ea, upsert_ids, upsert_ml_ids.
  split_and!; try done; case_bool_decide; try done; by apply prefix_app_r.
Qed.

(** A lookup by primary key in a catalog with unique keys. *)
Lemma by_id_unique {A} (key : A -> Z) (l : list A) (x : A) :
  NoDup (map key l) -> x ∈ l ->
  snd <$> first_where (fun y => bool_decide (key y = key x)) l = Some x.
Proof.
  intros Hnd Hx. by destruct (first_where_unique key l x Hnd Hx) as [i ->].
Qed.

Lemma main_catalog enricher movies_file ratings_file db :
  (main enricher movies_file ratings_file db).1.1 =
  (seed_movies enricher movies_file (calculate_ratings ratings_file).1 db).1.1.
Proof.
  unfold main. destruct (calculate_ratings ratings_file) as [ratings log]. simpl.
  by destruct (seed_movies enricher movies_file ratings db) as [[db1 log1] res].
Qed.

(** X4. A run of the seeder keeps the primary keys unique: if no two
    rows of a table share an id before [main], none do after it, however
    the run ends. Ids are handed out above every id in use, so a new
    row never takes the id of an old one. *)
Theorem run_keeps_keys_unique
        (enricher : option TMDbEnricher) (movies_file : option (list row))
        (ratings_file : option (list (Z * float))) (db : Catalog) :
  keys_unique db ->
  keys_unique (main enricher movies_file ratings_file db).1.1.
Proof.
  apply main_inv.
  - apply keys_unique_step.
  - intros. by apply keys_unique_upsert.
Qed.

(** X5. A run of the seeder never stores a name twice: if the genre
    names, the director names, the actor names and the movies' [ml_id]s
    are each pairwise distinct before [main], they are after it, however
    the run ends. *)
Theorem run_keeps_names_unique
        (enricher : option TMDbEnricher) (movies_file : option (list row))
        (ratings_file : option (list (Z * float))) (db : Catalog) :
  names_unique db ->
  names_unique (main enricher movies_file ratings_file db).1.1.
Proof.
  apply main_inv.
  - apply names_unique_step.
  - intros. by apply names_unique_upsert.
Qed.

(** X6. A run of the seeder keeps the foreign keys valid: if the
    director, the actors and the genres of every movie row are rows of
    their tables before [main], they are after it, however the run ends;
    the rows a run writes point to entities it resolved before. *)
Theorem run_keeps_references
        (enricher : option TMDbEnricher) (movies_file : option (list row))
        (ratings_file : option (list (Z * float))) (db : Catalog) :
  refs_ok db ->
  refs_ok (main enricher movies_file ratings_file db).1.1.
Proof.
  apply main_inv.
  - apply refs_ok_step.
  - intros. by apply refs_ok_upsert.
Qed.

(** X7. A run of the seeder deletes nothing and rewrites no entity: the
    genre, director and actor rows of the catalog before [main] are the
    first rows of the tables after it, unchanged, and every movie row
    keeps its position, its primary key and its [ml_id]; new rows only
    come after the old ones. *)
Theorem run_only_grows
        (enricher : option TMDbEnricher) (movies_file : option (list row))
        (ratings_file : option (list (Z * float))) (db : Catalog) :
  grows db (main enricher movies_file ratings_file db).1.1.
Proof.
  apply (main_inv (grows db)).
  - intros d d' Hs H. eapply grows_trans; [exact H|]. by apply grows_step.
  - intros. eapply grows_trans; [eassumption|]. apply grows_upsert.
  - apply grows_refl.
Qed.

(** X8. What was stored can be fetched by its id. In a catalog with
    unique primary keys, the movie an upsert returns is the one
    [GET /movies/{id}] answers for its id afterwards, and the director
    and the actor a get-or-create returns are the ones
    [GET /directors/{id}] and [GET /actors/{id}] answer. *)
Theorem stored_then_fetched
        (db : Catalog) (ml : Z) (title n : str) (year : option Z)
        (desc bio : option str) (rt : option float) (rc : Z)
        (pu : option str) (tm : option Z) (d : option Director.t)
        (acts : option (list Actor.t)) (gens : option (list Genre.t)) :
  keys_unique db ->
  (let r := create_or_update_movie_by_ml_id db ml title year desc rt rc pu tm
              d acts gens in
   get_movie_by_id r.1 (Movie.id r.2) = Some r.2 /\
   api.get_movie (Movie.id r.2) r.1 = inr r.2) /\
  (let r := get_or_create_director db n bio in
   get_director_by_id r.1 (Director.id r.2) = Some r.2 /\
   api.get_director (Director.id r.2) r.1 = inr r.2) /\
  (let r := get_or_create_actor db n bio in
   get_actor_by_id r.1 (Actor.id r.2) = Some r.2 /\
   api.get_actor (Actor.id r.2) r.1 = inr r.2).
Proof.
  intros K. split_and!.
  - pose proof (keys_unique_upsert db ml title year desc rt rc pu tm d acts gens K)
      as (_ & _ & _ & M).
    pose proof (upsert_returned db ml title year desc rt rc pu tm d acts gens)
      as Hr. simpl in Hr. destruct Hr as (Hin & _).
    assert (E : get_movie_by_id
                  (create_or_update_movie_by_ml_id db ml title year desc rt rc pu
                     tm d acts gens).1
                  (Movie.id (create_or_update_movie_by_ml_id db ml title year desc
                     rt rc pu tm d acts gens).2)
                = Some (create_or_update_movie_by_ml_id db ml title year desc
                     rt rc pu tm d acts gens).2)
      by (by apply (by_id_unique Movie.id)).
    split; [exact E|]. unfold api.get_movie. by rewrite E.
  - pose proof (keys_unique_step _ _ (step_director db n bio) K) as (_ & D & _).
    pose proof (get_or_create_director_spec db n bio) as Hs. simpl in Hs.
    destruct Hs as (_ & Hin & _).
    assert (E : get_director_by_id (get_or_create_director db n bio).1
                  (Director.id (get_or_create_director db n bio).2)
                = Some (get_or_create_director db n bio).2)
      by (by apply (by_id_unique Director.id)).
    split; [exact E|]. unfold api.get_director. by rewrite E.
  - pose proof (keys_unique_step _ _ (step_actor db n bio) K) as (_ & _ & A & _).
    pose proof (get_or_create_actor_spec db n bio) as Hs. simpl in Hs.
    destruct Hs as (_ & Hin & _).
    assert (E : get_actor_by_id (get_or_create_actor db n bio).1
                  (Actor.id (get_or_create_actor db n bio).2)
                = Some (get_or_create_actor db n bio).2)
      by (by apply (by_id_unique Actor.id)).
    split; [exact E|]. unfold api.get_actor. by rewrite E.
Qed.

(** X9. The three detail endpoints answer 404 exactly for the ids no
    row carries, and otherwise a row of the table with the id asked
    for. *)
Theorem detail_endpoints_404 (db : Catalog) (id : Z) :
  (match api.get_movie id db with
   | inl e => api.status_code e = 404%Z /\ id ∉ map Movie.id (movies db)
   | inr m => Movie.id m = id /\ m ∈ movies db
   end) /\
  (match api.get_actor id db with
   | inl e => api.status_code e = 404%Z /\ id ∉ map Actor.id (actors db)
   | inr a => Actor.id a = id /\ a ∈ actors db
   end) /\
  (match api.get_director id db with
   | inl e => api.status_code e = 404%Z /\ id ∉ map Director.id (directors db)
   | inr d => Director.id d = id /\ d ∈ directors db
   end).
Proof.
  unfold api.get_movie, api.get_actor, api.get_director,
    get_movie_by_id, get_actor_by_id, get_director_by_id.
  split_and!.
  - destruct (first_where _ (movies db)) as [[i m]|] eqn:E; simpl.
    + by apply (first_where_key_Some Movie.id) in E.
    + split; [done|]. by apply (first_where_key_None Movie.id).
  - destruct (first_where _ (actors db)) as [[i m]|] eqn:E; simpl.
    + by apply (first_where_key_Some Actor.id) in E.
    + split; [done|]. by apply (first_where_key_None Actor.id).
  - destruct (first_where _ (directors db)) as [[i m]|] eqn:E; simpl.
    + by apply (first_where_key_Some Director.id) in E.
    + split; [done|]. by apply (first_where_key_None Director.id).
Qed.

(** ** The movies a run stores *)

Lemma entity_steps_ml_ids db db' : entity_steps db db' -> ml_ids db' = ml_ids db.
Proof.
  intros H. apply entity_steps_tables in H as (_ & _ & _ & M).
  unfold ml_ids. by rewrite M.
Qed.

Lemma seed_row_ml_ids enricher ratings r db id title year gn :
  read_row r = inr (id, title, year, gn) ->
  accepted enricher ratings id title year ->
  ml_ids (seed_row enricher ratings r db).1.1 = add_key (ml_ids db) id.
Proof.
  intros Hr Hacc.
  destruct (seed_row_steps enricher ratings r db id title year gn Hr Hacc)
    as (gens & dbe & log & tm & pu & d0 & a0 & db1 & d & acts &
        _ & _ & _ & S1 & _ & _ & _ & _ & ->).
  simpl. rewrite upsert_ml_ids, (entity_steps_ml_ids _ _ S1). done.
Qed.

(** A row the database refuses leaves the movies table as it was. *)
Lemma seed_row_overflow_movies enricher ratings r db id title year gn :
  read_row r = inr (id, title, year, gn) ->
  ~ accepted enricher ratings id title year ->
  (seed_row enricher ratings r db).2 = inl OverflowError /\
  movies (seed_row enricher ratings r db).1.1 = movies db.
Proof.
  intros Hr Hacc.
  destruct (seed_row_overflow enricher ratings r db id title year gn Hr Hacc)
    as (db1 & log & -> & S1).
  split; [done|]. simpl. by apply entity_steps_tables in S1 as (_ & _ & _ & M).
Qed.

Lemma seed_rows_ml_ids enricher ratings rows : forall n db,
  ml_ids (seed_rows enricher ratings rows n db).1.1 =
  fold_left add_key (stored_ids enricher ratings rows) (ml_ids db).
Proof.
  induction rows as [|r rows IH]; intros n db; simpl; [done|].
  destruct (read_row r) as [e|[[[id title] year] gn]] eqn:Er.
  - by rewrite (seed_row_failed _ _ _ _ _ Er).
  - destruct (storable id year (get_rating ratings id).2
                (tmdb_id_of enricher title year)) eqn:Hacc.
    + pose proof (seed_row_ml_ids enricher ratings r db id title year gn Er Hacc)
        as H1.
      destruct (seed_row_ok enricher ratings r db _ _ _ _ Er Hacc) as [movie Hm].
      destruct (seed_row enricher ratings r db) as [[db1 log] res]. simpl in *.
      subst res. specialize (IH (S n) db1).
      destruct (seed_rows enricher ratings rows (S n) db1) as [[db2 log2] res2].
      simpl in *. by rewrite IH, H1.
    + assert (Hn : ~ accepted enricher ratings id title year)
        by (unfold accepted; by rewrite Hacc).
      destruct (seed_row_overflow_movies enricher ratings r db id title year gn
                  Er Hn) as [Hres Hm].
      destruct (seed_row enricher ratings r db) as [[db1 log] res]. simpl in *.
      subst res. simpl. unfold ml_ids. by rewrite Hm.
Qed.

Lemma fold_add_key_elem (ks : list Z) : forall ids ml,
  ml ∈ fold_left add_key ks ids <-> ml ∈ ids \/ ml ∈ ks.
Proof.
  induction ks as [|k ks IH]; intros ids ml; simpl.
  - split; [auto|]. intros [H|H]; [done|]. by apply elem_of_nil in H.
  - rewrite IH. unfold add_key. case_bool_decide as Hk.
    + rewrite elem_of_cons. split; [tauto|]. intros [H|[->|H]]; auto.
    + rewrite elem_of_app, list_elem_of_singleton, elem_of_cons. tauto.
Qed.

Lemma fold_add_key_NoDup (ks : list Z) : forall ids,
  NoDup ids -> NoDup (fold_left add_key ks ids).
Proof.
  induction ks as [|k ks IH]; intros ids H; simpl; [done|].
  apply IH. unfold add_key. case_bool_decide; [done|]. by apply NoDup_snoc.
Qed.

Lemma fold_add_key_fresh (ks : list Z) : forall ids,
  NoDup (ids ++ ks) -> fold_left add_key ks ids = ids ++ ks.
Proof.
  induction ks as [|k ks IH]; intros ids H; simpl.
  - by rewrite app_nil_r.
  - assert (Hk : k ∉ ids).
    { apply NoDup_app in H as (_ & H & _). intros Hin. apply (H k Hin).
      by apply elem_of_cons; left. }
    unfold add_key at 2. rewrite bool_decide_eq_false_2 by done.
    rewrite IH; rewrite <- app_assoc; done.
Qed.

Lemma stored_ids_all enricher ratings rows :
  Forall (processable enricher ratings) rows ->
  length (stored_ids enricher ratings rows) = length rows.
Proof.
  induction 1 as [|r rows (id & title & year & gn & Hr & Hacc) _ IH]; simpl;
    [done|].
  unfold accepted in Hacc. by rewrite Hr, Hacc; simpl; rewrite IH.
Qed.

Lemma stored_ids_stop enricher ratings pre : forall r post,
  ~ processable enricher ratings r ->
  length (stored_ids enricher ratings (pre ++ r :: post)) <= length pre.
Proof.
  induction pre as [|x pre IH]; intros r post Hr; simpl.
  - destruct (read_row r) as [e|[[[id title] year] gn]] eqn:Er; [done|].
    destruct (storable _ _ _ _) eqn:Hacc; [|done].
    exfalso. apply Hr. by exists id, title, year, gn.
  - destruct (read_row x) as [e|[[[id title] year] gn]]; simpl; [lia|].
    destruct (storable _ _ _ _); simpl; [|lia].
    specialize (IH r post Hr). lia.
Qed.

Lemma seed_movies_rows enricher ratings rows db :
  (seed_movies enricher (Some rows) ratings db).1.1 =
  (seed_rows enricher ratings rows 0 db).1.1.
Proof.
  unfold seed_movies.
  by destruct (seed_rows enricher ratings rows 0 db) as [[db1 log] [e|n]].
Qed.

(** X10. The movies table after a run: the [ml_id]s are those of the
    catalog before, followed by the movie ids of the rows stored, each
    where it first appears; a movie id that is already there adds no
    row. The run stores the rows up to the first one that it cannot
    read or that the database refuses (a movie id, rating count or TMDb
    id outside the 64-bit range), and no row after it. *)
Theorem run_movie_keys
        (enricher : option TMDbEnricher) (ratings : gmap Z (float * Z))
        (rows : list row) (db : Catalog) :
  let final := (seed_movies enricher (Some rows) ratings db).1.1 in
  let ids := stored_ids enricher ratings rows in
  ml_ids final = fold_left add_key ids (ml_ids db) /\
  (forall ml, ml ∈ ml_ids final <-> ml ∈ ml_ids db \/ ml ∈ ids) /\
  (NoDup (ml_ids db) -> NoDup (ml_ids final)) /\
  (NoDup (ml_ids db ++ ids) ->
   ml_ids final = ml_ids db ++ ids /\
   length (movies final) = length (movies db) + length ids) /\
  (Forall (processable enricher ratings) rows -> length ids = length rows) /\
  (forall pre r post,
     rows = pre ++ r :: post -> ~ processable enricher ratings r ->
     length ids <= length pre).
Proof.
  intros final ids. subst final ids.
  rewrite seed_movies_rows, seed_rows_ml_ids.
  split_and!.
  - done.
  - intros ml. apply fold_add_key_elem.
  - apply fold_add_key_NoDup.
  - intros H. pose proof (fold_add_key_fresh _ _ H) as E. split; [done|].
    pose proof (seed_rows_ml_ids enricher ratings rows 0 db) as E2.
    rewrite E in E2. apply (f_equal length) in E2.
    unfold ml_ids in E2. rewrite length_app, !length_map in E2. exact E2.
  - apply stored_ids_all.
  - intros pre r post -> Hr. by apply stored_ids_stop.
Qed.

(** *** One iteration *)

Lemma seed_row_stored enricher ratings r db id title year gn :
  read_row r = inr (id, title, year, gn) ->
  accepted enricher ratings id title year ->
  let s := seed_row enricher ratings r db in
  exists movie gens,
    s.2 = inr movie /\
    movie_by_ml_id s.1.1 id = Some movie /\
    movie ∈ movies s.1.1 /\
    Movie.ml_id movie = id /\ Movie.title movie = title /\
    Movie.release_year movie = year /\
    Movie.description movie = Some (description_of year) /\
    (Movie.rating movie, Movie.rating_count movie) = get_rating ratings id /\
    Movie.genres movie = links (map Genre.id gens) /\
    map Genre.name gens = gn /\
    Forall (fun g => g ∈ genres s.1.1) gens.
Proof.
  intros Hr Hacc.
  destruct (seed_row_steps enricher ratings r db id title year gn Hr Hacc)
    as (gens & dbe & log & tm & pu & d0 & a0 & db1 & d & acts &
        _ & _ & _ & S1 & Ng & Mg & _ & _ & E).
  simpl. rewrite E. simpl.
  set (u := create_or_update_movie_by_ml_id db1 id title year
          (Some (description_of year)) (get_rating ratings id).1
          (get_rating ratings id).2 pu tm (Some d) (Some acts) (Some gens)).
  exists u.2, gens.
  pose proof (upsert_returned db1 id title year (Some (description_of year))
                (get_rating ratings id).1 (get_rating ratings id).2 pu tm
                (Some d) (Some acts) (Some gens)) as Hu. simpl in Hu.
  fold u in Hu. destruct Hu as (Hin & Hml & Ht & Hy & _ & _ & _ & _ & Hg).
  destruct (upsert_lookup db1 id title year (Some (description_of year))
              (get_rating ratings id).1 (get_rating ratings id).2 pu tm
              (Some d) (Some acts) (Some gens)) as (i & Hi & _).
  fold u in Hi.
  destruct (upsert_entities db1 id title year (Some (description_of year))
              (get_rating ratings id).1 (get_rating ratings id).2 pu tm
              (Some d) (Some acts) (Some gens)) as (Eg & _).
  fold u in Eg.
  split_and!; try done.
  - unfold movie_by_ml_id. by rewrite Hi.
  - subst u. unfold create_or_update_movie_by_ml_id.
    destruct (first_where _ (movies db1)) as [[j old]|]; simpl; reflexivity.
  - subst u. unfold create_or_update_movie_by_ml_id.
    destruct (first_where _ (movies db1)) as [[j old]|]; simpl;
      by destruct (get_rating ratings id).
  - by apply Hg.
  - by rewrite Eg.
Qed.


(** *** Rows for other movies *)

Lemma seed_row_other enricher ratings r db id title year gn ml :
  read_row r = inr (id, title, year, gn) -> ml <> id ->
  movie_by_ml_id (seed_row enricher ratings r db).1.1 ml = movie_by_ml_id db ml.
Proof.
  intros Hr Hml.
  destruct (seed_row_cases enricher ratings r db id title year gn Hr)
    as (gens & dbe & log & tm & pu & d0 & a0 & db1 & d & acts &
        _ & _ & _ & S1 & _ & _ & _ & _ & _ & ->).
  apply entity_steps_tables in S1 as (_ & _ & _ & M).
  destruct (storable id year (get_rating ratings id).2 tm); simpl;
    unfold movie_by_ml_id.
  - rewrite upsert_other_lookup by done. by rewrite M.
  - by rewrite M.
Qed.

Lemma seed_rows_other enricher ratings rows ml : forall n db,
  ml ∉ read_ids rows ->
  movie_by_ml_id (seed_rows enricher ratings rows n db).1.1 ml
  = movie_by_ml_id db ml.
Proof.
  induction rows as [|r rows IH]; intros n db; simpl; [done|].
  destruct (read_row r) as [e|[[[id title] year] gn]] eqn:Er.
  - intros _. by rewrite (seed_row_failed _ _ _ _ _ Er).
  - intros Hml. apply not_elem_of_cons in Hml as [Hne Hml].
    pose proof (seed_row_other enricher ratings r db id title year gn ml Er Hne)
      as H1.
    destruct (seed_row enricher ratings r db) as [[db1 log] [e|movie]];
      simpl in *; [done|].
    specialize (IH (S n) db1 Hml).
    destruct (seed_rows enricher ratings rows (S n) db1) as [[db2 log2] res2].
    simpl in *. by rewrite IH.
Qed.

(** X12. The last row of a movie id wins. When the rows before [r]
    and [r] itself can be read and stored, and no row after [r] that the
    run reads has [r]'s movie id, the movie the catalog holds under that
    id after the run is the one the iteration on [r] returned: rows for
    other movies, and the entities they add, do not touch it. An earlier
    row with the same id is overwritten. *)
Theorem last_row_wins
        (enricher : option TMDbEnricher) (ratings : gmap Z (float * Z))
        (pre post : list row) (r : row) (db : Catalog)
        (id : Z) (title : str) (year : option Z) (gn : list str) :
  Forall (processable enricher ratings) pre ->
  read_row r = inr (id, title, year, gn) ->
  accepted enricher ratings id title year ->
  id ∉ read_ids post ->
  let before := (seed_movies enricher (Some pre) ratings db).1.1 in
  let final := (seed_movies enricher (Some (pre ++ r :: post)) ratings db).1.1 in
  exists movie,
    (seed_row enricher ratings r before).2 = inr movie /\
    movie_by_ml_id final id = Some movie /\
    Movie.title movie = title /\ Movie.release_year movie = year.
Proof.
  intros Hpre Hr Hacc Hpost before final. subst before final.
  rewrite !seed_movies_rows.
  pose proof (seed_rows_app enricher ratings pre (r :: post) 0 db Hpre) as Happ.
  simpl in Happ. rewrite Happ. clear Happ. simpl.
  set (db0 := (seed_rows enricher ratings pre 0 db).1.1).
  destruct (seed_row_stored enricher ratings r db0 id title year gn Hr Hacc)
    as (movie & gens & Hs & Hl & _ & _ & Ht & Hy & _).
  exists movie. split; [done|]. split; [|done].
  pose proof (seed_rows_other enricher ratings post id (S (length pre))
                (seed_row enricher ratings r db0).1.1 Hpost) as Ho.
  destruct (seed_row enricher ratings r db0) as [[db1 log] res]. simpl in *.
  subst res.
  destruct (seed_rows enricher ratings post (S (length pre)) db1)
    as [[db2 log2] res2]. simpl in *. by rewrite Ho.
Qed.

(** ** Actors and their movies *)

Lemma get_actor_movies_elem (db : Catalog) (actor_id : Z) (m : Movie.t) :
  m ∈ get_actor_movies db actor_id <->
  actor_id ∈ map Actor.id (actors db) /\
  m ∈ movies db /\ actor_id ∈ Movie.actors m.
Proof.
  unfold get_actor_movies.
  destruct (first_where _ (actors db)) as [[i a]|] eqn:E.
  - apply (first_where_key_Some Actor.id) in E as [Ha Hin].
    assert (Hid : actor_id ∈ map Actor.id (actors db)).
    { rewrite <- Ha. by apply elem_of_list_map_2. }
    unfold Actor_movies.
    rewrite list_elem_of_In, filter_In, <- list_elem_of_In, Ha.
    rewrite bool_decide_eq_true. tauto.
  - apply (first_where_key_None Actor.id) in E.
    split; [intros H; by apply elem_of_nil in H|tauto].
Qed.

(** X13. After an iteration on a row that can be read and stored, the
    stored movie is listed by [get_actor_movies] for exactly its own
    actors: it is in the list of every actor id it carries, and in the
    list of no other id. An id that no actor row carries gives the empty
    list. *)
Theorem seeded_movie_in_actor_movies
        (enricher : option TMDbEnricher) (ratings : gmap Z (float * Z))
        (r : row) (db : Catalog)
        (id : Z) (title : str) (year : option Z) (gn : list str) :
  read_row r = inr (id, title, year, gn) ->
  accepted enricher ratings id title year ->
  let s := seed_row enricher ratings r db in
  exists movie,
    s.2 = inr movie /\
    (forall actor_id,
       movie ∈ get_actor_movies s.1.1 actor_id <->
       actor_id ∈ Movie.actors movie) /\
    (forall actor_id,
       actor_id ∉ map Actor.id (actors s.1.1) ->
       get_actor_movies s.1.1 actor_id = []).
Proof.
  intros Hr Hacc.
  destruct (seed_row_steps enricher ratings r db id title year gn Hr Hacc)
    as (gens & dbe & log & tm & pu & d0 & a0 & db1 & d & acts &
        _ & _ & _ & S1 & _ & _ & _ & Ma & E).
  simpl. rewrite E. simpl.
  set (u := create_or_update_movie_by_ml_id db1 id title year
          (Some (description_of year)) (get_rating ratings id).1
          (get_rating ratings id).2 pu tm (Some d) (Some acts) (Some gens)).
  exists u.2. split; [done|].
  pose proof (upsert_returned db1 id title year (Some (description_of year))
                (get_rating ratings id).1 (get_rating ratings id).2 pu tm
                (Some d) (Some acts) (Some gens)) as Hu. simpl in Hu.
  fold u in Hu. destruct Hu as (Hin & _ & _ & _ & _ & _ & _ & Ha & _).
  destruct (upsert_entities db1 id title year (Some (description_of year))
              (get_rating ratings id).1 (get_rating ratings id).2 pu tm
              (Some d) (Some acts) (Some gens)) as (_ & _ & Ea).
  fold u in Ea.
  split.
  - intros aid. rewrite get_actor_movies_elem. split; [tauto|].
    intros Haid. split_and!; try done.
    rewrite (Ha acts eq_refl), elem_of_links in Haid. rewrite Ea.
    apply elem_of_list_map in Haid as (a & -> & Hain).
    apply elem_of_list_map_2. rewrite Forall_forall in Ma. by apply Ma.
  - intros aid H. unfold get_actor_movies.
    apply (first_where_key_None Actor.id) in H. by rewrite H.
Qed.

(** ** The genres endpoint after a run *)

Lemma genre_names_step (gn : list str) db db' :
  entity_step db db' -> gn ⊆ genre_names db -> gn ⊆ genre_names db'.
Proof.
  intros Hs H x Hx. apply entity_step_tables in Hs as ([k Hk] & _).
  unfold genre_names. rewrite Hk, map_app. apply elem_of_app. left.
  by apply H.
Qed.

(** X14. [GET /genres] after a run lists every genre named in a row the
    run reached: when the rows before [r] can be read and stored and [r]
    can be read, each genre name parsed from [r] is the name of a genre
    the endpoint returns, whatever comes after [r], and also when the
    database then refuses the movie of [r]. *)
Theorem genres_endpoint_lists_parsed
        (enricher : option TMDbEnricher) (ratings : gmap Z (float * Z))
        (pre post : list row) (r : row) (db : Catalog)
        (id : Z) (title : str) (year : option Z) (gn : list str) :
  Forall (processable enricher ratings) pre ->
  read_row r = inr (id, title, year, gn) ->
  let final := (seed_movies enricher (Some (pre ++ r :: post)) ratings db).1.1 in
  gn ⊆ map Genre.name (api.get_genres final).
Proof.
  intros Hpre Hr final. subst final. rewrite seed_movies_rows.
  pose proof (seed_rows_app enricher ratings pre (r :: post) 0 db Hpre) as Happ.
  simpl in Happ. rewrite Happ. clear Happ. simpl.
  set (db0 := (seed_rows enricher ratings pre 0 db).1.1).
  assert (H1 : gn ⊆ genre_names (seed_row enricher ratings r db0).1.1).
  { destruct (seed_row_cases enricher ratings r db0 id title year gn Hr)
      as (gens & dbe & log & tm & pu & d0 & a0 & db1 & d & acts &
          _ & _ & _ & _ & Hn & Hm & _ & _ & _ & ->).
    assert (H1 : gn ⊆ genre_names db1).
    { intros x Hx. rewrite <- Hn in Hx.
      apply elem_of_list_map in Hx as (g & -> & Hg).
      apply elem_of_list_map_2. rewrite Forall_forall in Hm. by apply Hm. }
    destruct (storable id year (get_rating ratings id).2 tm); simpl; [|done].
    destruct (upsert_entities db1 id title year (Some (description_of year))
                (get_rating ratings id).1 (get_rating ratings id).2 pu tm
                (Some d) (Some acts) (Some gens)) as (Eg & _).
    unfold genre_names. by rewrite Eg. }
  pose proof (seed_rows_inv (fun d => gn ⊆ genre_names d)
                (genre_names_step gn)) as Hinv.
  assert (Hup : forall db ml title year desc rt rc pu tm d acts gens,
    gn ⊆ genre_names db -> d ∈ directors db ->
    Forall (fun a => a ∈ actors db) acts ->
    Forall (fun g => g ∈ genres db) gens ->
    gn ⊆ genre_names (create_or_update_movie_by_ml_id db ml title year desc rt
                        rc pu tm (Some d) (Some acts) (Some gens)).1).
  { intros d0 ml t y de rt rc pu tm d acts gs H _ _ _.
    destruct (upsert_entities d0 ml t y de rt rc pu tm (Some d) (Some acts)
                (Some gs)) as (Eg & _).
    unfold genre_names. by rewrite Eg. }
  specialize (Hinv Hup enricher ratings post (S (length pre))
                (seed_row enricher ratings r db0).1.1 H1).
  destruct (seed_row enricher ratings r db0) as [[db1 log] [e|movie]];
    simpl in *; [done|].
  by destruct (seed_rows enricher ratings post (S (length pre)) db1)
    as [[db2 log2] res2].
Qed.

(** ** The enrichment when the service answers *)

Lemma names_prefix_kept {A} (name : A -> str) (l l' : list A) (names : list str) :
  l `prefix_of` l' -> names ⊆ map name l -> names ⊆ map name l'.
Proof.
  intros [k ->] H x Hx. rewrite map_app. apply elem_of_app. left. by apply H.
Qed.

Lemma enrich_found tm title year db m rest tid c names :
  get_search_movie tm title (year_param year)
    = Ok_json (Some (Some m :: rest)) ->
  sr_id m = Some tid ->
  get_credits tm tid = Ok_json c ->
  (forall d, first_director c = Some d -> is_Some (cm_name d)) ->
  map ca_name (top_cast c) = map Some names ->
  exists db' d acts,
    enrich_movie_with_tmdb tm title year db
      = (db', [], inr (Some tid, poster_of m, d, acts)) /\
    option_map Director.name d = first_director c ≫= cm_name /\
    map Actor.name acts = names.
Proof.
  intros Hs Hid Hc Hd Hn.
  unfold enrich_movie_with_tmdb, search_movie, get_movie_credits.
  rewrite Hs, Hid, Hc. simpl. fold (poster_of m).
  unfold first_director in *. unfold top_cast in Hn.
  destruct (List.filter is_director (default [] (cd_crew c))) as [|dc ds];
    simpl in *.
  - destruct (resolve_cast_steps (firstn 8 (default [] (cd_cast c))) db [])
      as (_ & _ & N1 & _).
    destruct (N1 names Hn) as (l & Hl & Hnl).
    destruct (resolve_cast db _ []) as [db2 res]. simpl in *. subst res.
    by exists db2, None, l.
  - destruct (Hd dc eq_refl) as [dn Hdn]. rewrite Hdn.
    pose proof (get_or_create_director_spec db dn None) as Hsp. simpl in Hsp.
    destruct (get_or_create_director db dn None) as [db1 dir]. simpl in *.
    destruct Hsp as (Hname & _).
    destruct (resolve_cast_steps (firstn 8 (default [] (cd_cast c))) db1 [])
      as (_ & _ & N1 & _).
    destruct (N1 names Hn) as (l & Hl & Hnl).
    destruct (resolve_cast db1 _ []) as [db2 res]. simpl in *. subst res.
    exists db2, (Some dir), l. simpl. by rewrite Hname.
Qed.

Lemma enrich_cast_failed tm title year db m rest tid c pre bad post names :
  get_search_movie tm title (year_param year)
    = Ok_json (Some (Some m :: rest)) ->
  sr_id m = Some tid ->
  get_credits tm tid = Ok_json c ->
  (forall d, first_director c = Some d -> is_Some (cm_name d)) ->
  top_cast c = pre ++ bad :: post ->
  map ca_name pre = map Some names ->
  ca_name bad = None ->
  exists db',
    enrich_movie_with_tmdb tm title year db = (db', [], inl KeyError) /\
    entity_steps db db' /\
    names ⊆ actor_names db' /\
    (forall dc dn, first_director c = Some dc -> cm_name dc = Some dn ->
                   dn ∈ director_names db').
Proof.
  intros Hs Hid Hc Hd Htop Hn Hbad.
  pose proof (enrich_steps tm title year db) as (Hsteps & _). revert Hsteps.
  unfold enrich_movie_with_tmdb, search_movie, get_movie_credits.
  rewrite Hs, Hid, Hc. simpl.
  unfold first_director in *. unfold top_cast in Htop.
  destruct (List.filter is_director (default [] (cd_crew c))) as [|dc ds];
    simpl in *.
  - destruct (resolve_cast_steps (firstn 8 (default [] (cd_cast c))) db [])
      as (_ & _ & _ & B1).
    destruct (B1 pre bad post names Htop Hn Hbad) as (Hr & Hsub).
    destruct (resolve_cast db _ []) as [db2 res]. simpl in *. subst res.
    intros Hsteps. exists db2. split_and!; try done.
  - destruct (Hd dc eq_refl) as [dn Hdn]. rewrite Hdn.
    pose proof (get_or_create_director_spec db dn None) as Hsp. simpl in Hsp.
    destruct (get_or_create_director db dn None) as [db1 dir]. simpl in *.
    destruct Hsp as (Hname & Hin & _).
    destruct (resolve_cast_steps (firstn 8 (default [] (cd_cast c))) db1 [])
      as (S1 & _ & _ & B1).
    destruct (B1 pre bad post names Htop Hn Hbad) as (Hr & Hsub).
    destruct (resolve_cast db1 _ []) as [db2 res]. simpl in *. subst res.
    intros Hsteps. exists db2. split_and!; try done.
    intros dc' dn' [= <-] E. rewrite Hdn in E. injection E as <-.
    apply entity_steps_tables in S1 as (_ & Hp & _).
    unfold director_names. rewrite <- Hname.
    apply elem_of_list_map_2. by eapply prefix_elem_of.
Qed.

(** The movie an iteration stores, in terms of what the enrichment
    block and the placeholder block gave. *)
Lemma seed_row_credits enricher ratings r db id title year gn :
  read_row r = inr (id, title, year, gn) ->
  accepted enricher ratings id title year ->
  let s := seed_row enricher ratings r db in
  let e := try_enrich enricher title year (resolve_genres db gn).1 in
  let p := or_placeholders id e.1.1 e.2.1.2 e.2.2 in
  exists movie,
    s.2 = inr movie /\ s.1.2 = e.1.2 /\
    Movie.tmdb_id movie = e.2.1.1.1 /\ Movie.poster_url movie = e.2.1.1.2 /\
    Movie.director_id movie = Some (Director.id p.2.1) /\
    Movie.actors movie = links (map Actor.id p.2.2) /\
    p.2.1 ∈ directors s.1.1 /\
    Forall (fun a => a ∈ actors s.1.1) p.2.2 /\
    actors p.1 = actors s.1.1 /\ directors p.1 = directors s.1.1.
Proof.
  intros Hr Hacc.
  destruct (seed_row_steps enricher ratings r db id title year gn Hr Hacc)
    as (gens & dbe & log & tm & pu & d0 & a0 & db1 & d & acts &
        _ & Ee & Eo & S1 & _ & _ & Md & Ma & E).
  simpl. rewrite E, Ee. simpl. rewrite Eo. simpl.
  set (u := create_or_update_movie_by_ml_id db1 id title year
          (Some (description_of year)) (get_rating ratings id).1
          (get_rating ratings id).2 pu tm (Some d) (Some acts) (Some gens)).
  exists u.2.
  pose proof (upsert_returned db1 id title year (Some (description_of year))
                (get_rating ratings id).1 (get_rating ratings id).2 pu tm
                (Some d) (Some acts) (Some gens)) as Hu. simpl in Hu.
  fold u in Hu. destruct Hu as (_ & _ & _ & _ & Htm & Hpu & Hd & Ha & _).
  destruct (upsert_entities db1 id title year (Some (description_of year))
              (get_rating ratings id).1 (get_rating ratings id).2 pu tm
              (Some d) (Some acts) (Some gens)) as (_ & Ed & Ea).
  fold u in Ed, Ea.
  split_and!; try done.
  - by apply Hd.
  - by apply Ha.
  - by rewrite Ed.
  - by rewrite Ea.
Qed.

(** X15. The enrichment result is what gets stored. When the search
    answers with a movie and the credits request succeeds, with a named
    director in the crew and names on the cast entries looked at, and
    the database accepts the integers of the row, the iteration logs
    nothing and the stored movie carries the TMDb id of the first search
    result, the poster URL built from its path, the first crew member
    whose job is Director as director, and one link to each of the
    first eight cast members and to no other actor (none when the cast
    is empty: the placeholders are not used). *)
Theorem enrichment_result_stored
        (tm : TMDbEnricher) (ratings : gmap Z (float * Z))
        (r : row) (db : Catalog)
        (id : Z) (title : str) (year : option Z) (gn : list str)
        (m : search_result) (rest : list (option search_result)) (tid : Z)
        (c : credits_data) (dc : crew_member) (dn : str) (names : list str) :
  read_row r = inr (id, title, year, gn) ->
  get_search_movie tm title (year_param year)
    = Ok_json (Some (Some m :: rest)) ->
  sr_id m = Some tid ->
  get_credits tm tid = Ok_json c ->
  first_director c = Some dc -> cm_name dc = Some dn ->
  map ca_name (top_cast c) = map Some names ->
  accepted (Some tm) ratings id title year ->
  let s := seed_row (Some tm) ratings r db in
  exists movie d acts,
    s.2 = inr movie /\ s.1.2 = [] /\
    Movie.tmdb_id movie = Some tid /\
    Movie.poster_url movie = poster_of m /\
    Movie.director_id movie = Some (Director.id d) /\
    d ∈ directors s.1.1 /\ Director.name d = dn /\
    NoDup (Movie.actors movie) /\
    (forall a, a ∈ Movie.actors movie <-> a ∈ map Actor.id acts) /\
    Forall (fun a => a ∈ actors s.1.1) acts /\
    map Actor.name acts = names /\
    length acts <= 8.
Proof.
  intros Hr Hs Hid Hc Hfd Hdn Hn Hacc.
  destruct (seed_row_credits (Some tm) ratings r db id title year gn Hr Hacc)
    as (movie & Hm & Hlog & Htm & Hpu & Hd & Ha & Hdin & Hain & _).
  destruct (enrich_found tm title year (resolve_genres db gn).1 m rest tid c
              names Hs Hid Hc) as (db' & d & acts & He & Hdname & Hanames);
    [|done|].
  { intros d0 Hd0. rewrite Hfd in Hd0. injection Hd0 as <-. rewrite Hdn.
    by eexists. }
  rewrite Hfd in Hdname. simpl in Hdname. rewrite Hdn in Hdname.
  destruct d as [d|]; [|discriminate]. injection Hdname as Hdname.
  revert Hlog Htm Hpu Hd Ha Hdin Hain.
  unfold try_enrich. rewrite He. simpl. intros Hlog Htm Hpu Hd Ha Hdin Hain.
  exists movie, d, acts. split_and!; try done.
  { rewrite Ha. apply NoDup_links. }
  { intros a. rewrite Ha. apply elem_of_links. }
  rewrite <- (length_map Actor.name), Hanames.
  rewrite <- (length_map Some names), <- Hn, length_map.
  unfold top_cast. rewrite length_take. lia.
Qed.

(** X16. Credits without a director. When the search and the credits
    request succeed but no crew member has the job Director, and the
    database accepts the integers of the row, the stored movie keeps the
    TMDb id and poster and gets the placeholder director of its movie
    id; it is linked to the cast members of the credits when there are
    any, and to the five placeholder actors only when the cast is
    empty. *)
Theorem enrichment_without_director
        (tm : TMDbEnricher) (ratings : gmap Z (float * Z))
        (r : row) (db : Catalog)
        (id : Z) (title : str) (year : option Z) (gn : list str)
        (m : search_result) (rest : list (option search_result)) (tid : Z)
        (c : credits_data) (names : list str) :
  read_row r = inr (id, title, year, gn) ->
  get_search_movie tm title (year_param year)
    = Ok_json (Some (Some m :: rest)) ->
  sr_id m = Some tid ->
  get_credits tm tid = Ok_json c ->
  first_director c = None ->
  map ca_name (top_cast c) = map Some names ->
  accepted (Some tm) ratings id title year ->
  let s := seed_row (Some tm) ratings r db in
  exists movie d acts,
    s.2 = inr movie /\
    Movie.tmdb_id movie = Some tid /\
    Movie.poster_url movie = poster_of m /\
    Movie.director_id movie = Some (Director.id d) /\
    Director.name d = deterministic_placeholder_director id /\
    NoDup (Movie.actors movie) /\
    (forall a, a ∈ Movie.actors movie <-> a ∈ map Actor.id acts) /\
    Forall (fun a => a ∈ actors s.1.1) acts /\
    map Actor.name acts =
      match names with
      | [] => deterministic_placeholder_actors id 5
      | _ => names
      end.
Proof.
  intros Hr Hs Hid Hc Hfd Hn Hacc.
  destruct (seed_row_credits (Some tm) ratings r db id title year gn Hr Hacc)
    as (movie & Hm & Hlog & Htm & Hpu & Hd & Ha & Hdin & Hain & _).
  destruct (enrich_found tm title year (resolve_genres db gn).1 m rest tid c
              names Hs Hid Hc) as (db' & d & acts & He & Hdname & Hanames);
    [|done|].
  { intros d0 Hd0. rewrite Hfd in Hd0. discriminate. }
  rewrite Hfd in Hdname. simpl in Hdname.
  destruct d as [d|]; [discriminate|].
  revert Hlog Htm Hpu Hd Ha Hdin Hain.
  unfold try_enrich. rewrite He. simpl.
  pose proof (create_placeholder_data_spec id db') as Hp. simpl in Hp.
  destruct (create_placeholder_data id db') as [db1 [pd pacts]]. simpl in *.
  destruct Hp as (Hpn & Hpa & _).
  intros Hlog Htm Hpu Hd Ha Hdin Hain.
  exists movie, pd.
  assert (HN : NoDup (Movie.actors movie)) by (rewrite Ha; apply NoDup_links).
  destruct acts as [|a acts]; cbn [fst snd] in *.
  - exists pacts. subst names.
    split_and!; try done. intros x. rewrite Ha. apply elem_of_links.
  - exists (a :: acts). subst names.
    split_and!; try done. intros x. rewrite Ha. apply elem_of_links.
Qed.

(** X17. An enrichment that fails half way leaves what it created.
    When a cast entry among those looked at has no name, the enrichment
    raises KeyError; the iteration logs the warning and, the database
    accepting the integers of the row, stores the movie with no TMDb id,
    no poster, the placeholder director and links to the five
    placeholder actors and to no other actor. The actors resolved before
    the entry without a name, and the director of the credits, stay in
    the catalog although the movie does not reference them. *)
Theorem failed_enrichment_leaves_entities
        (tm : TMDbEnricher) (ratings : gmap Z (float * Z))
        (r : row) (db : Catalog)
        (id : Z) (title : str) (year : option Z) (gn : list str)
        (m : search_result) (rest : list (option search_result)) (tid : Z)
        (c : credits_data) (pre post : list cast_member) (bad : cast_member)
        (names : list str) :
  read_row r = inr (id, title, year, gn) ->
  get_search_movie tm title (year_param year)
    = Ok_json (Some (Some m :: rest)) ->
  sr_id m = Some tid ->
  get_credits tm tid = Ok_json c ->
  (forall d, first_director c = Some d -> is_Some (cm_name d)) ->
  top_cast c = pre ++ bad :: post ->
  map ca_name pre = map Some names ->
  ca_name bad = None ->
  accepted (Some tm) ratings id title year ->
  let s := seed_row (Some tm) ratings r db in
  exists movie d acts,
    s.2 = inr movie /\
    s.1.2 = [Warn_enrichment_failed title KeyError] /\
    Movie.tmdb_id movie = None /\ Movie.poster_url movie = None /\
    Movie.director_id movie = Some (Director.id d) /\
    Director.name d = deterministic_placeholder_director id /\
    NoDup (Movie.actors movie) /\
    (forall a, a ∈ Movie.actors movie <-> a ∈ map Actor.id acts) /\
    Forall (fun a => a ∈ actors s.1.1) acts /\
    map Actor.name acts = deterministic_placeholder_actors id 5 /\
    names ⊆ actor_names s.1.1 /\
    (forall dc dn, first_director c = Some dc -> cm_name dc = Some dn ->
                   dn ∈ director_names s.1.1).
Proof.
  intros Hr Hs Hid Hc Hfd Htop Hn Hbad Hacc.
  destruct (seed_row_credits (Some tm) ratings r db id title year gn Hr Hacc)
    as (movie & Hm & Hlog & Htm & Hpu & Hd & Ha & Hdin & Hain & Eact & Edir).
  destruct (enrich_cast_failed tm title year (resolve_genres db gn).1 m rest tid
              c pre bad post names Hs Hid Hc Hfd Htop Hn Hbad)
    as (db' & He & _ & Hsub & Hdir).
  revert Hlog Htm Hpu Hd Ha Hdin Hain Eact Edir.
  unfold try_enrich. rewrite He. simpl.
  pose proof (create_placeholder_data_spec id db') as Hp. simpl in Hp.
  pose proof (create_placeholder_data_steps id db') as Hst.
  destruct (create_placeholder_data id db') as [db1 [pd pacts]]. simpl in *.
  destruct Hp as (Hpn & Hpa & _).
  apply entity_steps_tables in Hst as (_ & Pd & Pa & _).
  intros Hlog Htm Hpu Hd Ha Hdin Hain Eact Edir.
  exists movie, pd, pacts. split_and!; try done.
  - rewrite Ha. apply NoDup_links.
  - intros x. rewrite Ha. apply elem_of_links.
  - unfold actor_names. rewrite <- Eact.
    by apply (names_prefix_kept Actor.name (actors db')).
  - intros dc dn H1 H2. specialize (Hdir dc dn H1 H2).
    unfold director_names in *. rewrite <- Edir.
    apply elem_of_list_map in Hdir as (x & -> & Hx).
    apply elem_of_list_map_2. by eapply prefix_elem_of.
Qed.

(** ** Placeholder names *)

Lemma format_03d_table :
  forallb (fun k =>
             let s := format_03d (Z.of_nat k) in
             Nat.eqb (length s) 3 && forallb is_digit s
             && Z.eqb (decimal s) (Z.of_nat k))
          (seq 0 1000) = true.
Proof. vm_compute. reflexivity. Qed.

(** Below 1000 the format gives exactly three digits, which read back
    as the number. *)
Lemma format_03d_spec (h : Z) :
  (0 <= h < 1000)%Z ->
  length (format_03d h) = 3 /\ forallb is_digit (format_03d h) = true /\
  decimal (format_03d h) = h.
Proof.
  intros Hh. pose proof format_03d_table as T.
  rewrite forallb_forall in T. specialize (T (Z.to_nat h)).
  rewrite Z2Nat.id in T by lia. cbv zeta in T.
  assert (Hin : In (Z.to_nat h) (seq 0 1000)) by (apply in_seq; lia).
  apply T in Hin. apply andb_prop in Hin as [Hin H3].
  apply andb_prop in Hin as [H1 H2].
  apply Nat.eqb_eq in H1. apply Z.eqb_eq in H3. done.
Qed.

Lemma format_03d_inj (h1 h2 : Z) :
  (0 <= h1 < 1000)%Z -> (0 <= h2 < 1000)%Z ->
  format_03d h1 = format_03d h2 -> h1 = h2.
Proof.
  intros H1 H2 E.
  destruct (format_03d_spec h1 H1) as (_ & _ & <-).
  destruct (format_03d_spec h2 H2) as (_ & _ & <-). by rewrite E.
Qed.

Lemma mod_1000_range (x : Z) : (0 <= x mod 1000 < 1000)%Z.
Proof. apply Z.mod_pos_bound. lia. Qed.

(** X18. The shape of the placeholder names. For every movie id, also
    a negative one, the placeholder director is "Director_" followed by
    exactly three decimal digits, and the placeholder actors are [top_n]
    names, each "Actor_" followed by exactly three decimal digits. *)
Theorem placeholder_name_format (movie_ml_id : Z) (top_n : nat) :
  (exists ds, deterministic_placeholder_director movie_ml_id
              = lit "Director_" ++ ds /\
              length ds = 3 /\ forallb is_digit ds = true) /\
  length (deterministic_placeholder_actors movie_ml_id top_n) = top_n /\
  Forall (fun name => exists ds, name = lit "Actor_" ++ ds /\
                                 length ds = 3 /\ forallb is_digit ds = true)
         (deterministic_placeholder_actors movie_ml_id top_n).
Proof.
  split_and!.
  - unfold deterministic_placeholder_director. eexists. split; [reflexivity|].
    destruct (format_03d_spec _ (mod_1000_range (movie_ml_id * 17 + 42)))
      as (H1 & H2 & _). done.
  - unfold deterministic_placeholder_actors. by rewrite length_map, length_seq.
  - unfold deterministic_placeholder_actors. apply Forall_forall.
    intros name Hn. apply elem_of_list_map in Hn as (i & -> & _).
    eexists. split; [reflexivity|].
    destruct (format_03d_spec _
                (mod_1000_range (movie_ml_id * 23 + Z.of_nat i * 13)))
      as (H1 & H2 & _). done.
Qed.

Lemma coprime_1000 (a k : Z) :
  (Z.gcd 1000 a = 1)%Z -> ((a * k) mod 1000 = 0)%Z -> (k mod 1000 = 0)%Z.
Proof.
  intros Hg H. apply Z.mod_divide in H; [|lia].
  apply Z.mod_divide; [lia|].
  by apply (Z.gauss 1000 a k).
Qed.

Lemma mod_eq_diff (x y : Z) :
  (x mod 1000 = y mod 1000)%Z -> ((x - y) mod 1000 = 0)%Z.
Proof.
  intros E. rewrite Zminus_mod, E, Z.sub_diag. reflexivity.
Qed.

Lemma actor_hash_inj (base : Z) (i j : nat) :
  i < 1000 -> j < 1000 ->
  ((base + Z.of_nat i * 13) mod 1000 = (base + Z.of_nat j * 13) mod 1000)%Z ->
  i = j.
Proof.
  intros Hi Hj E. apply mod_eq_diff in E.
  replace (base + Z.of_nat i * 13 - (base + Z.of_nat j * 13))%Z
    with (13 * (Z.of_nat i - Z.of_nat j))%Z in E by lia.
  apply coprime_1000 in E; [|reflexivity].
  apply Z.mod_divide in E; [|lia]. destruct E as [q Hq].
  assert (q = 0)%Z by lia. lia.
Qed.

Lemma placeholder_actors_NoDup (movie_ml_id : Z) (top_n : nat) :
  top_n <= 1000 ->
  NoDup (deterministic_placeholder_actors movie_ml_id top_n).
Proof.
  intros Hn. unfold deterministic_placeholder_actors.
  apply (NoDup_fmap_2_strong
           (fun i : nat =>
              lit "Actor_" ++
              format_03d ((movie_ml_id * 23 + Z.of_nat i * 13) mod 1000))).
  - intros i j Hi Hj E.
    apply elem_of_seq in Hi. apply elem_of_seq in Hj.
    apply app_inv_head in E.
    apply format_03d_inj in E; try apply mod_1000_range.
    apply (actor_hash_inj (movie_ml_id * 23)); [lia|lia|exact E].
  - apply NoDup_seq.
Qed.

(** X19. The placeholder actors of a movie are pairwise distinct: for
    every movie id the [top_n] names differ from one another, as long as
    [top_n] is at most 1000 (the seeder asks for five). No movie gets
    the same placeholder actor twice. *)
Theorem placeholder_actors_distinct (movie_ml_id : Z) (top_n : nat) :
  top_n <= 1000 ->
  NoDup (deterministic_placeholder_actors movie_ml_id top_n) /\
  forall i j a,
    deterministic_placeholder_actors movie_ml_id top_n !! i = Some a ->
    deterministic_placeholder_actors movie_ml_id top_n !! j = Some a ->
    i = j.
Proof.
  intros Hn. pose proof (placeholder_actors_NoDup movie_ml_id top_n Hn) as H.
  split; [exact H|]. intros i j a. by apply NoDup_lookup.
Qed.

(** *** Movie ids that share their placeholders *)

Lemma placeholder_director_period (id k : Z) :
  deterministic_placeholder_director (id + 1000 * k)
  = deterministic_placeholder_director id.
Proof.
  unfold deterministic_placeholder_director. do 2 f_equal.
  replace ((id + 1000 * k) * 17 + 42)%Z with (id * 17 + 42 + (17 * k) * 1000)%Z
    by lia.
  apply Z_mod_plus_full.
Qed.

Lemma placeholder_actors_period (id k : Z) (top_n : nat) :
  deterministic_placeholder_actors (id + 1000 * k) top_n
  = deterministic_placeholder_actors id top_n.
Proof.
  unfold deterministic_placeholder_actors. apply map_ext. intros i.
  do 2 f_equal.
  replace ((id + 1000 * k) * 23 + Z.of_nat i * 13)%Z
    with (id * 23 + Z.of_nat i * 13 + (23 * k) * 1000)%Z by lia.
  apply Z_mod_plus_full.
Qed.

(** An entity that a get-or-create finds is found again in any catalog
    that extends the table. *)
Lemma get_or_create_director_found db n bio i d :
  first_where (fun x => bool_decide (Director.name x = n)) (directors db)
    = Some (i, d) ->
  get_or_create_director db n bio = (db, d).
Proof. intros E. unfold get_or_create_director. by rewrite E. Qed.

Lemma get_or_create_actor_found db n bio i a :
  first_where (fun x => bool_decide (Actor.name x = n)) (actors db)
    = Some (i, a) ->
  get_or_create_actor db n bio = (db, a).
Proof. intros E. unfold get_or_create_actor. by rewrite E. Qed.

Lemma get_or_create_director_lookup db n bio :
  exists i,
    first_where (fun x => bool_decide (Director.name x = n))
      (directors (get_or_create_director db n bio).1)
    = Some (i, (get_or_create_director db n bio).2).
Proof.
  unfold get_or_create_director.
  destruct (first_where _ (directors db)) as [[i d]|] eqn:E; simpl.
  - by exists i.
  - exists (length (directors db)). apply (first_where_snoc_new _ _ _ E).
    by apply bool_decide_eq_true_2.
Qed.

Lemma get_or_create_actor_lookup db n bio :
  exists i,
    first_where (fun x => bool_decide (Actor.name x = n))
      (actors (get_or_create_actor db n bio).1)
    = Some (i, (get_or_create_actor db n bio).2).
Proof.
  unfold get_or_create_actor.
  destruct (first_where _ (actors db)) as [[i d]|] eqn:E; simpl.
  - by exists i.
  - exists (length (actors db)). apply (first_where_snoc_new _ _ _ E).
    by apply bool_decide_eq_true_2.
Qed.

(** Resolving the same actor names again, in a catalog that extends
    the actors table of the first resolution, gives the same actors and
    changes nothing. *)
Lemma resolve_actors_replay bio bio' names : forall db acc dbx accx,
  let r := resolve_each (fun db n => get_or_create_actor db n bio) db names acc in
  actors r.1 `prefix_of` actors dbx ->
  exists new,
    r.2 = acc ++ new /\
    resolve_each (fun db n => get_or_create_actor db n bio') dbx names accx
    = (dbx, accx ++ new).
Proof.
  induction names as [|n names IH]; intros db acc dbx accx; simpl.
  - intros _. exists []. by rewrite !app_nil_r.
  - destruct (get_or_create_actor_lookup db n bio) as [i Hi].
    destruct (get_or_create_actor db n bio) as [db1 a]. simpl in Hi.
    intros Hp.
    pose proof (resolve_actors_steps bio db1 names) as _.
    assert (Hp1 : actors db1 `prefix_of` actors dbx).
    { etrans; [|exact Hp].
      destruct (resolve_each_steps (fun db n => get_or_create_actor db n bio)
                  actors Actor.name) with
        (names := names) (db := db1) (acc := acc ++ [a]) as (S1 & _).
      - intros. constructor.
      - intros d m. apply (get_or_create_actor_spec d m bio).
      - intros d m. apply (get_or_create_actor_spec d m bio).
      - intros d d' H. by apply entity_steps_tables in H as (? & ? & ? & _).
      - by apply entity_steps_tables in S1 as (_ & _ & ? & _). }
    rewrite (get_or_create_actor_found dbx n bio' i a
               (first_where_prefix _ _ _ _ _ Hp1 Hi)).
    destruct (IH db1 (acc ++ [a]) dbx (accx ++ [a]) Hp) as (new & E1 & E2).
    exists (a :: new). rewrite E1, E2, <- !app_assoc. done.
Qed.

Lemma create_placeholder_data_unfold id db :
  create_placeholder_data id db =
  let d := get_or_create_director db (deterministic_placeholder_director id)
             (Some (lit "Placeholder director")) in
  let a := resolve_each (fun db actor_name =>
                           get_or_create_actor db actor_name
                             (Some (lit "Placeholder actor")))
             d.1 (deterministic_placeholder_actors id 5) [] in
  (a.1, (d.2, a.2)).
Proof.
  unfold create_placeholder_data.
  destruct (get_or_create_director db _ _) as [db1 d]. cbn [fst snd].
  by destruct (resolve_each _ db1 _ []) as [db2 acts].
Qed.

Lemma create_placeholder_data_again id db :
  create_placeholder_data id (create_placeholder_data id db).1
  = create_placeholder_data id db.
Proof.
  rewrite !create_placeholder_data_unfold. cbv zeta. cbn [fst snd].
  generalize (deterministic_placeholder_actors id 5) as names.
  generalize (deterministic_placeholder_director id) as dn.
  intros dn names.
  destruct (get_or_create_director_lookup db dn
              (Some (lit "Placeholder director"))) as [i Hi].
  set (D := get_or_create_director db dn (Some (lit "Placeholder director")))
    in *.
  pose proof (resolve_actors_replay (Some (lit "Placeholder actor"))
                (Some (lit "Placeholder actor")) names D.1 []) as Hrep.
  pose proof (resolve_actors_spec (Some (lit "Placeholder actor")) names D.1 [])
    as Hsp.
  cbv zeta in Hrep, Hsp.
  set (A := resolve_each
              (fun db n => get_or_create_actor db n (Some (lit "Placeholder actor")))
              D.1 names []) in *.
  destruct Hsp as (_ & _ & Ed & _).
  destruct (Hrep A.1 [] (reflexivity _)) as (new & E1 & E2).
  rewrite <- Ed in Hi.
  rewrite (get_or_create_director_found A.1 dn _ i D.2 Hi). cbn [fst snd].
  rewrite E2. cbn [fst snd]. by rewrite E1.
Qed.

(** X20. Movie ids that differ by a multiple of 1000 share their
    placeholders: they get the same placeholder director name and the
    same placeholder actor names, so seeding the second one after the
    first creates no entity and returns the director and actors of the
    first. Two placeholder directors have the same name exactly when
    their movie ids are congruent modulo 1000. *)
Theorem placeholder_collisions (id k : Z) (top_n : nat) (db : Catalog) :
  deterministic_placeholder_director (id + 1000 * k)
    = deterministic_placeholder_director id /\
  deterministic_placeholder_actors (id + 1000 * k) top_n
    = deterministic_placeholder_actors id top_n /\
  create_placeholder_data (id + 1000 * k) (create_placeholder_data id db).1
    = create_placeholder_data id db /\
  (forall id', deterministic_placeholder_director id
               = deterministic_placeholder_director id' <->
               ((id - id') mod 1000 = 0)%Z).
Proof.
  split_and!.
  - apply placeholder_director_period.
  - apply placeholder_actors_period.
  - unfold create_placeholder_data at 1.
    rewrite placeholder_director_period, placeholder_actors_period.
    apply create_placeholder_data_again.
  - intros id'. unfold deterministic_placeholder_director. split.
    + intros E. apply app_inv_head in E.
      apply format_03d_inj in E; try apply mod_1000_range.
      apply mod_eq_diff in E.
      replace (id * 17 + 42 - (id' * 17 + 42))%Z with (17 * (id - id'))%Z in E
        by lia.
      by apply coprime_1000 in E.
    + intros E. do 2 f_equal.
      apply Z.mod_divide in E; [|lia]. destruct E as [q Hq].
      replace (id * 17 + 42)%Z with (id' * 17 + 42 + (17 * q) * 1000)%Z by lia.
      apply Z_mod_plus_full.
Qed.

(** ** Rating aggregation: nothing is lost *)

Lemma foldr_add_perm {A} (g : A -> Z) (l l' : list A) :
  l ≡ₚ l' ->
  foldr (fun x acc => (g x + acc)%Z) 0%Z l
  = foldr (fun x acc => (g x + acc)%Z) 0%Z l'.
Proof. induction 1; simpl; lia. Qed.

Lemma events_total (events : list (Z * float)) : forall d : gmap Z (list float),
  foldr (fun kv acc => (Z.of_nat (length kv.2) + acc)%Z) 0%Z
        (map_to_list (fold_left append_rating events d))
  = (foldr (fun kv acc => (Z.of_nat (length kv.2) + acc)%Z) 0%Z (map_to_list d)
     + Z.of_nat (length events))%Z.
Proof.
  induction events as [|[k v] events IH]; intros d; cbn [fold_left length];
    [lia|].
  rewrite IH. unfold append_rating. cbn [fst snd].
  destruct (d !! k) as [l|] eqn:E; simpl.
  - rewrite <- insert_delete_eq.
    rewrite (foldr_add_perm _ _ _
               (map_to_list_insert (delete k d) k (l ++ [v])
                  (lookup_delete_eq d k))).
    rewrite <- (foldr_add_perm _ _ _ (map_to_list_delete d k l E)).
    simpl. rewrite length_app. simpl. lia.
  - rewrite (foldr_add_perm _ _ _ (map_to_list_insert d k [v] E)). simpl. lia.
Qed.

Lemma ratings_of_elem (events : list (Z * float)) id v :
  v ∈ ratings_of id events <-> (id, v) ∈ events.
Proof.
  unfold ratings_of. rewrite elem_of_list_map. split.
  - intros ([k w] & -> & H). apply list_elem_of_In, filter_In in H as [H Hk].
    apply bool_decide_eq_true_1 in Hk. simpl in *. subst k.
    by apply list_elem_of_In.
  - intros H. exists (id, v). split; [done|].
    apply list_elem_of_In, filter_In. split; [by apply list_elem_of_In|].
    by apply bool_decide_eq_true_2.
Qed.

(** X21. The aggregation loses no rating and invents none: the counts
    of all movies add up to the number of rating events of the file, a
    movie has an entry only when at least one event names it, and its
    count is the number of those events. Without a ratings file there is
    no entry. *)
Theorem ratings_counts_add_up (events : list (Z * float)) :
  total_count (calculate_ratings (Some events)).1 = Z.of_nat (length events) /\
  (forall id avg n,
     (calculate_ratings (Some events)).1 !! id = Some (avg, n) ->
     (1 <= n)%Z /\ n = Z.of_nat (length (ratings_of id events)) /\
     exists v, (id, v) ∈ events) /\
  (forall id, (calculate_ratings (Some events)).1 !! id = None <->
              forall v, (id, v) ∉ events) /\
  total_count (calculate_ratings None).1 = 0%Z.
Proof.
  split_and!.
  - unfold total_count, calculate_ratings. cbn [fst].
    rewrite map_to_list_fmap.
    pose proof (events_total events ∅) as H.
    rewrite map_to_list_empty in H. cbn [foldr] in H. rewrite Z.add_0_l in H.
    rewrite <- H.
    generalize (map_to_list (fold_left append_rating events ∅)).
    intros l. induction l as [|[k x] l IH]; [done|].
    rewrite fmap_cons. cbn [foldr]. rewrite IH. reflexivity.
  - intros id avg n. unfold calculate_ratings. cbn [fst].
    rewrite lookup_fmap, append_rating_lookup, lookup_empty.
    destruct (ratings_of id events) as [|v vs] eqn:E; [discriminate|].
    simpl. intros [= <- <-]. split_and!; [lia|done|].
    exists v. apply ratings_of_elem. rewrite E. by apply elem_of_cons; left.
  - intros id. unfold calculate_ratings. cbn [fst].
    rewrite lookup_fmap, append_rating_lookup, lookup_empty.
    destruct (ratings_of id events) as [|v vs] eqn:E; simpl.
    + split; [|done]. intros _ w Hw. apply ratings_of_elem in Hw.
      rewrite E in Hw. by apply elem_of_nil in Hw.
    + split; [discriminate|]. intros H. exfalso. apply (H v).
      apply ratings_of_elem. rewrite E. by apply elem_of_cons; left.
  - reflexivity.
Qed.

(** ** The title parser: what it returns *)

Lemma extract_year_cases (title : str) :
  (exists x ws ds,
     year_form (strip title) x ws ds /\
     extract_year_from_title title = inr (x, Some (decimal ds)) /\
     strip x = x) \/
  (search title_pattern (strip title) = None /\
   extract_year_from_title title = inr (strip title, None)).
Proof.
  destruct (search title_pattern (strip title)) as [mo|] eqn:E.
  - left. destruct (strip_spec title) as [Hhead Hlast].
    destruct (search_sound _ mo Hhead Hlast E) as (x & ws & ds & Hform).
    exists x, ws, ds. split; [exact Hform|].
    destruct (search_year_form _ _ _ _ Hform) as (mo' & Hs & Hg1 & Hg2).
    unfold extract_year_from_title. rewrite Hs, Hg1, Hg2.
    cbn [strip_opt int_opt bind].
    destruct Hform as (Ht & Hx & _ & Hlast' & _ & Hlen & Hd).
    assert (Hsx : strip x = x).
    { apply strip_fixed; [|exact Hlast'].
      rewrite Ht in Hhead. destruct x; [contradiction|exact Hhead]. }
    rewrite Hsx, int_decimal; [done| |exact Hd|].
    + intros ->. discriminate.
    + rewrite Hlen. unfold int_max_str_digits. lia.
  - right. split; [done|]. unfold extract_year_from_title. by rewrite E.
Qed.

Lemma digit_val_range c : is_digit c = true -> (0 <= digit_val c <= 9)%Z.
Proof.
  unfold is_digit, digit_val. intros H. apply andb_prop in H as [H1 H2].
  apply Nat.leb_le in H1. apply Nat.leb_le in H2. lia.
Qed.

Lemma decimal_four (ds : str) :
  length ds = 4 -> forallb is_digit ds = true -> (0 <= decimal ds <= 9999)%Z.
Proof.
  destruct ds as [|a [|b [|c [|d [|e ds]]]]]; try discriminate.
  intros _ H. simpl in H.
  apply andb_prop in H as [Ha H]. apply andb_prop in H as [Hb H].
  apply andb_prop in H as [Hc H]. apply andb_prop in H as [Hd _].
  apply digit_val_range in Ha, Hb, Hc, Hd.
  unfold decimal. cbn [fold_left]. lia.
Qed.

(** X22. What the title parser returns. It never raises. The title it
    returns is trimmed. When it returns a year, the year is between 0 and
    9999, the title is not empty, holds no line feed and is at least six
    characters shorter than the trimmed input; when it returns no year,
    the title is the trimmed input. Whitespace around the input makes no
    difference. *)
Theorem extract_year_result (title : str) :
  exists t y,
    extract_year_from_title title = inr (t, y) /\
    strip t = t /\
    (forall n, y = Some n ->
       (0 <= n <= 9999)%Z /\ t <> [] /\ forallb is_dot t = true /\
       length t + 6 <= length (strip title)) /\
    (y = None -> t = strip title) /\
    extract_year_from_title (strip title) = extract_year_from_title title.
Proof.
  assert (Hstrip : extract_year_from_title (strip title)
                   = extract_year_from_title title).
  { unfold extract_year_from_title. by rewrite strip_idempotent. }
  destruct (extract_year_cases title)
    as [(x & ws & ds & Hform & He & Hsx)|[Hs He]].
  - exists x, (Some (decimal ds)). split_and!; try done.
    intros n [= <-].
    destruct Hform as (Ht & Hx & Hdot & _ & _ & Hlen & Hd).
    split_and!; try done.
    + by apply decimal_four.
    + by apply decimal_four.
    + rewrite Ht, !length_app. simpl. rewrite length_app. simpl. lia.
  - exists (strip title), None. split_and!; try done.
    apply strip_idempotent.
Qed.

(** ** The genre parser: joining its result and parsing again *)

Lemma parse_genres_facts (s g : str) :
  g ∈ parse_genres s -> g <> [] /\ strip g = g /\ "|"%char ∉ g.
Proof.
  unfold parse_genres.
  destruct (negb (truthy s) || bool_decide (s = lit "(no genres listed)")).
  { intros H. by apply elem_of_nil in H. }
  rewrite map_filter_strip. intros Hin.
  apply list_elem_of_In, filter_In in Hin as [Hin Ht].
  apply in_map_iff in Hin as (t & <- & Hin).
  split_and!.
  - intros E. rewrite E in Ht. discriminate.
  - apply strip_idempotent.
  - apply strip_no_sep.
    pose proof (split_no_sep "|" s) as Hall. rewrite Forall_forall in Hall.
    apply Hall. by apply list_elem_of_In.
Qed.

Lemma parse_genres_join (tokens : list str) :
  tokens <> [] -> Forall (fun t => "|"%char ∉ t) tokens ->
  join "|" tokens <> [] ->
  join "|" tokens <> lit "(no genres listed)" ->
  parse_genres (join "|" tokens) = List.filter truthy (map strip tokens).
Proof.
  intros Hne Hall Hj Hs. unfold parse_genres.
  rewrite (bool_decide_false _ Hs).
  destruct (join "|" tokens) as [|c j] eqn:E; [contradiction|].
  cbn [truthy negb orb]. rewrite <- E, split_join by assumption.
  apply map_filter_strip.
Qed.

Lemma filter_truthy_fixed (gs : list str) :
  Forall (fun g => g <> [] /\ strip g = g) gs ->
  List.filter truthy (map strip gs) = gs.
Proof.
  induction 1 as [|g gs [Hg Hs] _ IH]; simpl; [done|].
  rewrite Hs. destruct g; [done|]. simpl. by rewrite IH.
Qed.

Lemma join_sep_elem sep (g : str) (gs : list str) :
  gs <> [] -> sep ∈ join sep (g :: gs).
Proof.
  intros H. destruct gs as [|g' gs]; [done|]. simpl.
  apply elem_of_app. right. by apply elem_of_cons; left.
Qed.

(** X23. Joining the parsed genres with "|" and parsing again gives the
    same genres, except in one case: a genre string that parses to the
    single genre "(no genres listed)" (the sentinel with whitespace
    around it) parses to no genre at all the second time. *)
Theorem parse_genres_round_trip (genre_string : str) :
  parse_genres genre_string <> [lit "(no genres listed)"] ->
  parse_genres (join "|" (parse_genres genre_string))
  = parse_genres genre_string.
Proof.
  intros Hsent.
  assert (Hall : Forall (fun g => g <> [] /\ strip g = g /\ "|"%char ∉ g)
                        (parse_genres genre_string)).
  { apply Forall_forall. intros g. apply parse_genres_facts. }
  destruct (parse_genres genre_string) as [|g gs] eqn:E; [reflexivity|].
  rewrite parse_genres_join.
  - apply filter_truthy_fixed. eapply Forall_impl; [exact Hall|].
    intros x (? & ? & _). done.
  - discriminate.
  - eapply Forall_impl; [exact Hall|]. intros x (_ & _ & ?). done.
  - apply Forall_cons in Hall as [(Hg & _) _].
    destruct g as [|c g]; [done|]. destruct gs; simpl; discriminate.
  - intros Hj. destruct gs as [|g' gs].
    + cbn [join] in Hj. apply Hsent. by rewrite Hj.
    + assert (Hin : "|"%char ∈ join "|" (g :: g' :: gs))
        by (by apply join_sep_elem).
      rewrite Hj in Hin. revert Hin.
      apply (bool_decide_unpack ("|"%char ∉ lit "(no genres listed)")).
      vm_compute. exact I.
Qed.

(** ** Which rows the loop can read *)

Lemma int_error (s : str) e : int s = inl e -> e = ValueError.
Proof.
  unfold int.
  destruct (match int_strip s with
            | [] => (false, int_strip s)
            | c :: r =>
                if is_char "-" c then (true, r)
                else if is_char "+" c then (false, r) else (false, int_strip s)
            end) as [neg body].
  destruct (int_digits 0 false body); [|by intros [= <-]].
  destruct (_ <=? _)%Z; [discriminate|]. by intros [= <-].
Qed.

Lemma extract_year_total (title : str) :
  exists t y, extract_year_from_title title = inr (t, y).
Proof.
  destruct (extract_year_cases title)
    as [(x & ws & ds & _ & He & _)|[_ He]]; eauto.
Qed.

(** X24. Which rows an iteration can read, and what it raises for the
    others. A row is readable exactly when it has the three columns,
    its movie id field is an integer literal and its title field is a
    string; the genres field may be missing from the line. Otherwise the
    first failing step decides: no movieId column gives KeyError, a
    missing movie id field TypeError, a movie id that is no integer
    ValueError, no title or no genres column KeyError (before the title
    is looked at), and a missing title field AttributeError. *)
Theorem read_row_readable (r : row) :
  (well_formed r <->
   exists mid n t g,
     r !! lit "movieId" = Some (Some mid) /\ int mid = inr n /\
     r !! lit "title" = Some (Some t) /\ r !! lit "genres" = Some g) /\
  (forall mid n t g,
     r !! lit "movieId" = Some (Some mid) -> int mid = inr n ->
     r !! lit "title" = Some (Some t) -> r !! lit "genres" = Some g ->
     exists t' y,
       extract_year_from_title t = inr (t', y) /\
       read_row r = inr (n, t', y,
                         match g with Some s => parse_genres s | None => [] end)) /\
  (r !! lit "movieId" = None -> read_row r = inl KeyError) /\
  (r !! lit "movieId" = Some None -> read_row r = inl TypeError) /\
  (forall mid e, r !! lit "movieId" = Some (Some mid) -> int mid = inl e ->
                 read_row r = inl ValueError) /\
  (forall mid n, r !! lit "movieId" = Some (Some mid) -> int mid = inr n ->
     (r !! lit "title" = None -> read_row r = inl KeyError) /\
     (r !! lit "genres" = None -> read_row r = inl KeyError) /\
     (forall g, r !! lit "title" = Some None -> r !! lit "genres" = Some g ->
                read_row r = inl AttributeError)).
Proof.
  assert (Hok : forall mid n t g,
     r !! lit "movieId" = Some (Some mid) -> int mid = inr n ->
     r !! lit "title" = Some (Some t) -> r !! lit "genres" = Some g ->
     exists t' y,
       extract_year_from_title t = inr (t', y) /\
       read_row r = inr (n, t', y,
                         match g with Some s => parse_genres s | None => [] end)).
  { intros mid n t g H1 H2 H3 H4.
    destruct (extract_year_total t) as (t' & y & He). exists t', y.
    split; [exact He|]. unfold read_row, getitem.
    rewrite H1. cbn [bind int_opt]. rewrite H2. cbn [bind].
    rewrite H3. cbn [bind]. rewrite H4. cbn [bind]. rewrite He. reflexivity. }
  split_and!.
  - split.
    + intros [v Hv]. revert Hv. unfold read_row, getitem.
      destruct (r !! lit "movieId") as [[mid|]|]; cbn [bind int_opt];
        try discriminate.
      destruct (int mid) as [e|n] eqn:Ei; cbn [bind]; [discriminate|].
      destruct (r !! lit "title") as [tt|]; cbn [bind]; [|discriminate].
      destruct (r !! lit "genres") as [g|]; cbn [bind]; [|discriminate].
      destruct tt as [t|]; cbn [bind]; [|discriminate].
      intros _. by exists mid, n, t, g.
    + intros (mid & n & t & g & H1 & H2 & H3 & H4).
      destruct (Hok mid n t g H1 H2 H3 H4) as (t' & y & _ & E).
      unfold well_formed. eauto.
  - exact Hok.
  - intros H. unfold read_row, getitem. by rewrite H.
  - intros H. unfold read_row, getitem. by rewrite H.
  - intros mid e H1 H2. pose proof (int_error _ _ H2) as ->.
    unfold read_row, getitem. rewrite H1. cbn [bind int_opt]. by rewrite H2.
  - intros mid n H1 H2. split_and!.
    + intros H3. unfold read_row, getitem. rewrite H1. cbn [bind int_opt].
      rewrite H2. cbn [bind]. by rewrite H3.
    + intros H4. unfold read_row, getitem. rewrite H1. cbn [bind int_opt].
      rewrite H2. cbn [bind].
      destruct (r !! lit "title"); cbn [bind]; [by rewrite H4|done].
    + intros g H3 H4. unfold read_row, getitem. rewrite H1. cbn [bind int_opt].
      rewrite H2. cbn [bind]. rewrite H3. cbn [bind]. by rewrite H4.
Qed.

(** ** From the seeder to the read endpoints *)

(** X25. What an iteration stored is what the API serves. In a catalog
    with unique primary keys, after the iteration on a row that can be
    read and stored
    [GET /movies/{id}] answers the stored movie for its id, the movie's
    director is among [get_all_directors] and is what
    [GET /directors/{id}] answers for the movie's [director_id], and
    [GET /actors/{id}] answers an actor for every actor id of the
    movie: no reference of a seeded movie gives 404. *)
Theorem seeded_movie_is_served
        (enricher : option TMDbEnricher) (ratings : gmap Z (float * Z))
        (r : row) (db : Catalog)
        (id : Z) (title : str) (year : option Z) (gn : list str) :
  keys_unique db ->
  read_row r = inr (id, title, year, gn) ->
  accepted enricher ratings id title year ->
  let s := seed_row enricher ratings r db in
  exists movie d,
    s.2 = inr movie /\
    api.get_movie (Movie.id movie) s.1.1 = inr movie /\
    Movie.director_id movie = Some (Director.id d) /\
    d ∈ get_all_directors s.1.1 /\
    api.get_director (Director.id d) s.1.1 = inr d /\
    Forall (fun actor_id =>
              exists a, api.get_actor actor_id s.1.1 = inr a /\
                        Actor.id a = actor_id)
           (Movie.actors movie).
Proof.
  intros K Hr Hacc s.
  assert (K' : keys_unique s.1.1).
  { apply (seed_row_inv keys_unique); [apply keys_unique_step| |exact K].
    intros. by apply keys_unique_upsert. }
  destruct K' as (_ & KD & KA & KM).
  destruct (seed_row_stored enricher ratings r db id title year gn Hr Hacc)
    as (movie & gens & Hs & _ & Hin & _).
  destruct (seed_row_credits enricher ratings r db id title year gn Hr Hacc)
    as (movie' & Hs' & _ & _ & _ & Hd & Ha & Hdin & Hain & _).
  fold s in Hs, Hin, Hs', Hdin, Hain.
  rewrite Hs in Hs'. injection Hs' as <-.
  eexists movie, _. split_and!.
  - exact Hs.
  - unfold api.get_movie, get_movie_by_id.
    by rewrite (by_id_unique Movie.id _ _ KM Hin).
  - exact Hd.
  - exact Hdin.
  - unfold api.get_director, get_director_by_id.
    by rewrite (by_id_unique Director.id _ _ KD Hdin).
  - rewrite Ha. apply Forall_forall. intros aid Haid.
    apply elem_of_links, elem_of_list_map in Haid as (a & -> & Hain').
    rewrite Forall_forall in Hain. specialize (Hain a Hain').
    exists a. split; [|done].
    unfold api.get_actor, get_actor_by_id.
    by rewrite (by_id_unique Actor.id _ _ KA Hain).
Qed.

Lemma empty_keys_unique : keys_unique models.empty.
Proof. unfold keys_unique. simpl. split_and!; constructor. Qed.

Lemma seeded_movie_is_served_witness :
  keys_unique models.empty /\
  exists movie,
    (seed_row None ∅ heat_row models.empty).2 = inr movie /\
    api.get_movie (Movie.id movie) (seed_row None ∅ heat_row models.empty).1.1
      = inr movie.
Proof.
  split; [exact empty_keys_unique|].
  destruct (seeded_movie_is_served None ∅ heat_row models.empty 1
              (lit "Heat") (Some 1995%Z) [lit "Action"; lit "Crime"]
              empty_keys_unique)
    as (movie & d & Hs & Hm & _).
  - vm_compute. reflexivity.
  - unfold accepted. vm_compute. reflexivity.
  - exists movie. split; [exact Hs|exact Hm].
Defined.

(** ** No link is stored twice on the placeholder path *)

(** Entities of a table with pairwise distinct names are pairwise
    distinct, and so are their ids when the table's ids are. *)
Lemma ids_of_distinct_names {A} (id : A -> Z) (name : A -> str)
      (table l : list A) :
  NoDup (map id table) -> Forall (fun x => x ∈ table) l ->
  NoDup (map name l) -> NoDup (map id l).
Proof.
  intros Hid Hin Hn.
  apply NoDup_fmap_2_strong; [|by apply (NoDup_fmap_1 name)].
  intros x y Hx Hy E. rewrite Forall_forall in Hin.
  destruct (first_where_unique id table x Hid (Hin x Hx)) as [i Hi].
  destruct (first_where_unique id table y Hid (Hin y Hy)) as [j Hj].
  rewrite E in Hi. rewrite Hi in Hj. by injection Hj.
Qed.

(** X26. With the enrichment disabled the seeder never links a movie to
    the same actor or genre twice: in a catalog with unique primary keys,
    for a row that can be read and stored and whose genre names are
    pairwise distinct, the actor ids of the stored movie are five
    pairwise distinct ids and its genre ids are pairwise distinct, one
    for each genre name. Each pair the association tables get is new for
    that movie. *)
Theorem placeholder_links_distinct
        (ratings : gmap Z (float * Z)) (r : row) (db : Catalog)
        (id : Z) (title : str) (year : option Z) (gn : list str) :
  keys_unique db ->
  read_row r = inr (id, title, year, gn) ->
  accepted None ratings id title year ->
  NoDup gn ->
  exists movie,
    (seed_row None ratings r db).2 = inr movie /\
    NoDup (Movie.actors movie) /\ length (Movie.actors movie) = 5 /\
    NoDup (Movie.genres movie) /\ length (Movie.genres movie) = length gn.
Proof.
  intros K Hr Hacc Hgn.
  assert (K' : keys_unique (seed_row None ratings r db).1.1).
  { apply (seed_row_inv keys_unique); [apply keys_unique_step| |exact K].
    intros. by apply keys_unique_upsert. }
  destruct K' as (KG & _ & KA & _).
  destruct (seed_row_stored None ratings r db id title year gn Hr Hacc)
    as (movie & gens & Hs & _ & _ & _ & _ & _ & _ & _ & Hg & Hn & Hgin).
  destruct (seed_row_credits None ratings r db id title year gn Hr Hacc)
    as (movie' & Hs' & _ & _ & _ & _ & Ha & _ & Hain & _).
  rewrite Hs in Hs'. injection Hs' as <-.
  revert Ha Hain. unfold try_enrich. cbn [fst snd or_placeholders].
  pose proof (create_placeholder_data_spec id (resolve_genres db gn).1) as Hp.
  cbv zeta in Hp.
  destruct (create_placeholder_data id (resolve_genres db gn).1)
    as [db1 [pd pacts]]. cbn [fst snd] in *.
  destruct Hp as (_ & Hpn & _ & _ & Hlen).
  intros Ha Hain.
  assert (Na : NoDup (map Actor.id pacts)).
  { apply (ids_of_distinct_names Actor.id Actor.name
             (actors (seed_row None ratings r db).1.1)); [exact KA|exact Hain|].
    rewrite Hpn. apply placeholder_actors_NoDup. lia. }
  assert (Ng : NoDup (map Genre.id gens)).
  { apply (ids_of_distinct_names Genre.id Genre.name
             (genres (seed_row None ratings r db).1.1)); [exact KG|exact Hgin|].
    by rewrite Hn. }
  exists movie. split_and!.
  - exact Hs.
  - rewrite Ha. apply NoDup_links.
  - by rewrite Ha, length_links, length_map.
  - rewrite Hg. apply NoDup_links.
  - by rewrite Hg, length_links, length_map, <- Hn, length_map.
Qed.

Lemma placeholder_links_distinct_witness :
  keys_unique models.empty /\ NoDup [lit "Action"; lit "Crime"] /\
  exists movie,
    (seed_row None ∅ heat_row models.empty).2 = inr movie /\
    NoDup (Movie.actors movie) /\ NoDup (Movie.genres movie).
Proof.
  assert (K : keys_unique models.empty).
  { unfold keys_unique. simpl. split_and!; constructor. }
  assert (N : NoDup [lit "Action"; lit "Crime"]).
  { refine (bool_decide_unpack _ _). vm_compute. exact I. }
  split; [exact K|]. split; [exact N|].
  destruct (placeholder_links_distinct ∅ heat_row models.empty 1 (lit "Heat")
              (Some 1995%Z) [lit "Action"; lit "Crime"] K)
    as (movie & Hs & Ha & _ & Hg & _).
  - vm_compute. reflexivity.
  - unfold accepted. vm_compute. reflexivity.
  - exact N.
  - exists movie. split_and!; [exact Hs|exact Ha|exact Hg].
Defined.

(** ** Running again

    Each stage of an iteration, run in a catalog that extends the one it
    left behind, finds what it created the first time: it returns the
    same entities and changes nothing. *)

Lemma get_or_create_genre_found db n i g :
  first_where (fun x => bool_decide (Genre.name x = n)) (genres db)
    = Some (i, g) ->
  get_or_create_genre db n = (db, g).
Proof. intros E. unfold get_or_create_genre. by rewrite E. Qed.

Lemma get_or_create_genre_lookup db n :
  exists i,
    first_where (fun x => bool_decide (Genre.name x = n))
      (genres (get_or_create_genre db n).1)
    = Some (i, (get_or_create_genre db n).2).
Proof.
  unfold get_or_create_genre.
  destruct (first_where _ (genres db)) as [[i d]|] eqn:E; simpl.
  - by exists i.
  - exists (length (genres db)). apply (first_where_snoc_new _ _ _ E).
    by apply bool_decide_eq_true_2.
Qed.

Lemma resolve_genres_replay names : forall db acc dbx accx,
  genres (resolve_each get_or_create_genre db names acc).1
    `prefix_of` genres dbx ->
  exists new,
    (resolve_each get_or_create_genre db names acc).2 = acc ++ new /\
    resolve_each get_or_create_genre dbx names accx = (dbx, accx ++ new).
Proof.
  induction names as [|n names IH]; intros db acc dbx accx; simpl.
  - intros _. exists []. by rewrite !app_nil_r.
  - destruct (get_or_create_genre_lookup db n) as [i Hi].
    destruct (get_or_create_genre db n) as [db1 a]. simpl in Hi.
    intros Hp.
    assert (Hp1 : genres db1 `prefix_of` genres dbx).
    { etrans; [|exact Hp].
      destruct (resolve_each_steps get_or_create_genre genres Genre.name) with
        (names := names) (db := db1) (acc := acc ++ [a]) as (S1 & _).
      - intros. constructor.
      - intros d m. apply (get_or_create_genre_spec d m).
      - intros d m. apply (get_or_create_genre_spec d m).
      - intros d d' H. by apply entity_steps_tables in H as (? & _).
      - by apply entity_steps_tables in S1 as (? & _). }
    rewrite (get_or_create_genre_found dbx n i a
               (first_where_prefix _ _ _ _ _ Hp1 Hi)).
    destruct (IH db1 (acc ++ [a]) dbx (accx ++ [a]) Hp) as (new & E1 & E2).
    exists (a :: new). rewrite E1, E2, <- !app_assoc. done.
Qed.

Lemma resolve_cast_replay top : forall db acc dbx accx,
  actors (resolve_cast db top acc).1 `prefix_of` actors dbx ->
  ((resolve_cast db top acc).2 = inl KeyError /\
   resolve_cast dbx top accx = (dbx, inl KeyError)) \/
  (exists new,
     (resolve_cast db top acc).2 = inr (acc ++ new) /\
     resolve_cast dbx top accx = (dbx, inr (accx ++ new))).
Proof.
  induction top as [|c top IH]; intros db acc dbx accx; simpl.
  - intros _. right. exists []. by rewrite !app_nil_r.
  - destruct (ca_name c) as [n|]; simpl; [|by left].
    destruct (get_or_create_actor_lookup db n None) as [i Hi].
    destruct (get_or_create_actor db n None) as [db1 a]. simpl in Hi.
    intros Hp.
    assert (Hp1 : actors db1 `prefix_of` actors dbx).
    { etrans; [|exact Hp].
      destruct (resolve_cast_steps top db1 (acc ++ [a])) as (S1 & _).
      by apply entity_steps_tables in S1 as (_ & _ & ? & _). }
    rewrite (get_or_create_actor_found dbx n None i a
               (first_where_prefix _ _ _ _ _ Hp1 Hi)).
    destruct (IH db1 (acc ++ [a]) dbx (accx ++ [a]) Hp)
      as [[E1 E2]|(new & E1 & E2)].
    + left. by rewrite E1, E2.
    + right. exists (a :: new). rewrite E1, E2, <- !app_assoc. done.
Qed.

Lemma enrich_replay tm title year db dbx :
  directors (enrich_movie_with_tmdb tm title year db).1.1
    `prefix_of` directors dbx ->
  actors (enrich_movie_with_tmdb tm title year db).1.1
    `prefix_of` actors dbx ->
  enrich_movie_with_tmdb tm title year dbx
  = (dbx, (enrich_movie_with_tmdb tm title year db).1.2,
     (enrich_movie_with_tmdb tm title year db).2).
Proof.
  unfold enrich_movie_with_tmdb.
  destruct (search_movie tm title year) as [log [e|[m|]]]; simpl; try done.
  destruct (sr_id m) as [tid|]; simpl; [|done].
  destruct (get_movie_credits tm tid) as [log2 [c|]]; simpl; [|done].
  destruct (List.filter is_director (default [] (cd_crew c))) as [|d ds].
  - pose proof (resolve_cast_replay (firstn 8 (default [] (cd_cast c))) db []
                  dbx []) as Hrep.
    destruct (resolve_cast db _ []) as [db2 [e|acts]]; simpl in *;
      intros _ Ha;
      destruct (Hrep Ha) as [[E1 ->]|(new & E1 & ->)]; simplify_eq; done.
  - destruct (cm_name d) as [dn|]; simpl; [|done].
    destruct (get_or_create_director_lookup db dn None) as [i Hi].
    destruct (get_or_create_director db dn None) as [db1 dir]. simpl in Hi.
    pose proof (resolve_cast_replay (firstn 8 (default [] (cd_cast c))) db1 []
                  dbx []) as Hrep.
    pose proof (resolve_cast_steps (firstn 8 (default [] (cd_cast c))) db1 [])
      as (S1 & _).
    destruct (resolve_cast db1 _ []) as [db2 [e|acts]]; simpl in *;
      intros Hd Ha;
      (assert (Hd1 : directors db1 `prefix_of` directors dbx);
       [etrans; [|exact Hd]; by apply entity_steps_tables in S1 as (_ & ? & _)|]);
      rewrite (get_or_create_director_found dbx dn None i dir
                 (first_where_prefix _ _ _ _ _ Hd1 Hi));
      destruct (Hrep Ha) as [[E1 ->]|(new & E1 & ->)]; simplify_eq; done.
Qed.

Lemma try_enrich_replay enricher title year db dbx :
  directors (try_enrich enricher title year db).1.1 `prefix_of` directors dbx ->
  actors (try_enrich enricher title year db).1.1 `prefix_of` actors dbx ->
  try_enrich enricher title year dbx
  = (dbx, (try_enrich enricher title year db).1.2,
     (try_enrich enricher title year db).2).
Proof.
  unfold try_enrich. destruct enricher as [tm|]; [|done].
  pose proof (enrich_replay tm title year db dbx) as Hrep.
  destruct (enrich_movie_with_tmdb tm title year db) as [[db1 log] [e|found]];
    simpl in *; intros Hd Ha; by rewrite (Hrep Hd Ha).
Qed.

Lemma create_placeholder_data_replay id db dbx :
  directors (create_placeholder_data id db).1 `prefix_of` directors dbx ->
  actors (create_placeholder_data id db).1 `prefix_of` actors dbx ->
  create_placeholder_data id dbx = (dbx, (create_placeholder_data id db).2).
Proof.
  rewrite !create_placeholder_data_unfold. cbv zeta. cbn [fst snd].
  generalize (deterministic_placeholder_actors id 5) as names.
  generalize (deterministic_placeholder_director id) as dn.
  intros dn names.
  destruct (get_or_create_director_lookup db dn
              (Some (lit "Placeholder director"))) as [i Hi].
  set (D := get_or_create_director db dn (Some (lit "Placeholder director")))
    in *.
  pose proof (resolve_actors_replay (Some (lit "Placeholder actor"))
                (Some (lit "Placeholder actor")) names D.1 []) as Hrep.
  pose proof (resolve_actors_spec (Some (lit "Placeholder actor")) names D.1 [])
    as Hsp.
  cbv zeta in Hrep, Hsp.
  set (A := resolve_each
              (fun db n => get_or_create_actor db n (Some (lit "Placeholder actor")))
              D.1 names []) in *.
  destruct Hsp as (_ & _ & Ed & _).
  intros Hd Ha.
  destruct (Hrep dbx [] Ha) as (new & E1 & E2).
  rewrite Ed in Hd.
  rewrite (get_or_create_director_found dbx dn _ i D.2
             (first_where_prefix _ _ _ _ _ Hd Hi)). cbn [fst snd].
  rewrite E2. cbn [fst snd]. by rewrite E1.
Qed.

Lemma or_placeholders_replay id db dbx d0 a0 :
  directors (or_placeholders id db d0 a0).1 `prefix_of` directors dbx ->
  actors (or_placeholders id db d0 a0).1 `prefix_of` actors dbx ->
  or_placeholders id dbx d0 a0 = (dbx, (or_placeholders id db d0 a0).2).
Proof.
  unfold or_placeholders. destruct d0 as [d|]; [done|].
  pose proof (create_placeholder_data_replay id db dbx) as Hrep.
  destruct (create_placeholder_data id db) as [db1 [pd pacts]]. simpl in *.
  intros Hd Ha. by rewrite (Hrep Hd Ha).
Qed.

Lemma upsert_replay db dbx ml title year desc rt rc pu tm d acts gens i :
  first_where (fun m => bool_decide (Movie.ml_id m = ml)) (movies dbx)
    = Some (i, (create_or_update_movie_by_ml_id db ml title year desc rt rc pu
                  tm d acts gens).2) ->
  create_or_update_movie_by_ml_id dbx ml title year desc rt rc pu tm d acts gens
  = (dbx, (create_or_update_movie_by_ml_id db ml title year desc rt rc pu tm
             d acts gens).2).
Proof.
  intros Hi. unfold create_or_update_movie_by_ml_id at 1. rewrite Hi.
  set (u := create_or_update_movie_by_ml_id db ml title year desc rt rc pu tm
              d acts gens) in *.
  assert (Hm :
    set_relationships
      (Movie.Make (Movie.id u.2) (Movie.ml_id u.2)
         tm title year desc rt rc pu
         (match d with
          | Some x => Some (Director.id x)
          | None => Movie.director_id u.2
          end) (Movie.actors u.2) (Movie.genres u.2))
      acts gens = u.2).
  { subst u. unfold create_or_update_movie_by_ml_id.
    destruct (first_where _ (movies db)) as [[j old]|]; simpl;
      destruct d, acts, gens; reflexivity. }
  rewrite Hm. rewrite list_insert_id.
  - by destruct dbx.
  - by apply first_where_Some in Hi as (Hi & _).
Qed.

(** One iteration, run again in a catalog that extends the one it
    left: the genres, the enrichment and the placeholders come out as
    the first time and add nothing, and the upsert, when the database
    accepts its integers, is called with the same arguments. *)
Lemma seed_row_replay_cases enricher ratings r db dbx id title year gn :
  read_row r = inr (id, title, year, gn) ->
  grows (seed_row enricher ratings r db).1.1 dbx ->
  exists gens log tm pu d acts db1,
    let upsert x :=
      create_or_update_movie_by_ml_id x id title year
        (Some (description_of year)) (get_rating ratings id).1
        (get_rating ratings id).2 pu tm (Some d) (Some acts) (Some gens) in
    seed_row enricher ratings r db =
      (if storable id year (get_rating ratings id).2 tm
       then ((upsert db1).1, log, inr (upsert db1).2)
       else (db1, log, inl OverflowError)) /\
    seed_row enricher ratings r dbx =
      (if storable id year (get_rating ratings id).2 tm
       then ((upsert dbx).1, log, inr (upsert dbx).2)
       else (dbx, log, inl OverflowError)).
Proof.
  intros Hr.
  destruct (seed_row_cases enricher ratings r db id title year gn Hr)
    as (gens & dbe & log & tm & pu & d0 & a0 & db1 & d & acts &
        Eg & Ee & Eo & S1 & _ & _ & _ & _ & _ & E).
  intros HG.
  assert (HP : genres db1 `prefix_of` genres dbx /\
               directors db1 `prefix_of` directors dbx /\
               actors db1 `prefix_of` actors dbx).
  { revert HG. rewrite E.
    destruct (storable id year (get_rating ratings id).2 tm); cbn [fst snd].
    - destruct (upsert_entities db1 id title year (Some (description_of year))
                  (get_rating ratings id).1 (get_rating ratings id).2 pu tm
                  (Some d) (Some acts) (Some gens)) as (Ug & Ud & Ua).
      intros (PG & PD & PA & _ & _).
      rewrite Ug in PG. rewrite Ud in PD. rewrite Ua in PA. done.
    - by intros (PG & PD & PA & _ & _). }
  destruct HP as (PG & PD & PA).
  exists gens, log, tm, pu, d, acts, db1. cbv zeta. split; [exact E|].
  (* the stages of the first run are steps on the way to [db1] *)
  pose proof (resolve_genres_steps db gn) as (Sg & _).
  pose proof (try_enrich_steps enricher title year (resolve_genres db gn).1)
    as (Se & Md & Ma).
  rewrite Ee in Se, Md, Ma. cbn [fst snd] in Se, Md, Ma.
  pose proof (or_placeholders_steps id dbe d0 a0 Md Ma) as (So & _).
  rewrite Eo in So. cbn [fst snd] in So.
  assert (Se1 : entity_steps (resolve_genres db gn).1 db1)
    by (eapply entity_steps_trans; eassumption).
  apply entity_steps_tables in Se1 as (G1 & _).
  apply entity_steps_tables in So as (_ & D2 & A2 & _).
  (* genres *)
  destruct (resolve_genres_replay gn db [] dbx []) as (new & N1 & N2).
  { etrans; [exact G1|exact PG]. }
  unfold resolve_genres in Eg. rewrite Eg in N1. cbn [snd app] in N1.
  subst new. cbn [app] in N2.
  (* enrichment *)
  pose proof (try_enrich_replay enricher title year (resolve_genres db gn).1 dbx)
    as Ht.
  rewrite Ee in Ht. cbn [fst snd] in Ht.
  assert (Ht' : try_enrich enricher title year dbx = (dbx, log, (tm, pu, d0, a0))).
  { apply Ht; (etrans; [eassumption|eassumption]). }
  (* placeholders *)
  pose proof (or_placeholders_replay id dbe dbx d0 a0) as Hp.
  rewrite Eo in Hp. cbn [fst snd] in Hp.
  specialize (Hp PD PA).
  unfold seed_row. rewrite Hr. unfold resolve_genres. rewrite N2, Ht', Hp.
  destruct (get_rating ratings id) as [rt rc] eqn:Er. cbn [fst snd] in *.
  destruct (storable id year rc tm); [|done].
  by destruct (create_or_update_movie_by_ml_id dbx _ _ _ _ _ _ _ _ _ _ _).
Qed.

(** When the first run stored the movie and the catalog still holds it
    under the movie id, running again changes nothing. *)
Lemma seed_row_replay enricher ratings r db dbx movie :
  (seed_row enricher ratings r db).2 = inr movie ->
  grows (seed_row enricher ratings r db).1.1 dbx ->
  movie_by_ml_id dbx (Movie.ml_id movie) = Some movie ->
  seed_row enricher ratings r dbx = (dbx, (seed_row enricher ratings r db).1.2,
                                     inr movie).
Proof.
  destruct (read_row r) as [e|[[[id title] year] gn]] eqn:Hr.
  { rewrite (seed_row_failed _ _ _ _ _ Hr). discriminate. }
  intros Hm HG Hl.
  destruct (seed_row_replay_cases enricher ratings r db dbx id title year gn
              Hr HG) as (gens & log & tm & pu & d & acts & db1 & E1 & E2).
  cbv zeta in E1, E2. rewrite E2. rewrite E1 in Hm |- *.
  destruct (storable id year (get_rating ratings id).2 tm); [|discriminate].
  cbn [fst snd] in *. injection Hm as <-.
  assert (Hml : Movie.ml_id
                  (create_or_update_movie_by_ml_id db1 id title year
                     (Some (description_of year)) (get_rating ratings id).1
                     (get_rating ratings id).2 pu tm (Some d)
                     (Some acts) (Some gens)).2 = id).
  { apply (upsert_returned db1 id title year (Some (description_of year))
             (get_rating ratings id).1 (get_rating ratings id).2
             pu tm (Some d) (Some acts) (Some gens)). }
  rewrite Hml in Hl. unfold movie_by_ml_id in Hl.
  destruct (first_where _ (movies dbx)) as [[i m]|] eqn:Ef; [|discriminate].
  simpl in Hl. injection Hl as ->.
  by rewrite (upsert_replay db1 dbx id title year (Some (description_of year))
                (get_rating ratings id).1 (get_rating ratings id).2
                pu tm (Some d) (Some acts) (Some gens) i Ef).
Qed.

(** When the database refused the row, it refuses it again, and nothing
    is added. *)
Lemma seed_row_replay_refused enricher ratings r db dbx e :
  (seed_row enricher ratings r db).2 = inl e ->
  grows (seed_row enricher ratings r db).1.1 dbx ->
  seed_row enricher ratings r dbx
  = (dbx, (seed_row enricher ratings r db).1.2, inl e).
Proof.
  destruct (read_row r) as [e'|[[[id title] year] gn]] eqn:Hr.
  { rewrite !(seed_row_failed _ _ _ _ _ Hr). by intros [= <-]. }
  intros Hm HG.
  destruct (seed_row_replay_cases enricher ratings r db dbx id title year gn
              Hr HG) as (gens & log & tm & pu & d & acts & db1 & E1 & E2).
  cbv zeta in E1, E2. rewrite E2. rewrite E1 in Hm |- *.
  destruct (storable id year (get_rating ratings id).2 tm); [discriminate|].
  cbn [fst snd] in *. by injection Hm as <-.
Qed.

Lemma seed_row_grows enricher ratings r db :
  grows db (seed_row enricher ratings r db).1.1.
Proof.
  apply (seed_row_inv (grows db)).
  - intros d d' Hs H. eapply grows_trans; [exact H|]. by apply grows_step.
  - intros. eapply grows_trans; [eassumption|]. apply grows_upsert.
  - apply grows_refl.
Qed.

Lemma seed_rows_grows enricher ratings rows n db :
  grows db (seed_rows enricher ratings rows n db).1.1.
Proof.
  apply (seed_rows_inv (grows db)).
  - intros d d' Hs H. eapply grows_trans; [exact H|]. by apply grows_step.
  - intros. eapply grows_trans; [eassumption|]. apply grows_upsert.
  - apply grows_refl.
Qed.

(** X27. An iteration is idempotent: running it again on the same row,
    in the catalog it left, returns the same movie, logs the same
    warnings and changes nothing in the catalog, with or without
    enrichment (the service answering as before). *)
Theorem iteration_idempotent
        (enricher : option TMDbEnricher) (ratings : gmap Z (float * Z))
        (r : row) (db : Catalog) :
  let s := seed_row enricher ratings r db in
  seed_row enricher ratings r s.1.1 = s.
Proof.
  intros s. subst s.
  destruct (seed_row enricher ratings r db) as [[d l] [e|movie]] eqn:Es.
  - pose proof (seed_row_replay_refused enricher ratings r db d e) as H.
    rewrite Es in H. apply H; [done|apply grows_refl].
  - destruct (read_row r) as [e|[[[id title] year] gn]] eqn:Hr.
    { rewrite (seed_row_failed _ _ _ _ _ Hr) in Es. discriminate. }
    assert (Hacc : accepted enricher ratings id title year).
    { apply (seed_row_returned enricher ratings r db id title year gn movie Hr).
      by rewrite Es. }
    destruct (seed_row_stored enricher ratings r db id title year gn Hr Hacc)
      as (movie' & gens & Hs & Hl & _ & Hml & _).
    rewrite Es in Hs, Hl. cbn [fst snd] in Hs, Hl. injection Hs as <-.
    pose proof (seed_row_replay enricher ratings r db d movie) as H.
    rewrite Es in H. apply H; [done|apply grows_refl|by rewrite Hml].
Qed.

Lemma seed_rows_replay enricher ratings rows : forall n db F,
  NoDup (read_ids rows) ->
  grows (seed_rows enricher ratings rows n db).1.1 F ->
  (forall ml, ml ∈ read_ids rows ->
     movie_by_ml_id F ml
     = movie_by_ml_id (seed_rows enricher ratings rows n db).1.1 ml) ->
  seed_rows enricher ratings rows n F
  = (F, (seed_rows enricher ratings rows n db).1.2,
     (seed_rows enricher ratings rows n db).2).
Proof.
  induction rows as [|r rows IH]; intros n db F; simpl; [done|].
  destruct (read_row r) as [e|[[[id title] year] gn]] eqn:Hr.
  { rewrite !(seed_row_failed _ _ _ _ _ Hr). done. }
  intros Hnd HF Hlook. apply NoDup_cons in Hnd as [Hid Hnd].
  destruct (seed_row enricher ratings r db) as [[db1 log] [e|movie]] eqn:Es.
  { cbn [fst snd] in HF |- *.
    pose proof (seed_row_replay_refused enricher ratings r db F e) as H.
    rewrite Es in H. by rewrite H. }
  assert (Hacc : accepted enricher ratings id title year).
  { apply (seed_row_returned enricher ratings r db id title year gn movie Hr).
    by rewrite Es. }
  destruct (seed_row_stored enricher ratings r db id title year gn Hr Hacc)
    as (movie' & gens & Hs & Hl & _ & Hml & _).
  rewrite Es in Hs, Hl. cbn [fst snd] in Hs, Hl. injection Hs as <-.
  pose proof (seed_rows_grows enricher ratings rows (S n) db1) as Hg.
  pose proof (seed_rows_other enricher ratings rows id (S n) db1 Hid) as Ho.
  specialize (IH (S n) db1 F Hnd).
  destruct (seed_rows enricher ratings rows (S n) db1) as [[db2 log2] res2]
    eqn:E2.
  cbn [fst snd] in *.
  assert (Hl1 : movie_by_ml_id F id = Some movie).
  { rewrite (Hlook id) by (by apply elem_of_cons; left). by rewrite Ho. }
  assert (HF1 : grows db1 F) by (eapply grows_trans; [exact Hg|exact HF]).
  pose proof (seed_row_replay enricher ratings r db F movie) as H.
  rewrite Es in H. cbn [fst snd] in H.
  rewrite H; [|done|exact HF1|by rewrite Hml].
  rewrite IH; [done|exact HF|].
  intros ml Hin. apply Hlook. by apply elem_of_cons; right.
Qed.

(** X28. Running the seeder again changes nothing. When the rows read
    have pairwise distinct movie ids, a second [seed_movies] on the
    catalog the first one left, with the same file, ratings and service
    answers, leaves the catalog exactly as it is, every row and every
    field, logs what the first run logged and ends as the first run
    ended. *)
Theorem rerun_changes_nothing
        (enricher : option TMDbEnricher) (movies_file : option (list row))
        (ratings : gmap Z (float * Z)) (db : Catalog) :
  (forall rows, movies_file = Some rows -> NoDup (read_ids rows)) ->
  let first := seed_movies enricher movies_file ratings db in
  seed_movies enricher movies_file ratings first.1.1 = first.
Proof.
  intros Hnd first. subst first. unfold seed_movies.
  destruct movies_file as [rows|]; [|done].
  pose proof (seed_rows_replay enricher ratings rows 0 db
                (seed_rows enricher ratings rows 0 db).1.1
                (Hnd rows eq_refl) (grows_refl _) (fun _ _ => eq_refl)) as H.
  destruct (seed_rows enricher ratings rows 0 db) as [[db1 log] [e|n]];
    simpl in *; by rewrite H.
Qed.

Lemma rerun_changes_nothing_witness :
  let first :=
    seed_movies (Some tmdb_heat)
      (Some [heat_row; mkrow "2" "Jumanji (1995)" "Adventure"]) ∅ models.empty in
  seed_movies (Some tmdb_heat)
    (Some [heat_row; mkrow "2" "Jumanji (1995)" "Adventure"]) ∅ first.1.1
  = first.
Proof.
  apply (rerun_changes_nothing (Some tmdb_heat)
           (Some [heat_row; mkrow "2" "Jumanji (1995)" "Adventure"]) ∅
           models.empty).
  intros rows [= <-]. refine (bool_decide_unpack _ _). vm_compute. exact I.
Defined.

(** ** Worked examples of the properties above *)

Lemma demo_keys_unique : keys_unique demo_db.
Proof.
  unfold keys_unique, demo_db; simpl.
  split_and!; refine (bool_decide_unpack _ _); vm_compute; exact I.
Qed.

Lemma heat_row_read :
  read_row heat_row
  = inr (1%Z, lit "Heat", Some 1995%Z, [lit "Action"; lit "Crime"]).
Proof. vm_compute. reflexivity. Qed.

Lemma run_keeps_keys_unique_witness :
  keys_unique demo_db /\
  keys_unique (main None (Some [heat_row]) None demo_db).1.1.
Proof.
  split; [exact demo_keys_unique|].
  exact (run_keeps_keys_unique None (Some [heat_row]) None demo_db
           demo_keys_unique).
Defined.

Lemma run_keeps_names_unique_witness :
  names_unique demo_db /\
  names_unique (main None (Some [heat_row]) None demo_db).1.1.
Proof.
  assert (H : names_unique demo_db).
  { unfold names_unique, demo_db, genre_names, director_names, actor_names,
      ml_ids; simpl.
    split_and!; refine (bool_decide_unpack _ _); vm_compute; exact I. }
  split; [exact H|].
  exact (run_keeps_names_unique None (Some [heat_row]) None demo_db H).
Defined.

Lemma run_keeps_references_witness :
  refs_ok demo_db /\
  refs_ok (main None (Some [heat_row]) None demo_db).1.1.
Proof.
  assert (H : refs_ok demo_db).
  { unfold refs_ok, demo_db. simpl. constructor; [|constructor].
    unfold movie_refs_ok, demo_movie. simpl. split_and!.
    - intros x [= <-]. by apply elem_of_cons; left.
    - repeat constructor.
    - repeat constructor. }
  split; [exact H|].
  exact (run_keeps_references None (Some [heat_row]) None demo_db H).
Defined.

Lemma stored_then_fetched_witness :
  keys_unique demo_db /\
  (let r := get_or_create_actor demo_db (lit "Val Kilmer") None in
   Actor.id r.2 = 3%Z /\ api.get_actor 3 r.1 = inr r.2) /\
  (let r := create_or_update_movie_by_ml_id demo_db 7 (lit "Heat")
              (Some 1995%Z) None None 0 None None None None None in
   api.get_movie (Movie.id r.2) r.1 = inr r.2).
Proof.
  split; [exact demo_keys_unique|].
  destruct (stored_then_fetched demo_db 7 (lit "Heat") (lit "Val Kilmer")
              (Some 1995%Z) None None None 0 None None None None None
              demo_keys_unique) as ((_ & Hm) & _ & (_ & Ha)).
  split; [|exact Hm]. split; [reflexivity|exact Ha].
Defined.

Lemma heat_row_accepted enricher :
  tmdb_id_of enricher (lit "Heat") (Some 1995%Z) = None \/
  tmdb_id_of enricher (lit "Heat") (Some 1995%Z) = Some 949%Z ->
  accepted enricher ∅ 1 (lit "Heat") (Some 1995%Z).
Proof. unfold accepted. by intros [-> | ->]. Qed.


Lemma last_row_wins_witness :
  exists movie,
    movie_by_ml_id
      (seed_movies None
         (Some [mkrow "1" "Heat" ""; mkrow "1" "Heat (1995)" "Action|Crime";
                mkrow "2" "Jumanji (1995)" "Adventure"]) ∅ models.empty).1.1 1
    = Some movie /\
    Movie.title movie = lit "Heat" /\ Movie.release_year movie = Some 1995%Z.
Proof.
  destruct (last_row_wins None ∅ [mkrow "1" "Heat" ""]
              [mkrow "2" "Jumanji (1995)" "Adventure"]
              (mkrow "1" "Heat (1995)" "Action|Crime") models.empty 1
              (lit "Heat") (Some 1995%Z) [lit "Action"; lit "Crime"])
    as (movie & _ & Hl & Ht & Hy).
  - constructor; [|constructor].
    exists 1%Z, (lit "Heat"), None, []. split; vm_compute; reflexivity.
  - vm_compute. reflexivity.
  - exact (heat_row_accepted None (or_introl eq_refl)).
  - refine (bool_decide_unpack _ _). vm_compute. exact I.
  - exists movie. split_and!; [exact Hl|exact Ht|exact Hy].
Defined.

Lemma seeded_movie_in_actor_movies_witness :
  exists movie,
    (seed_row None ∅ heat_row models.empty).2 = inr movie /\
    forall actor_id,
      movie ∈ get_actor_movies (seed_row None ∅ heat_row models.empty).1.1
                actor_id <->
      actor_id ∈ Movie.actors movie.
Proof.
  destruct (seeded_movie_in_actor_movies None ∅ heat_row models.empty 1
              (lit "Heat") (Some 1995%Z) [lit "Action"; lit "Crime"]
              heat_row_read (heat_row_accepted None (or_introl eq_refl)))
    as (movie & Hs & Hiff & _).
  exists movie. split; [exact Hs|exact Hiff].
Defined.

Lemma genres_endpoint_lists_parsed_witness :
  [lit "Adventure"]
  ⊆ map Genre.name
      (api.get_genres
         (seed_movies None (Some [heat_row; big_id_row; bad_id_row]) ∅
                      models.empty).1.1).
Proof.
  apply (genres_endpoint_lists_parsed None ∅ [heat_row] [bad_id_row] big_id_row
           models.empty 9223372036854775808 (lit "Jumanji") (Some 1995%Z)
           [lit "Adventure"]).
  - constructor; [|constructor].
    exists 1%Z, (lit "Heat"), (Some 1995%Z), [lit "Action"; lit "Crime"].
    split; [exact heat_row_read|].
    exact (heat_row_accepted None (or_introl eq_refl)).
  - vm_compute. reflexivity.
Defined.

Lemma enrichment_result_stored_witness :
  exists movie d acts,
    (seed_row (Some tmdb_heat) ∅ heat_row de_niro_db).2 = inr movie /\
    Movie.tmdb_id movie = Some 949%Z /\
    Movie.poster_url movie
      = Some (lit "https://image.tmdb.org/t/p/w500/heat.jpg") /\
    Movie.director_id movie = Some (Director.id d) /\
    Director.name d = lit "Michael Mann" /\
    NoDup (Movie.actors movie) /\
    (forall a, a ∈ Movie.actors movie <-> a ∈ map Actor.id acts) /\
    map Actor.name acts = [lit "Al Pacino"; lit "Robert De Niro"].
Proof.
  destruct (enrichment_result_stored tmdb_heat ∅ heat_row de_niro_db 1
              (lit "Heat") (Some 1995%Z) [lit "Action"; lit "Crime"]
              {| sr_id := Some 949%Z; sr_poster_path := Some (lit "/heat.jpg") |}
              [] 949
              {| cd_crew := Some [{| cm_job := Some (lit "Producer");
                                     cm_name := Some (lit "Art Linson") |};
                                  {| cm_job := Some (lit "Director");
                                     cm_name := Some (lit "Michael Mann") |}];
                 cd_cast := Some [{| ca_name := Some (lit "Al Pacino") |};
                                  {| ca_name := Some (lit "Robert De Niro") |}] |}
              {| cm_job := Some (lit "Director");
                 cm_name := Some (lit "Michael Mann") |}
              (lit "Michael Mann") [lit "Al Pacino"; lit "Robert De Niro"]
              heat_row_read eq_refl eq_refl eq_refl eq_refl eq_refl eq_refl
              (heat_row_accepted (Some tmdb_heat) (or_intror eq_refl)))
    as (movie & d & acts & Hs & _ & Htm & Hpu & Hd & _ & Hdn & Hnd & Ha & _ &
        Han & _).
  exists movie, d, acts.
  split_and!;
    [exact Hs|exact Htm|exact Hpu|exact Hd|exact Hdn|exact Hnd|exact Ha
    |exact Han].
Defined.

Lemma enrichment_without_director_witness :
  exists movie d acts,
    (seed_row (Some tmdb_no_director) ∅ heat_row models.empty).2 = inr movie /\
    Movie.tmdb_id movie = Some 949%Z /\
    Movie.director_id movie = Some (Director.id d) /\
    Director.name d = lit "Director_059" /\
    (forall a, a ∈ Movie.actors movie <-> a ∈ map Actor.id acts) /\
    map Actor.name acts = [lit "Al Pacino"].
Proof.
  destruct (enrichment_without_director tmdb_no_director ∅ heat_row
              models.empty 1 (lit "Heat") (Some 1995%Z)
              [lit "Action"; lit "Crime"]
              {| sr_id := Some 949%Z; sr_poster_path := Some (lit "/heat.jpg") |}
              [] 949
              {| cd_crew := Some [{| cm_job := Some (lit "Producer");
                                     cm_name := Some (lit "Art Linson") |}];
                 cd_cast := Some [{| ca_name := Some (lit "Al Pacino") |}] |}
              [lit "Al Pacino"]
              heat_row_read eq_refl eq_refl eq_refl eq_refl eq_refl
              (heat_row_accepted (Some tmdb_no_director) (or_intror eq_refl)))
    as (movie & d & acts & Hs & Htm & _ & Hd & Hdn & _ & Ha & _ & Han).
  exists movie, d, acts.
  split_and!; [exact Hs|exact Htm|exact Hd|exact Hdn|exact Ha|exact Han].
Defined.

Lemma failed_enrichment_leaves_entities_witness :
  exists movie acts,
    (seed_row (Some tmdb_half_cast) ∅ heat_row models.empty).2 = inr movie /\
    (seed_row (Some tmdb_half_cast) ∅ heat_row models.empty).1.2
      = [Warn_enrichment_failed (lit "Heat") KeyError] /\
    Movie.tmdb_id movie = None /\
    (forall a, a ∈ Movie.actors movie <-> a ∈ map Actor.id acts) /\
    map Actor.name acts = deterministic_placeholder_actors 1 5 /\
    lit "Al Pacino"
      ∈ actor_names (seed_row (Some tmdb_half_cast) ∅ heat_row models.empty).1.1 /\
    lit "Michael Mann"
      ∈ director_names
          (seed_row (Some tmdb_half_cast) ∅ heat_row models.empty).1.1.
Proof.
  destruct (failed_enrichment_leaves_entities tmdb_half_cast ∅ heat_row
              models.empty 1 (lit "Heat") (Some 1995%Z)
              [lit "Action"; lit "Crime"]
              {| sr_id := Some 949%Z; sr_poster_path := Some (lit "/heat.jpg") |}
              [] 949
              {| cd_crew := Some [{| cm_job := Some (lit "Director");
                                     cm_name := Some (lit "Michael Mann") |}];
                 cd_cast := Some [{| ca_name := Some (lit "Al Pacino") |};
                                  {| ca_name := None |};
                                  {| ca_name := Some (lit "Robert De Niro") |}] |}
              [{| ca_name := Some (lit "Al Pacino") |}]
              [{| ca_name := Some (lit "Robert De Niro") |}]
              {| ca_name := None |} [lit "Al Pacino"]
              heat_row_read eq_refl eq_refl eq_refl)
    as (movie & d & acts & Hs & Hlog & Htm & _ & _ & _ & _ & Ha & _ & Han &
        Hsub & Hdir).
  - intros dc [= <-]. by eexists.
  - reflexivity.
  - reflexivity.
  - reflexivity.
  - exact (heat_row_accepted (Some tmdb_half_cast) (or_introl eq_refl)).
  - exists movie, acts.
    split_and!; [exact Hs|exact Hlog|exact Htm|exact Ha|exact Han| |].
    + apply Hsub. apply elem_of_cons. left. reflexivity.
    + exact (Hdir {| cm_job := Some (lit "Director");
                     cm_name := Some (lit "Michael Mann") |}
                  (lit "Michael Mann") eq_refl eq_refl).
Defined.

(** The links are read back by key: against a catalog that already has
    Robert De Niro, the cast Al Pacino, Robert De Niro is resolved to the
    keys 2 and 1 and stored as the links 1 and 2; and a genre named
    twice in a row is linked once. *)
Example links_in_key_order :
  (exists movie,
     (seed_row (Some tmdb_heat) ∅ heat_row de_niro_db).2 = inr movie /\
     Movie.actors movie = [1%Z; 2%Z]) /\
  (exists movie,
     (seed_row None ∅ (mkrow "1" "Heat (1995)" "Action|Action")
               models.empty).2 = inr movie /\
     Movie.genres movie = [1%Z]).
Proof. split; eexists; vm_compute; split; reflexivity. Qed.

Lemma placeholder_actors_distinct_witness :
  5 <= 1000 /\ NoDup (deterministic_placeholder_actors 1 5).
Proof.
  assert (H : 5 <= 1000) by lia.
  split; [exact H|]. exact (proj1 (placeholder_actors_distinct 1 5 H)).
Defined.

Lemma parse_genres_round_trip_witness :
  parse_genres (lit " Action | |Crime") = [lit "Action"; lit "Crime"] /\
  parse_genres (join "|" (parse_genres (lit " Action | |Crime")))
  = parse_genres (lit " Action | |Crime").
Proof.
  split; [vm_compute; reflexivity|].
  apply (parse_genres_round_trip (lit " Action | |Crime")).
  vm_compute. discriminate.
Defined.

(** The one genre string the round trip loses. *)
Example genre_sentinel_lost_on_round_trip :
  parse_genres (lit " (no genres listed)") = [lit "(no genres listed)"] /\
  parse_genres (join "|" (parse_genres (lit " (no genres listed)"))) = [].
Proof. split; vm_compute; reflexivity. Qed.


(* ================================================================= *)
(** * The run as a whole *)

(** A run that completes has stored every row. *)
Lemma seed_rows_completed enricher ratings rows : forall n db k,
  (seed_rows enricher ratings rows n db).2 = inr k ->
  Forall (processable enricher ratings) rows /\ k = n + length rows.
Proof.
  induction rows as [|r rows IH]; intros n db k; cbn [seed_rows].
  - cbn. intros [= <-]. split; [constructor|lia].
  - destruct (seed_row enricher ratings r db) as [[db1 log] [e|movie]] eqn:Es;
      [discriminate|].
    specialize (IH (S n) db1 k).
    destruct (seed_rows enricher ratings rows (S n) db1) as [[db2 log2] res].
    cbn [fst snd] in *. intros H. destruct (IH H) as [Hall ->].
    split; [|simpl; lia]. constructor; [|exact Hall].
    destruct (read_row r) as [e|[[[id title] year] gn]] eqn:Hr.
    { rewrite (seed_row_failed _ _ _ _ _ Hr) in Es. discriminate. }
    exists id, title, year, gn. split; [done|].
    apply (seed_row_returned enricher ratings r db id title year gn movie Hr).
    by rewrite Es.
Qed.

(** C1 (as amended). A run fails when the movies file cannot be opened,
    when a row cannot be read (a missing column, a movie id that is not
    an integer literal, a missing title) and when the database refuses
    the integers of a row (a storage error). In the last two cases the
    exception of the first such row is logged as an error and re-raised
    and the rows after it are not processed; a row that cannot be read
    leaves the catalog as the rows before it left it, a row the database
    refuses adds no movie. A run over rows that can all be read and
    stored completes with their count, and only such a run completes: an
    exception raised by the enrichment of a movie is caught inside the
    iteration and logged as a warning, and the movie is still
    upserted. *)
Theorem run_outcome (enricher : option TMDbEnricher)
        (ratings : gmap Z (float * Z)) (db : Catalog) :
  seed_movies enricher None ratings db
    = (db, [Error_movies_not_found], Failed FileNotFoundError)
  /\ (forall rows,
        Forall (processable enricher ratings) rows <->
        (seed_movies enricher (Some rows) ratings db).2
          = Completed (length rows))
  /\ (forall pre r post e,
        Forall (processable enricher ratings) pre -> read_row r = inl e ->
        seed_movies enricher (Some (pre ++ r :: post)) ratings db
          = ((seed_movies enricher (Some pre) ratings db).1.1,
             (seed_movies enricher (Some pre) ratings db).1.2
               ++ [Error_seeding e],
             Failed e))
  /\ (forall pre r post id title year gn,
        Forall (processable enricher ratings) pre ->
        read_row r = inr (id, title, year, gn) ->
        ~ accepted enricher ratings id title year ->
        let before := seed_movies enricher (Some pre) ratings db in
        let step := seed_row enricher ratings r before.1.1 in
        seed_movies enricher (Some (pre ++ r :: post)) ratings db
          = (step.1.1,
             before.1.2 ++ step.1.2 ++ [Error_seeding OverflowError],
             Failed OverflowError) /\
        step.2 = inl OverflowError /\
        movies step.1.1 = movies before.1.1)
  /\ (forall tm r id title year gn e,
        enricher = Some tm ->
        read_row r = inr (id, title, year, gn) ->
        accepted enricher ratings id title year ->
        (enrich_movie_with_tmdb tm title year (resolve_genres db gn).1).2
          = inl e ->
        exists movie,
          (seed_row enricher ratings r db).2 = inr movie /\
          Movie.ml_id movie = id /\
          Movie.tmdb_id movie = None /\
          movie ∈ movies (seed_row enricher ratings r db).1.1 /\
          (seed_row enricher ratings r db).1.2
            = (enrich_movie_with_tmdb tm title year (resolve_genres db gn).1).1.2
              ++ [Warn_enrichment_failed title e]).
Proof.
  split_and!.
  - reflexivity.
  - intros rows. split.
    + intros Hwf. unfold seed_movies.
      pose proof (seed_rows_ok enricher ratings rows 0 db Hwf) as H.
      destruct (seed_rows enricher ratings rows 0 db) as [[db' log] res].
      cbn in *. by subst res.
    + unfold seed_movies.
      pose proof (seed_rows_completed enricher ratings rows 0 db) as H.
      destruct (seed_rows enricher ratings rows 0 db) as [[db' log] [e|k]];
        cbn in *; [discriminate|].
      intros _. by destruct (H k eq_refl).
  - intros pre r post e Hwf Hr. unfold seed_movies.
    rewrite (seed_rows_app enricher ratings pre (r :: post) 0 db Hwf).
    pose proof (seed_rows_ok enricher ratings pre 0 db Hwf) as Hpre.
    destruct (seed_rows enricher ratings pre 0 db) as [[db' log] res].
    cbn [fst snd] in *. subst res. cbn [seed_rows].
    rewrite (seed_row_failed enricher ratings r db' e Hr).
    cbn [fst snd]. by rewrite app_nil_r.
  - intros pre r post id title year gn Hwf Hr Hacc before step.
    subst step before. unfold seed_movies.
    rewrite (seed_rows_app enricher ratings pre (r :: post) 0 db Hwf).
    pose proof (seed_rows_ok enricher ratings pre 0 db Hwf) as Hpre.
    destruct (seed_rows enricher ratings pre 0 db) as [[db' log] res].
    cbn [fst snd] in *. subst res. cbn [seed_rows fst snd].
    destruct (seed_row_overflow_movies enricher ratings r db' id title year gn
                Hr Hacc) as [Hres Hm].
    destruct (seed_row enricher ratings r db') as [[db1 log1] res1].
    cbn [fst snd] in *. subst res1. cbn [fst snd].
    split_and!; [|done|done]. by rewrite <- app_assoc.
  - intros tm r id title year gn e -> Hr Hacc He.
    destruct (seed_row_stored (Some tm) ratings r db id title year gn Hr Hacc)
      as (movie & gens & Hs & _ & Hin & Hml & _).
    destruct (seed_row_credits (Some tm) ratings r db id title year gn Hr Hacc)
      as (movie' & Hs' & Hlog & Htm & _).
    rewrite Hs in Hs'. injection Hs' as <-.
    exists movie. revert Hlog Htm. unfold try_enrich.
    destruct (enrich_movie_with_tmdb tm title year (resolve_genres db gn).1)
      as [[dbe log] res].
    cbn [fst snd] in *. subst res. cbn [fst snd]. intros Hlog Htm.
    by split_and!.
Qed.

(** C1 as amended, on a service whose credits make the enrichment raise
    KeyError: the run over the row of "Heat (1995)" completes and the
    warning is logged; on the malformed row the run fails and stores
    nothing; on a row whose movie id is 2^63 the run fails with the
    genre of the row and its placeholder director and actors in the
    catalog, and no movie. *)
Lemma run_outcome_witness :
  (seed_movies (Some tmdb_broken_cast) (Some [heat_row]) ∅ models.empty).2
    = Completed 1 /\
  seed_movies (Some tmdb_broken_cast) (Some [bad_id_row; heat_row]) ∅
              models.empty
    = (models.empty, [Error_seeding ValueError], Failed ValueError) /\
  (seed_row (Some tmdb_broken_cast) ∅ heat_row models.empty).1.2
    = [Warn_enrichment_failed (lit "Heat") KeyError] /\
  (let run :=
     seed_movies (Some tmdb_broken_cast) (Some [heat_row; big_id_row; heat_row])
                 ∅ models.empty in
   run.2 = Failed OverflowError /\
   run.1.2 = [Warn_enrichment_failed (lit "Heat") KeyError;
              Warn_enrichment_failed (lit "Jumanji") KeyError;
              Error_seeding OverflowError] /\
   map Movie.ml_id (movies run.1.1) = [1%Z] /\
   genre_names run.1.1 = [lit "Action"; lit "Crime"; lit "Adventure"]).
Proof.
  pose proof (run_outcome (Some tmdb_broken_cast) ∅ models.empty)
    as (_ & Hok & Hbad & Hover & Hwarn).
  assert (Hheat : processable (Some tmdb_broken_cast) ∅ heat_row).
  { exists 1%Z, (lit "Heat"), (Some 1995%Z), [lit "Action"; lit "Crime"].
    split; [exact heat_row_read|].
    exact (heat_row_accepted (Some tmdb_broken_cast) (or_introl eq_refl)). }
  split_and!.
  - apply (Hok [heat_row]). constructor; [exact Hheat|constructor].
  - apply (Hbad [] bad_id_row [heat_row] ValueError).
    + constructor.
    + vm_compute. reflexivity.
  - destruct (Hwarn tmdb_broken_cast heat_row 1%Z (lit "Heat") (Some 1995%Z)
                [lit "Action"; lit "Crime"] KeyError eq_refl heat_row_read)
      as (movie & _ & _ & _ & _ & Hlog).
    + exact (heat_row_accepted (Some tmdb_broken_cast) (or_introl eq_refl)).
    + vm_compute. reflexivity.
    + exact Hlog.
  - destruct (Hover [heat_row] big_id_row [heat_row]
                (9223372036854775808)%Z (lit "Jumanji") (Some 1995%Z)
                [lit "Adventure"]) as (Hrun & _ & _).
    + constructor; [exact Hheat|constructor].
    + vm_compute. reflexivity.
    + unfold accepted. vm_compute. discriminate.
    + cbn [app] in Hrun. cbv zeta. rewrite Hrun. vm_compute. by split_and!.
Defined.

(** C5. With enrichment enabled, take a run over rows that can all be
    read and stored, and one of them whose enrichment is unavailable:
    the search request fails in transport or with an error status or
    finds nothing, or the credits request fails. The run completes with
    the count of its rows, and the iteration of that row upserts the
    movie with the placeholder director of its movie id and with links
    to the five placeholder actors of its movie id and to no other
    actor, all of them in the catalog. The five names are pairwise
    distinct, and in a catalog with unique primary keys the movie has
    five links. *)
Theorem enrichment_failure_falls_back
        (tm : TMDbEnricher) (ratings : gmap Z (float * Z)) (db : Catalog)
        (pre post : list row) (r : row)
        (id : Z) (title : str) (year : option Z) (gn : list str) :
  Forall (processable (Some tm) ratings) (pre ++ r :: post) ->
  read_row r = inr (id, title, year, gn) ->
  enrichment_unavailable tm title year ->
  (seed_movies (Some tm) (Some (pre ++ r :: post)) ratings db).2
    = Completed (length (pre ++ r :: post)) /\
  exists movie d acts,
    let before := (seed_movies (Some tm) (Some pre) ratings db).1.1 in
    let step := seed_row (Some tm) ratings r before in
    step.2 = inr movie /\
    movie ∈ movies step.1.1 /\
    Movie.ml_id movie = id /\ Movie.title movie = title /\
    Movie.release_year movie = year /\
    Movie.director_id movie = Some (Director.id d) /\
    d ∈ directors step.1.1 /\
    Director.name d = deterministic_placeholder_director id /\
    NoDup (Movie.actors movie) /\
    (forall a, a ∈ Movie.actors movie <-> a ∈ map Actor.id acts) /\
    Forall (fun a => a ∈ actors step.1.1) acts /\
    map Actor.name acts = deterministic_placeholder_actors id 5 /\
    length acts = 5 /\ NoDup (map Actor.name acts) /\
    (keys_unique db -> length (Movie.actors movie) = 5).
Proof.
  intros Hwf Hr Hun.
  assert (Hacc : accepted (Some tm) ratings id title year).
  { apply Forall_app in Hwf as [_ Hwf].
    inversion Hwf as [|? ? (id' & t' & y' & g' & Hr' & Ha) _]; subst.
    rewrite Hr in Hr'. by injection Hr' as <- <- <- <-. }
  split.
  - unfold seed_movies.
    pose proof (seed_rows_ok (Some tm) ratings _ 0 db Hwf) as H.
    destruct (seed_rows (Some tm) ratings _ 0 db) as [[db' log] res].
    cbn in *. by subst res.
  - cbv zeta.
    assert (K : keys_unique db ->
                keys_unique
                  (seed_row (Some tm) ratings r
                     (seed_movies (Some tm) (Some pre) ratings db).1.1).1.1).
    { intros K. apply (seed_row_inv keys_unique);
        [apply keys_unique_step|intros; by apply keys_unique_upsert|].
      apply (seed_movies_inv keys_unique);
        [apply keys_unique_step|intros; by apply keys_unique_upsert|exact K]. }
    revert K.
    generalize ((seed_movies (Some tm) (Some pre) ratings db).1.1).
    intros before K.
    destruct (seed_row_stored (Some tm) ratings r before id title year gn Hr
                Hacc) as (movie & gens & Hs & _ & Hin & Hml & Ht & Hy & _).
    destruct (seed_row_credits (Some tm) ratings r before id title year gn Hr
                Hacc) as (movie' & Hs' & _ & _ & _ & Hd & Ha & Hdin & Hain & _).
    rewrite Hs in Hs'. injection Hs' as <-.
    revert Hd Ha Hdin Hain. unfold try_enrich.
    destruct (enrich_unavailable tm title year (resolve_genres before gn).1 Hun)
      as (log & t & p & ->).
    cbn [fst snd or_placeholders].
    pose proof (create_placeholder_data_spec id (resolve_genres before gn).1)
      as Hp. cbv zeta in Hp.
    destruct (create_placeholder_data id (resolve_genres before gn).1)
      as [db1 [pd pacts]]. cbn [fst snd] in *.
    destruct Hp as (Hpd & Hpn & _ & _ & Hlen).
    intros Hd Ha Hdin Hain.
    assert (Nn : NoDup (map Actor.name pacts)).
    { rewrite Hpn. apply placeholder_actors_NoDup. lia. }
    exists movie, pd, pacts. split_and!; try done.
    + rewrite Ha. apply NoDup_links.
    + intros a. rewrite Ha. apply elem_of_links.
    + intros Ku. destruct (K Ku) as (_ & _ & KA & _).
      rewrite Ha, length_links, length_map; [done|].
      by apply (ids_of_distinct_names Actor.id Actor.name
                  (actors (seed_row (Some tm) ratings r before).1.1)).
Qed.

(** C5 with a service that is down: the run over the rows of movies 1
    and 739 completes, and movie 739, three of whose placeholder actors
    movie 1 has already created, is linked to the five actors named by
    the synthesizer, three older and two new. *)
Lemma enrichment_failure_falls_back_witness :
  let rows := [heat_row; mkrow "739" "Honeymoon in Vegas (1992)" "Comedy"] in
  let run := seed_movies (Some tmdb_down) (Some rows) ∅ models.empty in
  Forall (processable (Some tmdb_down) ∅) rows /\
  enrichment_unavailable tmdb_down (lit "Honeymoon in Vegas") (Some 1992%Z) /\
  run.2 = Completed 2 /\
  exists movie acts,
    movie_by_ml_id run.1.1 739 = Some movie /\
    Movie.actors movie = [1%Z; 2%Z; 3%Z; 6%Z; 7%Z] /\
    (forall a, a ∈ Movie.actors movie <-> a ∈ map Actor.id acts) /\
    map Actor.name acts
      = [lit "Actor_997"; lit "Actor_010"; lit "Actor_023"; lit "Actor_036";
         lit "Actor_049"] /\
    length (Movie.actors movie) = 5.
Proof.
  intros rows run.
  assert (Hwf : Forall (processable (Some tmdb_down) ∅) rows).
  { constructor; [|constructor; [|constructor]].
    - exists 1%Z, (lit "Heat"), (Some 1995%Z), [lit "Action"; lit "Crime"].
      split; vm_compute; reflexivity.
    - exists 739%Z, (lit "Honeymoon in Vegas"), (Some 1992%Z), [lit "Comedy"].
      split; vm_compute; reflexivity. }
  assert (Hun : enrichment_unavailable tmdb_down (lit "Honeymoon in Vegas")
                  (Some 1992%Z)).
  { left. left. reflexivity. }
  destruct (enrichment_failure_falls_back tmdb_down ∅ models.empty
              [heat_row] [] (mkrow "739" "Honeymoon in Vegas (1992)" "Comedy")
              739 (lit "Honeymoon in Vegas") (Some 1992%Z) [lit "Comedy"]
              Hwf eq_refl Hun)
    as (Hrun & movie & d & acts & Hs & _ & _ & _ & _ & _ & _ & _ & _ & Hiff &
        _ & Hnames & _ & _ & Hlen).
  split; [exact Hwf|]. split; [exact Hun|]. split; [exact Hrun|].
  exists movie, acts.
  assert (Hm : (seed_row (Some tmdb_down) ∅
                  (mkrow "739" "Honeymoon in Vegas (1992)" "Comedy")
                  (seed_movies (Some tmdb_down) (Some [heat_row]) ∅
                     models.empty).1.1).2 = inr movie) by exact Hs.
  vm_compute in Hm. injection Hm as <-.
  split_and!;
    [vm_compute; reflexivity|reflexivity|exact Hiff|exact Hnames
    |exact (Hlen empty_keys_unique)].
Defined.

(** C3, the claim as stated fails when the enrichment service answers
    in the second run and did not in the first: over the same movies
    file and ratings file, the run with the service down leaves one
    director and five actors, and the second run, with the service up,
    adds a director and two actors. *)
Lemma ingestion_counts_follow_service :
  let first := main (Some tmdb_down) (Some [heat_row]) None models.empty in
  let second := main (Some tmdb_heat) (Some [heat_row]) None first.1.1 in
  first.2 = Completed 1 /\ second.2 = Completed 1 /\
  counts first.1.1 = (1, 2, 1, 5) /\ counts second.1.1 = (1, 2, 2, 7).
Proof. vm_compute. by split_and!. Qed.
